(** * SmartLarva Edge: capture store, sync, heartbeat and cleanup loops

    A shallow embedding of the edge agent of the Raspberry-pi-network
    repository (main.py, sync/client.py, camera/*.py, sensors/*.py) and the
    properties of its upload / retention state machine.

    Conventions.
    - Python integers are [Z]; counts produced by [len] or [range] are [nat].
    - SQL flag columns (0 / 1) are [bool].
    - Timestamps are seconds on the UTC clock, as [Z]; the clock is an input
      of every tick.
    - Exceptions are values of [exn]; a tick runs in a state-and-exception
      monad in which the effects performed before a raise stay performed
      (every store call commits on its own).
    - The Python runtime (hashlib, pathlib, [str], [int]) is an interface,
      [Runtime]; every theorem holds for all its implementations. *)

From stdpp Require Import gmap strings list fin_maps sorting pretty.
From Stdlib Require Import ZArith QArith.QArith_base Strings.Byte.

#[local] Set Warnings "-register-all".
Local Open Scope string_scope.
Local Open Scope Z_scope.

(** ** The Python runtime *)

Abbreviation bytes := (list Byte.byte).

Inductive exn :=
  | ValueError | KeyError | AttributeError | IntegrityError
  | NotImplementedError | RuntimeError | OSError | FileNotFoundError
  | PermissionError | ConnectionError | HTTPError | JSONDecodeError.

(** A decoded JSON document, as [response.json()] returns it. *)
Inductive json :=
  | JNull
  | JBool (b : bool)
  | JInt (z : Z)
  | JReal (q : Q)
  | JStr (s : string)
  | JArr (l : list json)
  | JObj (fields : list (string * json)).

Class Runtime := {
  (** [hashlib.sha256(data).hexdigest()] *)
  sha256_hexdigest : bytes → string;
  (** [str(Path(d) / name)] *)
  path_join : string → string → string;
  (** [str(v)] of a decoded JSON value *)
  py_str : json → string;
  (** [int(s)]; [None] stands for the [ValueError] *)
  py_int : string → option Z;
}.

(** [f'{z:0{w}d}']: decimal, zero-filled to width [w], the sign counted in
    the width. *)
Definition zfill (w : nat) (s : string) : string :=
  String.concat EmptyString (replicate (w - String.length s)%nat "0") +:+ s.

Definition format_0d (w : nat) (z : Z) : string :=
  if decide (z < 0)
  then "-" +:+ zfill (w - 1) (pretty (Z.to_N (- z)))
  else zfill w (pretty (Z.to_N z)).

(** ** The file system *)

(** [files] maps a path to the bytes stored there; [locked] is the set of
    paths the process is not allowed to unlink ([os.remove] raises there). *)
Record FS := {
  files : gmap string bytes;
  locked : gset string;
}.

Definition os_path_exists (fs : FS) (p : string) : bool :=
  bool_decide (is_Some (files fs !! p)).

Definition os_remove (fs : FS) (p : string) : exn + FS :=
  match files fs !! p with
  | None => inl FileNotFoundError
  | Some _ =>
      if decide (p ∈ locked fs) then inl PermissionError
      else inr {| files := delete p (files fs); locked := locked fs |}
  end.

Definition write_file (fs : FS) (p : string) (data : bytes) : FS :=
  {| files := <[p := data]> (files fs); locked := locked fs |}.

(** ** The local store *)

Module Store.

Record CrateRecord := {
  crate_pk : Z;
  crate_label : string;
  location : option string;
  notes : option string;
  created_at : string;
  ended_at : option string;
}.

Record CaptureEventRecord := {
  event_id : Z;
  ev_crate_id : Z;
  camera_name : string;
  ev_captured_at : Z;
  burst_size : nat;
  ev_uploaded : bool;
}.

(** An image row. The row identifier ([id=None] at insertion) is given by
    the store and is not a field: it is the row's position in the table. *)
Record CapturedImageRecord := {
  event_local_id : Z;
  image_index : Z;
  local_path : string;
  captured_at : Z;
  size_bytes : nat;
  sha256_hex : string;
  width_px : Z;
  height_px : Z;
  format : string;
  metadata_uploaded : bool;
  uploaded : bool;
  local_exists : bool;
  corrupted : bool;
}.

Record SensorReadingRecord := {
  reading_id : Z;
  rd_crate_id : Z;
  recorded_at : Z;
  temperature_c : option Q;
  humidity_pct : option Q;
  rd_uploaded : bool;
}.

(** Modelled from the spec: the module [db] (class [Database]) is not among
    the sources. The store holds four append-only tables and the
    key-to-string process state (section 3 and 4.1 of the specification).
    Rows are never removed, so a table is the list of its rows in insertion
    order and the identifier of an image row is its position. *)
Record Database := {
  crates : list CrateRecord;
  events : list CaptureEventRecord;
  images : list CapturedImageRecord;
  readings : list SensorReadingRecord;
  state : gmap string string;
}.

Definition empty : Database :=
  {| crates := []; events := []; images := []; readings := []; state := ∅ |}.

Definition with_crates (db : Database) (l : list CrateRecord) : Database :=
  {| crates := l; events := events db; images := images db;
     readings := readings db; state := state db |}.
Definition with_events (db : Database) (l : list CaptureEventRecord) : Database :=
  {| crates := crates db; events := l; images := images db;
     readings := readings db; state := state db |}.
Definition with_images (db : Database) (l : list CapturedImageRecord) : Database :=
  {| crates := crates db; events := events db; images := l;
     readings := readings db; state := state db |}.
Definition with_readings (db : Database) (l : list SensorReadingRecord) : Database :=
  {| crates := crates db; events := events db; images := images db;
     readings := l; state := state db |}.
Definition with_state (db : Database) (m : gmap string string) : Database :=
  {| crates := crates db; events := events db; images := images db;
     readings := readings db; state := m |}.

(** Flag transitions of a single row. *)
Definition set_event_uploaded (e : CaptureEventRecord) : CaptureEventRecord :=
  {| event_id := event_id e; ev_crate_id := ev_crate_id e;
     camera_name := camera_name e; ev_captured_at := ev_captured_at e;
     burst_size := burst_size e; ev_uploaded := true |}.

Definition set_reading_uploaded (r : SensorReadingRecord) : SensorReadingRecord :=
  {| reading_id := reading_id r; rd_crate_id := rd_crate_id r;
     recorded_at := recorded_at r; temperature_c := temperature_c r;
     humidity_pct := humidity_pct r; rd_uploaded := true |}.

Definition set_flags (r : CapturedImageRecord) (m u l c : bool) : CapturedImageRecord :=
  {| event_local_id := event_local_id r; image_index := image_index r;
     local_path := local_path r; captured_at := captured_at r;
     size_bytes := size_bytes r; sha256_hex := sha256_hex r;
     width_px := width_px r; height_px := height_px r; format := format r;
     metadata_uploaded := m; uploaded := u; local_exists := l; corrupted := c |}.

Definition set_metadata_uploaded r :=
  set_flags r true (uploaded r) (local_exists r) (corrupted r).
Definition set_uploaded r :=
  set_flags r (metadata_uploaded r) true (local_exists r) (corrupted r).
Definition set_corrupted r :=
  set_flags r (metadata_uploaded r) (uploaded r) (local_exists r) true.
Definition set_deleted r :=
  set_flags r (metadata_uploaded r) (uploaded r) false (corrupted r).

(** Modelled from the spec: a row as a query of the absent [db] module
    returns it, identifier and columns. *)
Definition stored (db : Database) : list (nat * CapturedImageRecord) :=
  imap (λ i r, (i, r)) (images db).

(** Modelled from the spec: [insert_crate] of the absent [db] module is
    [upsertCrate], "insert if absent by identifier, else return existing id
    unchanged; never overwrites an existing crate's fields". *)
Definition insert_crate (db : Database) (c : CrateRecord) : Database * Z :=
  if decide (crate_pk c ∈ crate_pk <$> crates db)
  then (db, crate_pk c)
  else (with_crates db (crates db ++ [c]), crate_pk c).

(** Modelled from the spec: [insert_event] of the absent [db] module, an
    "append-only insert"; the specification names no failure for it. *)
Definition insert_event (db : Database) (e : CaptureEventRecord) : Database :=
  with_events db (events db ++ [e]).

(** Modelled from the spec: [insert_image] of the absent [db] module,
    append-only, "fail with IntegrityError on duplicate (event_id,
    image_index)". *)
Definition insert_image (db : Database) (r : CapturedImageRecord) : exn + Database :=
  if decide ((event_local_id r, image_index r) ∈
             (λ x, (event_local_id x, image_index x)) <$> images db)
  then inl IntegrityError
  else inr (with_images db (images db ++ [r])).

(** Modelled from the spec: [insert_sensor_reading] of the absent [db]
    module, append-only, failing with IntegrityError on a "duplicate
    reading_id". *)
Definition insert_sensor_reading (db : Database) (r : SensorReadingRecord)
  : exn + Database :=
  if decide (reading_id r ∈ reading_id <$> readings db)
  then inl IntegrityError
  else inr (with_readings db (readings db ++ [r])).

(** Modelled from the spec: [get_unsynced_events] of the absent [db]
    module, "rows where the relevant upload flag is unset, oldest-first,
    bounded by limit". *)
Definition get_unsynced_events (db : Database) (limit : nat)
  : list CaptureEventRecord :=
  take limit (filter (λ e, ev_uploaded e = false) (events db)).

(** Modelled from the spec: [get_sensor_readings] of the absent [db]
    module, the same query over the readings, by value of the flag. *)
Definition get_sensor_readings (db : Database) (up : bool) (limit : nat)
  : list SensorReadingRecord :=
  take limit (filter (λ r, rd_uploaded r = up) (readings db)).

(** Modelled from the spec: [get_images_for_event] of the absent [db]
    module, the images joined to an event (section 4.3, step 1). *)
Definition get_images_for_event (db : Database) (eid : Z)
  : list (nat * CapturedImageRecord) :=
  filter (λ x, event_local_id x.2 = eid) (stored db).

(** Modelled from the spec: the condition of the binary-sync query of the
    absent [db] module, "images whose metadata is uploaded but binary
    payload is not", a corrupted image being "never again selected". *)
Definition needs_upload (r : CapturedImageRecord) : Prop :=
  metadata_uploaded r = true ∧ uploaded r = false ∧ corrupted r = false.

#[global] Instance needs_upload_dec r : Decision (needs_upload r).
Proof. unfold needs_upload. apply _. Defined.

(** Modelled from the spec: [get_unsynced_images] of the absent [db]
    module, oldest first, bounded by [limit]. *)
Definition get_unsynced_images (db : Database) (limit : nat)
  : list (nat * CapturedImageRecord) :=
  take limit (filter (λ x, needs_upload x.2) (stored db)).

(** Modelled from the spec: the six [mark_...] operations of the absent
    [db] module are "idempotent flag transitions"; each sets its flag on the
    rows named by its arguments and changes nothing else. *)
Definition mark_event_uploaded (db : Database) (eid : Z) : Database :=
  with_events db
    ((λ e, if decide (event_id e = eid) then set_event_uploaded e else e)
       <$> events db).

(** Modelled from the spec: sets [metadata_uploaded] on the images of an
    event. *)
Definition mark_image_metadata_uploaded (db : Database) (eid : Z) : Database :=
  with_images db
    ((λ r, if decide (event_local_id r = eid) then set_metadata_uploaded r else r)
       <$> images db).

(** Modelled from the spec: sets [uploaded] on the image of that key. *)
Definition mark_image_uploaded (db : Database) (eid idx : Z) : Database :=
  with_images db
    ((λ r, if decide (event_local_id r = eid ∧ image_index r = idx)
           then set_uploaded r else r) <$> images db).

(** Modelled from the spec: sets [corrupted] on the row of that
    identifier. *)
Definition mark_image_corrupted (db : Database) (id : nat) : Database :=
  with_images db (alter set_corrupted id (images db)).

(** Modelled from the spec: sets [uploaded] on the reading of that
    identifier. *)
Definition mark_reading_uploaded (db : Database) (rid : Z) : Database :=
  with_readings db
    ((λ r, if decide (reading_id r = rid) then set_reading_uploaded r else r)
       <$> readings db).

(** Modelled from the spec: clears [local_exists] on the row of that
    identifier. *)
Definition mark_image_deleted (db : Database) (id : nat) : Database :=
  with_images db (alter set_deleted id (images db)).

Definition seconds_per_day : Z := 86400.

(** Modelled from the spec: the condition of [get_cleanup_candidates] of the
    absent [db] module, "images where local_exists=1 AND owning event id <=
    safeDeleteEventId AND capture timestamp older than retentionDays". With
    a retention of 0 days every image on disk at or below the watermark is
    a candidate, as in the scenario of section 8. *)

Definition cleanup_eligible (safe retention_days now : Z)
    (r : CapturedImageRecord) : Prop :=
  local_exists r = true ∧ event_local_id r ≤ safe ∧
  captured_at r + retention_days * seconds_per_day ≤ now.

Definition older (x y : nat * CapturedImageRecord) : Prop :=
  captured_at x.2 ≤ captured_at y.2.

#[global] Instance cleanup_eligible_dec safe days now r :
  Decision (cleanup_eligible safe days now r).
Proof. unfold cleanup_eligible. apply _. Defined.

#[global] Instance older_dec x y : Decision (older x y).
Proof. unfold older. apply _. Defined.

(** Modelled from the spec: [get_cleanup_candidates] of the absent [db]
    module, "oldest capture timestamp first", at most [limit]; the clock is
    the store's. *)
Definition get_cleanup_candidates (db : Database)
    (safe_delete_event_id retention_days : Z) (limit : nat) (now : Z)
  : list (nat * CapturedImageRecord) :=
  take limit
    (merge_sort older
       (filter (λ x, cleanup_eligible safe_delete_event_id retention_days now x.2)
          (stored db))).

(** Modelled from the spec: [get_state_value] and [set_state_value] of the
    absent [db] module, "generic scalar persistence"; an unset key is
    [None], distinct from any value. *)
Definition get_state_value (db : Database) (key : string) : option string :=
  state db !! key.

Definition set_state_value (db : Database) (key value : string) : Database :=
  with_state db (<[key := value]> (state db)).

End Store.

(** ** sync/client.py *)

Module Client.

(** What an HTTP call of the [requests] session comes to: the call raises
    (no route, time-out, reset), or a response with a status code arrives;
    [body] is its decoded JSON, [None] when the body is not JSON. *)
Inductive HttpOutcome :=
  | Unreachable
  | Response (status : Z) (body : option json).

(** [response.raise_for_status()] raises on 4xx and 5xx. *)
Definition raise_for_status (o : HttpOutcome) : exn + option json :=
  match o with
  | Unreachable => inl ConnectionError
  | Response status body =>
      if decide (400 ≤ status < 600) then inl HTTPError else inr body
  end.

(** Lookup in a decoded object; its keys are distinct, as those of a Python
    [dict] are. *)
Fixpoint dict_get (fields : list (string * json)) (key : string) : option json :=
  match fields with
  | [] => None
  | (k, v) :: rest => if decide (k = key) then Some v else dict_get rest key
  end.

(** [data.get(key)]: only a [dict] has the method; JSON [null] is Python's
    [None]. *)
Definition data_get (data : json) (key : string) : exn + option json :=
  match data with
  | JObj fields =>
      match dict_get fields key with
      | Some JNull | None => inr None
      | Some v => inr (Some v)
      end
  | _ => inl AttributeError
  end.

Definition watermark_key : string := "delete_safe_up_to_event_id".

(** The [try] block of [send_heartbeat]: post, [raise_for_status],
    [response.json()], [data.get]. *)
Definition heartbeat_request (o : HttpOutcome) : exn + option json :=
  match raise_for_status o with
  | inl e => inl e
  | inr None => inl JSONDecodeError
  | inr (Some data) => data_get data watermark_key
  end.

(** [except Exception: return None] *)
Definition send_heartbeat (o : HttpOutcome) : option json :=
  match heartbeat_request o with
  | inl _ => None
  | inr v => v
  end.

(** [True] when the post goes through, [False] on any exception. *)
Definition upload_metadata (o : HttpOutcome) : bool :=
  match raise_for_status o with
  | inl _ => false
  | inr _ => true
  end.

(** [upload_image] opens and reads the file before it sends it; [put] is
    the outcome of the PUT of these bytes. *)
Definition upload_image (fs : FS) (image_path : string)
    (put : bytes → HttpOutcome) : bool :=
  match files fs !! image_path with
  | None => false
  | Some data =>
      match raise_for_status (put data) with
      | inl _ => false
      | inr _ => true
      end
  end.

(** *** The addresses of the three endpoints *)

Definition slash : Ascii.ascii := Ascii.ascii_of_nat 47.

(** [s.rstrip(c)] for a set of one character: the run of [c] that ends the
    string is cut off. *)
Fixpoint rstrip (c : Ascii.ascii) (s : string) : string :=
  match s with
  | EmptyString => EmptyString
  | String a rest =>
      match rstrip c rest with
      | EmptyString => if decide (a = c) then EmptyString else String a EmptyString
      | kept => String a kept
      end
  end.

Record SyncClient := {
  base_url : string;
  device_id : string;
  timeout : Z;
}.

(** [SyncClient.__init__], called with [timeout] left at its default. *)
Definition new_client (base_url device_id : string) : SyncClient :=
  {| base_url := rstrip slash base_url; device_id := device_id; timeout := 10 |}.

(** The three f-strings; an integer is formatted as [str] gives it. *)
Definition heartbeat_url (c : SyncClient) : string :=
  base_url c +:+ "/api/heartbeat".

Definition metadata_url (c : SyncClient) : string :=
  base_url c +:+ "/api/upload/metadata".

Definition image_url (c : SyncClient) (event_local_id image_index : Z) : string :=
  base_url c +:+ "/api/upload/image/" +:+ device_id c +:+ "/" +:+
  pretty event_local_id +:+ "/" +:+ pretty image_index.

End Client.

(** ** camera/base.py, camera/mock_camera.py, camera/rpi_camera.py *)

Module Camera.

Record CapturedImage := {
  image_index : nat;
  local_path : string;
  size_bytes : nat;
  sha256_hex : string;
  width_px : Z;
  height_px : Z;
  format : string;
  captured_at : Z;
}.

(** What the world hands to one call of [capture_burst]. *)
Inductive ToolOutcome :=
  | ToolMissing
  | ToolFailed (written : list (string * bytes))
  | ToolRan (written : list (string * bytes)).

Record Scene := {
  burst_clock : Z;
  frame_clock : nat → Z;
  (** the JPEG encoding of the frame drawn for an index; [None] when
      saving it fails *)
  jpeg : nat → option bytes;
  (** the run of [libcamera-still] *)
  tool : ToolOutcome;
}.

(** A [hashlib.sha256()] object: the bytes fed to it so far. *)
Record hasher := { absorbed : bytes }.
Definition update (h : hasher) (chunk : bytes) : hasher :=
  {| absorbed := absorbed h ++ chunk |}.
Definition hexdigest `{Runtime} (h : hasher) : string :=
  sha256_hexdigest (absorbed h).

Definition chunk_size : nat := Z.to_nat 8192.

(** [for chunk in iter(lambda: f.read(size), b''): h.update(chunk)]. Every
    round consumes at least one byte, so [length rest] rounds are enough. *)
Fixpoint read_chunks (size rounds : nat) (h : hasher) (rest : bytes) : hasher :=
  match take size rest with
  | [] => h
  | chunk =>
      match rounds with
      | O => h
      | S k => read_chunks size k (update h chunk) (drop size rest)
      end
  end.

Definition _compute_sha256 `{Runtime} (fs : FS) (path : string) : exn + string :=
  match files fs !! path with
  | None => inl FileNotFoundError
  | Some data =>
      inr (hexdigest (read_chunks chunk_size (length data) {| absorbed := [] |} data))
  end.

Definition os_path_getsize (fs : FS) (path : string) : exn + nat :=
  match files fs !! path with
  | None => inl FileNotFoundError
  | Some data => inr (length data)
  end.

Definition image_filename (event_local_id : Z) (idx : nat) : string :=
  format_0d 8 event_local_id +:+ "_" +:+ format_0d 3 (Z.of_nat idx) +:+ ".jpg".

(** The abstract base class. *)
Class CameraBackend (C : Type) := {
  capture_burst : C → Scene → Z → string → Z → FS → FS * (exn + list CapturedImage)
}.

Record MockCamera := { mock_width : Z; mock_height : Z }.
Record RpiCamera := { rpi_width : Z; rpi_height : Z; quality : Z }.

Definition new_mock : MockCamera := {| mock_width := 640; mock_height := 480 |}.
Definition new_rpi : RpiCamera :=
  {| rpi_width := 4056; rpi_height := 3040; quality := 90 |}.

Section backends.
Context `{Runtime}.

(** One round of the loop of [MockCamera.capture_burst]. *)
Definition mock_frame (cam : MockCamera) (sc : Scene) (event_local_id : Z)
    (out_dir : string) (idx : nat) (fs : FS) : FS * (exn + CapturedImage) :=
  let path := path_join out_dir (image_filename event_local_id idx) in
  match jpeg sc idx with
  | None => (fs, inl OSError)
  | Some data =>
      let fs1 := write_file fs path data in
      match os_path_getsize fs1 path, _compute_sha256 fs1 path with
      | inr size, inr sha =>
          (fs1, inr {| image_index := idx; local_path := path;
                       size_bytes := size; sha256_hex := sha;
                       width_px := mock_width cam; height_px := mock_height cam;
                       format := "jpg"; captured_at := burst_clock sc |})
      | inl e, _ | _, inl e => (fs1, inl e)
      end
  end.

Fixpoint mock_loop (cam : MockCamera) (sc : Scene) (event_local_id : Z)
    (out_dir : string) (idxs : list nat) (captured : list CapturedImage)
    (fs : FS) : FS * (exn + list CapturedImage) :=
  match idxs with
  | [] => (fs, inr captured)
  | idx :: rest =>
      match mock_frame cam sc event_local_id out_dir idx fs with
      | (fs1, inl e) => (fs1, inl e)
      | (fs1, inr img) =>
          mock_loop cam sc event_local_id out_dir rest (captured ++ [img]) fs1
      end
  end.

Definition mock_capture_burst (cam : MockCamera) (sc : Scene)
    (event_local_id : Z) (out_dir : string) (burst_size : Z) (fs : FS)
  : FS * (exn + list CapturedImage) :=
  mock_loop cam sc event_local_id out_dir (seq 0 (Z.to_nat burst_size)) [] fs.

Definition write_all (fs : FS) (written : list (string * bytes)) : FS :=
  foldl (λ acc pd, write_file acc pd.1 pd.2) fs written.

Fixpoint rpi_loop (cam : RpiCamera) (sc : Scene) (event_local_id : Z)
    (out_dir : string) (idxs : list nat) (captured : list CapturedImage)
    (fs : FS) : exn + list CapturedImage :=
  match idxs with
  | [] => inr captured
  | idx :: rest =>
      let path := path_join out_dir (image_filename event_local_id idx) in
      if os_path_exists fs path then
        match os_path_getsize fs path, _compute_sha256 fs path with
        | inr size, inr sha =>
            rpi_loop cam sc event_local_id out_dir rest
              (captured ++
               [{| image_index := idx; local_path := path;
                   size_bytes := size; sha256_hex := sha;
                   width_px := rpi_width cam; height_px := rpi_height cam;
                   format := "jpg"; captured_at := frame_clock sc idx |}]) fs
        | inl e, _ | _, inl e => inl e
        end
      else rpi_loop cam sc event_local_id out_dir rest captured fs
  end.

Definition rpi_capture_burst (cam : RpiCamera) (sc : Scene)
    (event_local_id : Z) (out_dir : string) (burst_size : Z) (fs : FS)
  : FS * (exn + list CapturedImage) :=
  match tool sc with
  | ToolMissing => (fs, inl NotImplementedError)
  | ToolFailed written => (write_all fs written, inl RuntimeError)
  | ToolRan written =>
      let fs1 := write_all fs written in
      (fs1, rpi_loop cam sc event_local_id out_dir
              (seq 0 (Z.to_nat burst_size)) [] fs1)
  end.

#[global] Instance mock_backend : CameraBackend MockCamera :=
  {| capture_burst := mock_capture_burst |}.
#[global] Instance rpi_backend : CameraBackend RpiCamera :=
  {| capture_burst := rpi_capture_burst |}.
End backends.

End Camera.

(** ** sensors/mock_sensors.py, sensors/dht22.py *)

Module Sensors.

Record SensorReading := {
  reading_id : Z;
  crate_id : Z;
  recorded_at : Z;
  temperature_c : option Q;
  humidity_pct : option Q;
}.

(** What the world hands to one call of [read]. *)
Record Air := {
  sensor_clock : Z;
  random_temperature : Q;
  random_humidity : Q;
  (** [Adafruit_DHT.read_retry]: humidity and temperature, [None] on a
      failed read *)
  read_retry : option Q * option Q;
}.

Record DHT22Sensor := { pin : Z }.

Inductive Sensor :=
  | MockSensor
  | DHT22 (s : DHT22Sensor).

Definition mock_read (air : Air) (crate_id reading_id : Z) : exn + SensorReading :=
  inr {| reading_id := reading_id; crate_id := crate_id;
         recorded_at := sensor_clock air;
         temperature_c := Some (random_temperature air);
         humidity_pct := Some (random_humidity air) |}.

Definition dht22_read (s : DHT22Sensor) (air : Air) (crate_id reading_id : Z)
  : exn + SensorReading :=
  match read_retry air with
  | (Some humidity, Some temperature) =>
      inr {| reading_id := reading_id; crate_id := crate_id;
             recorded_at := sensor_clock air;
             temperature_c := Some temperature;
             humidity_pct := Some humidity |}
  | _ => inl RuntimeError
  end.

Definition read (s : Sensor) (air : Air) (crate_id reading_id : Z)
  : exn + SensorReading :=
  match s with
  | MockSensor => mock_read air crate_id reading_id
  | DHT22 d => dht22_read d air crate_id reading_id
  end.

End Sensors.

(** ** config.py *)

Module Config.

(** The [crate:] section of the YAML file, every key optional. [None]
    stands for a key that the file does not have; a key that holds null, or
    a value of another type than main.py expects, has no counterpart in
    these records. *)
Record Crate := {
  id : option Z;
  label : option string;
  location : option string;
  notes : option string;
  started_at : option string;
  ended_at : option string;
}.

Record Config := {
  device_id : string;
  base_url : string;
  image_dir : string;
  burst_size : Z;
  retention_days : Z;
  camera_backend : string;
  sensor_enabled : bool;
  (** the keys of [extra] that main.py reads *)
  sensor_backend : option string;
  camera_name : option string;
  dht22_pin : option Z;
  crate : option Crate;
}.

End Config.

(** ** config.py: the dataclass and its loader *)

Module ConfigFile.

(** The document is what [yaml.safe_load] returns: a tree whose scalars
    are null, booleans, integers, rationals and strings, and whose mappings
    have text keys. The dataclass does not check the type of a value, so a
    field holds whatever the document gives it. *)
Record Config := {
  device_id : json;
  base_url : json;
  db_path : json;
  image_dir : json;
  burst_size : json;
  capture_interval : json;
  heartbeat_interval : json;
  sync_interval : json;
  cleanup_interval : json;
  retention_days : json;
  camera_backend : json;
  sensor_enabled : bool;
  log_file : json;
  extra : list (string * json);
}.

(** [Config(device_id=..., base_url=...)]: the defaults of the fields. *)
Definition defaults (device_id base_url : json) : Config := {|
  device_id := device_id;
  base_url := base_url;
  db_path := JStr "./smartlarva_edge.db";
  image_dir := JStr "./images";
  burst_size := JInt 10;
  capture_interval := JInt 60;
  heartbeat_interval := JInt 300;
  sync_interval := JInt 120;
  cleanup_interval := JInt 3600;
  retention_days := JInt 30;
  camera_backend := JStr "mock";
  sensor_enabled := false;
  log_file := JStr "./edge.log";
  extra := [];
|}.

(** [cls.__annotations__]: the names of the fields. *)
Definition annotations : list string :=
  ["device_id"; "base_url"; "db_path"; "image_dir"; "burst_size";
   "capture_interval"; "heartbeat_interval"; "sync_interval";
   "cleanup_interval"; "retention_days"; "camera_backend"; "sensor_enabled";
   "log_file"; "extra"].

Definition required_keys : list string := ["device_id"; "base_url"].

(** What [from_yaml] raises once the file is read and parsed. *)
Inductive load_exn :=
  | KeyError (missing : list string)
  | TypeError.

Fixpoint starts_with (k s : string) : bool :=
  match k, s with
  | EmptyString, _ => true
  | String a k', String b s' => bool_decide (a = b) && starts_with k' s'
  | String _ _, EmptyString => false
  end.

(** [k in s] between two strings. *)
Fixpoint occurs (k s : string) : bool :=
  starts_with k s ||
  match s with
  | EmptyString => false
  | String _ s' => occurs k s'
  end.

(** [k in data]: a key of a mapping, an item of a sequence, a substring of
    a string; the other scalars are not containers. *)
Definition contains (data : json) (k : string) : load_exn + bool :=
  match data with
  | JObj fields => inr (bool_decide (is_Some (Client.dict_get fields k)))
  | JArr items =>
      inr (existsb (λ v, match v with
                         | JStr s => bool_decide (s = k)
                         | _ => false
                         end) items)
  | JStr s => inr (occurs k s)
  | JNull | JBool _ | JInt _ | JReal _ => inl TypeError
  end.

(** [[k for k in keys if k not in data]] *)
Fixpoint missing_keys (data : json) (keys : list string)
  : load_exn + list string :=
  match keys with
  | [] => inr []
  | k :: rest =>
      match contains data k with
      | inl e => inl e
      | inr present =>
          match missing_keys data rest with
          | inl e => inl e
          | inr missing => inr (if present then missing else k :: missing)
          end
      end
  end.

(** [data[k]] with a text subscript: only a mapping takes one. *)
Definition subscript (data : json) (k : string) : load_exn + json :=
  match data with
  | JObj fields =>
      match Client.dict_get fields k with
      | Some v => inr v
      | None => inl (KeyError [k])
      end
  | _ => inl TypeError
  end.

(** [data.get(k, default)] of a mapping. *)
Definition get (fields : list (string * json)) (k : string) (default : json)
  : json :=
  match Client.dict_get fields k with
  | Some v => v
  | None => default
  end.

(** [bool(v)] *)
Definition truthy (v : json) : bool :=
  match v with
  | JNull => false
  | JBool b => b
  | JInt z => negb (z =? 0)
  | JReal q => negb (Qnum q =? 0)
  | JStr s => negb (bool_decide (s = EmptyString))
  | JArr items => match items with [] => false | _ => true end
  | JObj fields => match fields with [] => false | _ => true end
  end.

(** [Config.from_yaml], from the parsed document on. *)
Definition from_yaml (data : json) : load_exn + Config :=
  match missing_keys data required_keys with
  | inl e => inl e
  | inr (k :: rest) => inl (KeyError (k :: rest))
  | inr [] =>
      match subscript data "device_id" with
      | inl e => inl e
      | inr device_id =>
          match subscript data "base_url" with
          | inl e => inl e
          | inr base_url =>
              match data with
              | JObj fields =>
                  inr {|
                    device_id := device_id;
                    base_url := base_url;
                    db_path := get fields "db_path" (JStr "./smartlarva_edge.db");
                    image_dir := get fields "image_dir" (JStr "./images");
                    burst_size := get fields "burst_size" (JInt 10);
                    capture_interval := get fields "capture_interval" (JInt 60);
                    heartbeat_interval := get fields "heartbeat_interval" (JInt 300);
                    sync_interval := get fields "sync_interval" (JInt 120);
                    cleanup_interval := get fields "cleanup_interval" (JInt 3600);
                    retention_days := get fields "retention_days" (JInt 30);
                    camera_backend := get fields "camera_backend" (JStr "mock");
                    sensor_enabled :=
                      truthy (get fields "sensor_enabled" (JBool false));
                    log_file := get fields "log_file" (JStr "./edge.log");
                    extra := filter (λ kv, kv.1 ∉ annotations) fields;
                  |}
              | _ => inl TypeError
              end
          end
      end
  end.

End ConfigFile.

(** ** main.py *)

Module Edge.
Import Store.

Inductive CameraObject :=
  | Mock (c : Camera.MockCamera)
  | Rpi (c : Camera.RpiCamera).

Record SmartLarvaEdge := {
  config : Config.Config;
  crate_id : Z;
  camera : CameraObject;
  sensor : option Sensors.Sensor;
  _event_counter : Z;
  _reading_counter : Z;
}.

(** The process, its store and the disk. The store and the disk outlive
    the process. *)
Record World := {
  self : SmartLarvaEdge;
  db : Database;
  fs : FS;
}.

Definition with_db (w : World) (d : Database) : World :=
  {| self := self w; db := d; fs := fs w |}.
Definition with_fs (w : World) (f : FS) : World :=
  {| self := self w; db := db w; fs := f |}.
Definition with_counters (w : World) (ec rc : Z) : World :=
  {| self := {| config := config (self w); crate_id := crate_id (self w);
                camera := camera (self w); sensor := sensor (self w);
                _event_counter := ec; _reading_counter := rc |};
     db := db w; fs := fs w |}.

(** *** The monad of a tick

    A computation takes the world and returns the world it leaves and
    either a value or the exception it raised. The world is kept on a
    raise: nothing is rolled back. *)
Definition M (A : Type) : Type := World → World * (exn + A).

Definition ret {A} (a : A) : M A := λ w, (w, inr a).
Definition raise {A} (e : exn) : M A := λ w, (w, inl e).
Definition bind {A B} (m : M A) (k : A → M B) : M B :=
  λ w, match m w with
       | (w1, inl e) => (w1, inl e)
       | (w1, inr a) => k a w1
       end.
(** [try: m except Exception: log] *)
Definition try_except (m : M unit) : M unit :=
  λ w, ((m w).1, inr tt).

Notation "x <~ m ;; k" := (bind m (λ x, k))
  (at level 100, m at next level, right associativity, only parsing).
Notation "m ;;; k" := (bind m (λ _, k))
  (at level 100, right associativity, only parsing).

Definition gets {A} (f : World → A) : M A := λ w, (w, inr (f w)).
Definition modify (f : World → World) : M unit := λ w, (f w, inr tt).
Definition lift {A} (r : exn + A) : M A := λ w, (w, r).
Definition db_call (f : Database → Database) : M unit :=
  modify (λ w, with_db w (f (db w))).
Definition db_try (f : Database → exn + Database) : M unit :=
  λ w, match f (db w) with
       | inl e => (w, inl e)
       | inr d => (with_db w d, inr tt)
       end.
Definition when (b : bool) (m : M unit) : M unit := if b then m else ret tt.

Fixpoint for_each {A} (l : list A) (body : A → M unit) : M unit :=
  match l with
  | [] => ret tt
  | x :: rest => body x ;;; for_each rest body
  end.

(** *** What the world hands to each tick *)

Record CaptureEnv := {
  utcnow : Z;
  air : Sensors.Air;
  scene : Camera.Scene;
}.

Record ImageMeta := {
  im_image_index : Z; im_size_bytes : nat; im_sha256_hex : string;
  im_width_px : Z; im_height_px : Z; im_format : string;
}.
Record EventMeta := {
  em_device_id : string; em_event_local_id : Z; em_crate_id : Z;
  em_camera_name : string; em_captured_at : Z; em_burst_size : nat;
  em_images : list ImageMeta;
}.
Record ReadingMeta := {
  rm_device_id : string; rm_reading_local_id : Z; rm_crate_id : Z;
  rm_recorded_at : Z; rm_temperature_c : option Q; rm_humidity_pct : option Q;
}.
Inductive MetaRecord :=
  | EventRecord (e : EventMeta)
  | ReadingRecord (r : ReadingMeta).

(** The network and the server during one tick, as functions of the
    request. *)
Record Server := {
  heartbeat_reply : string → Z → Client.HttpOutcome;
  metadata_reply : list MetaRecord → Client.HttpOutcome;
  image_reply : string → Z → Z → string → bytes → Client.HttpOutcome;
}.

Record Boot := {
  (** whether [from .sensors.dht22 import DHT22Sensor] succeeds *)
  dht22_importable : bool;
  (** [str.lower] *)
  lower : string → string;
}.

Inductive Tick :=
  | CaptureTick (env : CaptureEnv)
  | HeartbeatTick (srv : Server)
  | SyncTick (srv : Server)
  | CleanupTick (now : Z)
  | Restart (boot : Boot).

(** [SELECT MAX(column) FROM table]: [None] on an empty table. *)
Definition sql_max (column : list Z) : option Z :=
  match column with
  | [] => None
  | x :: rest => Some (foldl Z.max x rest)
  end.

Inductive Table := capture_events_local | sensor_readings_local.

Definition column (d : Database) (t : Table) : list Z :=
  match t with
  | capture_events_local => event_id <$> events d
  | sensor_readings_local => reading_id <$> readings d
  end.

Definition _get_max_id (d : Database) (t : Table) : Z :=
  match sql_max (column d t) with
  | Some max_id => max_id
  | None => 0
  end.

Section loops.
Context `{Runtime}.

Definition _init_camera (c : Config.Config) : exn + CameraObject :=
  if decide (Config.camera_backend c = "mock") then inr (Mock Camera.new_mock)
  else if decide (Config.camera_backend c = "rpi") then inr (Rpi Camera.new_rpi)
  else inl ValueError.

Definition _init_sensor (c : Config.Config) (boot : Boot)
  : option Sensors.Sensor :=
  if negb (Config.sensor_enabled c) then None
  else
    let backend := lower boot (default "mock" (Config.sensor_backend c)) in
    if decide (backend = "mock") then Some Sensors.MockSensor
    else if decide (backend = "dht22") then
      if dht22_importable boot
      then Some (Sensors.DHT22 {| Sensors.pin := default 4 (Config.dht22_pin c) |})
      else Some Sensors.MockSensor
    else Some Sensors.MockSensor.

Definition _ensure_crate (c : Config.Config) (d : Database)
  : exn + (Database * Z) :=
  match Config.crate c with
  | None => inl ValueError
  | Some crate_cfg =>
      match Config.id crate_cfg, Config.label crate_cfg,
            Config.started_at crate_cfg with
      | Some crate_id, Some label, Some started_at =>
          inr (insert_crate d
                 {| crate_pk := crate_id; crate_label := label;
                    location := Config.location crate_cfg;
                    notes := Config.notes crate_cfg;
                    created_at := started_at;
                    ended_at := Config.ended_at crate_cfg |})
      | _, _, _ => inl ValueError
      end
  end.

(** [SmartLarvaEdge.__init__] *)
Definition startup (c : Config.Config) (boot : Boot) (d : Database) (f : FS)
  : exn + World :=
  match _ensure_crate c d with
  | inl e => inl e
  | inr (d1, crate_id) =>
      match _init_camera c with
      | inl e => inl e
      | inr cam =>
          inr {| self := {| config := c; crate_id := crate_id;
                            camera := cam;
                            sensor := _init_sensor c boot;
                            _event_counter := _get_max_id d1 capture_events_local;
                            _reading_counter := _get_max_id d1 sensor_readings_local |};
                 db := d1; fs := f |}
      end
  end.


(** [self.camera.capture_burst(...)]: the call goes to the backend chosen
    at start-up. *)
Definition dispatch_capture_burst (cam : CameraObject) (sc : Camera.Scene)
    (event_local_id : Z) (out_dir : string) (burst_size : Z) (f : FS)
  : FS * (exn + list Camera.CapturedImage) :=
  match cam with
  | Mock c => Camera.capture_burst c sc event_local_id out_dir burst_size f
  | Rpi c => Camera.capture_burst c sc event_local_id out_dir burst_size f
  end.

Definition camera_capture_burst (cam : CameraObject) (sc : Camera.Scene)
    (event_local_id : Z) (out_dir : string) (burst_size : Z)
  : M (list Camera.CapturedImage) :=
  λ w,
    let r := dispatch_capture_burst cam sc event_local_id out_dir burst_size (fs w) in
    (with_fs w r.1, r.2).

Definition image_record (event_id : Z) (img : Camera.CapturedImage)
  : CapturedImageRecord :=
  {| event_local_id := event_id;
     image_index := Z.of_nat (Camera.image_index img);
     local_path := Camera.local_path img;
     captured_at := Camera.captured_at img;
     size_bytes := Camera.size_bytes img;
     sha256_hex := Camera.sha256_hex img;
     width_px := Camera.width_px img;
     height_px := Camera.height_px img;
     format := Camera.format img;
     metadata_uploaded := false; uploaded := false;
     local_exists := true; corrupted := false |}.

Definition reading_record (reading : Sensors.SensorReading)
  : SensorReadingRecord :=
  {| reading_id := Sensors.reading_id reading;
     rd_crate_id := Sensors.crate_id reading;
     recorded_at := Sensors.recorded_at reading (* .isoformat() *);
     temperature_c := Sensors.temperature_c reading;
     humidity_pct := Sensors.humidity_pct reading;
     rd_uploaded := false |}.

Definition insert_images (event_id : Z) (images : list Camera.CapturedImage)
  : M unit :=
  for_each images (λ img, db_try (λ d, insert_image d (image_record event_id img))).

(** The body of the [try] of [capture_loop], in its two blocks:
    "capture sensor reading if sensor available" and "capture images". *)
Definition capture_reading (env : CaptureEnv) (crate_id : Z) : M unit :=
  sensor <~ gets (λ w, sensor (self w)) ;;
  match sensor with
  | Some sensor =>
      modify (λ w, with_counters w (_event_counter (self w))
                     (_reading_counter (self w) + 1)) ;;;
      reading_id <~ gets (λ w, _reading_counter (self w)) ;;
      reading <~ lift (Sensors.read sensor (air env) crate_id reading_id) ;;
      db_try (λ d, insert_sensor_reading d (reading_record reading))
  | None => ret tt
  end.

Definition event_record (w : World) (event_id crate_id captured_at : Z)
    (images : list Camera.CapturedImage) : CaptureEventRecord :=
  {| event_id := event_id; ev_crate_id := crate_id;
     camera_name := default "camera_0" (Config.camera_name (config (self w)));
     ev_captured_at := captured_at;
     burst_size := length images; ev_uploaded := false |}.

Definition capture_images (env : CaptureEnv) (event_id crate_id captured_at : Z)
  : M unit :=
  out_dir <~ gets (λ w, Config.image_dir (config (self w))) ;;
  cam <~ gets (λ w, camera (self w)) ;;
  requested <~ gets (λ w, Config.burst_size (config (self w))) ;;
  images <~ camera_capture_burst cam (scene env) event_id out_dir requested ;;
  event <~ gets (λ w, event_record w event_id crate_id captured_at images) ;;
  db_call (λ d, insert_event d event) ;;;
  insert_images event_id images.

Definition capture_once (env : CaptureEnv) : M unit :=
  modify (λ w, with_counters w (_event_counter (self w) + 1)
                 (_reading_counter (self w))) ;;;
  event_id <~ gets (λ w, _event_counter (self w)) ;;
  crate_id <~ gets (λ w, crate_id (self w)) ;;
  let captured_at := utcnow env in
  capture_reading env crate_id ;;;
  capture_images env event_id crate_id captured_at.

(** The body of the [try] of [heartbeat_loop]. *)
Definition heartbeat_once (srv : Server) : M unit :=
  last_event_id <~ gets (λ w, _get_max_id (db w) capture_events_local) ;;
  device <~ gets (λ w, Config.device_id (config (self w))) ;;
  let safe_id := Client.send_heartbeat (heartbeat_reply srv device last_event_id) in
  match safe_id with
  | Some v => db_call (λ d, set_state_value d Client.watermark_key (py_str v))
  | None => ret tt
  end.

Definition image_meta (img : nat * CapturedImageRecord) : ImageMeta :=
  {| im_image_index := image_index img.2; im_size_bytes := size_bytes img.2;
     im_sha256_hex := sha256_hex img.2; im_width_px := width_px img.2;
     im_height_px := height_px img.2; im_format := format img.2 |}.

Definition event_meta (device : string) (d : Database)
    (event : CaptureEventRecord) : MetaRecord :=
  EventRecord
    {| em_device_id := device; em_event_local_id := event_id event;
       em_crate_id := ev_crate_id event; em_camera_name := camera_name event;
       em_captured_at := ev_captured_at event;
       em_burst_size := burst_size event;
       em_images := image_meta <$> get_images_for_event d (event_id event) |}.

Definition reading_meta (device : string) (r : SensorReadingRecord) : MetaRecord :=
  ReadingRecord
    {| rm_device_id := device; rm_reading_local_id := reading_id r;
       rm_crate_id := rd_crate_id r; rm_recorded_at := recorded_at r;
       rm_temperature_c := temperature_c r; rm_humidity_pct := humidity_pct r |}.

(** The three sub-steps of the [try] of [sync_loop]. *)
Definition sync_events (srv : Server) : M unit :=
  events <~ gets (λ w, get_unsynced_events (db w) 5) ;;
  device <~ gets (λ w, Config.device_id (config (self w))) ;;
  match events with
  | [] => ret tt
  | _ =>
      payload <~ gets (λ w, event_meta device (db w) <$> events) ;;
      when (Client.upload_metadata (metadata_reply srv payload))
        (for_each events (λ event,
           db_call (λ d, mark_event_uploaded d (event_id event)) ;;;
           db_call (λ d, mark_image_metadata_uploaded d (event_id event))))
  end.

Definition sync_readings (srv : Server) : M unit :=
  readings <~ gets (λ w, get_sensor_readings (db w) false 10) ;;
  device <~ gets (λ w, Config.device_id (config (self w))) ;;
  match readings with
  | [] => ret tt
  | _ =>
      let sensor_payload := reading_meta device <$> readings in
      when (Client.upload_metadata (metadata_reply srv sensor_payload))
        (for_each readings (λ r,
           db_call (λ d, mark_reading_uploaded d (reading_id r))))
  end.

Definition sync_image (srv : Server) (img : nat * CapturedImageRecord) : M unit :=
  device <~ gets (λ w, Config.device_id (config (self w))) ;;
  success <~ gets (λ w, Client.upload_image (fs w) (local_path img.2)
                          (image_reply srv device (event_local_id img.2)
                             (image_index img.2) (sha256_hex img.2))) ;;
  if (success : bool)
  then db_call (λ d, mark_image_uploaded d (event_local_id img.2) (image_index img.2))
  else db_call (λ d, mark_image_corrupted d img.1).

Definition sync_images (srv : Server) : M unit :=
  images <~ gets (λ w, get_unsynced_images (db w) 3) ;;
  for_each images (sync_image srv).

Definition sync_once (srv : Server) : M unit :=
  sync_events srv ;;; sync_readings srv ;;; sync_images srv.

(** The body of the [try] of [cleanup_loop]. *)
Definition remove_file (path : string) : M unit :=
  λ w, match os_remove (fs w) path with
       | inl e => (w, inl e)
       | inr f => (with_fs w f, inr tt)
       end.

Definition cleanup_image (img : nat * CapturedImageRecord) : M unit :=
  let path := local_path img.2 in
  try_except
    (present <~ gets (λ w, os_path_exists (fs w) path) ;;
     when present (remove_file path) ;;;
     db_call (λ d, mark_image_deleted d img.1)).

Definition cleanup_once (now : Z) : M unit :=
  safe_id_str <~ gets (λ w, get_state_value (db w) Client.watermark_key) ;;
  match safe_id_str with
  | Some s =>
      match py_int s with
      | None => raise ValueError
      | Some safe_id =>
          days <~ gets (λ w, Config.retention_days (config (self w))) ;;
          candidates <~ gets (λ w, get_cleanup_candidates (db w) safe_id days 20 now) ;;
          for_each candidates cleanup_image
      end
  | None => ret tt
  end.

(** *** The loops

    One iteration of a loop runs the body and swallows the exception.
    A run of the agent is a sequence of iterations of the four loops and
    of restarts of the process; a restart that fails at start-up leaves
    the store and the disk as they are. The four threads are interleaved
    iteration by iteration: an iteration is not interrupted by another
    loop. *)
Definition iteration (body : M unit) (w : World) : World := (body w).1.

Definition restart (boot : Boot) (w : World) : World :=
  match startup (config (self w)) boot (db w) (fs w) with
  | inl _ => w
  | inr w1 => w1
  end.

Definition step (w : World) (t : Tick) : World :=
  match t with
  | CaptureTick env => iteration (capture_once env) w
  | HeartbeatTick srv => iteration (heartbeat_once srv) w
  | SyncTick srv => iteration (sync_once srv) w
  | CleanupTick now => iteration (cleanup_once now) w
  | Restart boot => restart boot w
  end.

Definition run (ticks : list Tick) (w : World) : World := foldl step w ticks.

(** A capture iteration in a process that is killed in the loop of the
    image inserts, after [k] rounds of it: every store call commits on its
    own, so the event row and the image rows inserted by then stay, and the
    other image rows are never inserted. *)
Definition capture_images_killed (env : CaptureEnv)
    (event_id crate_id captured_at : Z) (k : nat) : M unit :=
  out_dir <~ gets (λ w, Config.image_dir (config (self w))) ;;
  cam <~ gets (λ w, camera (self w)) ;;
  requested <~ gets (λ w, Config.burst_size (config (self w))) ;;
  images <~ camera_capture_burst cam (scene env) event_id out_dir requested ;;
  event <~ gets (λ w, event_record w event_id crate_id captured_at images) ;;
  db_call (λ d, insert_event d event) ;;;
  insert_images event_id (take k images).

Definition capture_killed (env : CaptureEnv) (k : nat) : M unit :=
  modify (λ w, with_counters w (_event_counter (self w) + 1)
                 (_reading_counter (self w))) ;;;
  event_id <~ gets (λ w, _event_counter (self w)) ;;
  crate_id <~ gets (λ w, crate_id (self w)) ;;
  let captured_at := utcnow env in
  capture_reading env crate_id ;;;
  capture_images_killed env event_id crate_id captured_at k.

(** What happens to a device: an iteration of a loop, or a restart between
    two iterations, as in [step]; or the process is killed in the image
    inserts of a burst and started again on the store and the disk that it
    left. *)
Inductive Happening :=
  | Ticked (t : Tick)
  | KilledInBurst (env : CaptureEnv) (k : nat) (boot : Boot).

Definition happen (w : World) (h : Happening) : World :=
  match h with
  | Ticked t => step w t
  | KilledInBurst env k boot => restart boot (iteration (capture_killed env k) w)
  end.

Definition history (hs : list Happening) (w : World) : World := foldl happen w hs.

End loops.
End Edge.

(** ** Vocabulary of the properties *)

Module Props.
Import Store Edge.

(** An existing file that [os.remove] cannot unlink. *)
Definition stuck (f : FS) (p : string) : Prop :=
  is_Some (files f !! p) ∧ p ∈ locked f.

#[global] Instance stuck_dec f p : Decision (stuck f p).
Proof. unfold stuck. apply _. Defined.

(** The ways an HTTP call fails: no response at all (transport), or a
    response with an error status (the server rejects the request). *)
Definition rejected (o : Client.HttpOutcome) : Prop :=
  ∃ status body, o = Client.Response status body ∧ 400 ≤ status < 600.
Definition accepted (o : Client.HttpOutcome) : Prop :=
  ∃ status body, o = Client.Response status body ∧ ¬ (400 ≤ status < 600).

(** A heartbeat that yields no watermark: the call fails, the body is not
    JSON, is not an object, or carries no (or a null) watermark field. *)
Inductive heartbeat_failure : Client.HttpOutcome → Prop :=
  | hb_unreachable : heartbeat_failure Client.Unreachable
  | hb_rejected o : rejected o → heartbeat_failure o
  | hb_not_json status : heartbeat_failure (Client.Response status None)
  | hb_not_object status data :
      (∀ fields, data ≠ JObj fields) →
      heartbeat_failure (Client.Response status (Some data))
  | hb_no_field status fields :
      Client.dict_get fields Client.watermark_key = None →
      heartbeat_failure (Client.Response status (Some (JObj fields)))
  | hb_null_field status fields :
      Client.dict_get fields Client.watermark_key = Some JNull →
      heartbeat_failure (Client.Response status (Some (JObj fields))).

(** The key of an image row: owning event and index in the burst. *)
Definition key (r : CapturedImageRecord) : Z * Z :=
  (event_local_id r, image_index r).

(** The store invariant of the upload state machine. *)
Definition store_ok (d : Database) : Prop :=
  NoDup (key <$> images d) ∧
  ∀ r, r ∈ images d → corrupted r = true → uploaded r = false.

(** What stays of a row through every operation: all its columns but the
    flags, and a [corrupted] flag that is set. *)
Definition row_evolves (r r' : CapturedImageRecord) : Prop :=
  ∃ m u l c, r' = set_flags r m u l c ∧ (corrupted r = true → c = true).

(** Every row of [l] is still there in [l'], at the same identifier, and
    related to what it was. *)
Definition rows_related (R : relation CapturedImageRecord)
    (l l' : list CapturedImageRecord) : Prop :=
  ∀ id r, l !! id = Some r → ∃ r', l' !! id = Some r' ∧ R r r'.

Definition rows_evolve := rows_related row_evolves.

(** What the binary upload may change of a row: [uploaded] and
    [corrupted], and [corrupted] only upwards. *)
Definition upload_evolves (r r' : CapturedImageRecord) : Prop :=
  ∃ u c, r' = set_flags r (metadata_uploaded r) u (local_exists r) c ∧
         (corrupted r = true → c = true).

(** Rows that agree on key and on the two upload flags. *)
Definition same_upload_state (r r' : CapturedImageRecord) : Prop :=
  key r' = key r ∧ uploaded r' = uploaded r ∧ corrupted r' = corrupted r.

(** The store after a metadata batch is acknowledged: the events of the
    batch are uploaded and their images have their metadata uploaded. *)
Definition mark_events (ids : list Z) (d : Database) : Database :=
  {| crates := crates d;
     events := (λ e, if decide (event_id e ∈ ids) then set_event_uploaded e else e)
                 <$> events d;
     images := (λ r, if decide (event_local_id r ∈ ids)
                     then set_metadata_uploaded r else r) <$> images d;
     readings := readings d; state := state d |}.

Definition mark_readings (ids : list Z) (d : Database) : Database :=
  with_readings d
    ((λ r, if decide (reading_id r ∈ ids) then set_reading_uploaded r else r)
       <$> readings d).

(** Whether the upload of a row goes through, on a given disk. *)
Definition upload_ok (srv : Server) (device : string) (f : FS)
    (r : CapturedImageRecord) : bool :=
  Client.upload_image f (local_path r)
    (image_reply srv device (event_local_id r) (image_index r) (sha256_hex r)).

(** What the mock camera returns: one artifact per requested index, in
    order, each with the digest of the bytes written for it. *)
Definition mock_artifact `{Runtime} (cam : Camera.MockCamera) (sc : Camera.Scene)
    (eid : Z) (dir : string) (img : Camera.CapturedImage) : Prop :=
  ∃ data, Camera.jpeg sc (Camera.image_index img) = Some data ∧
    Camera.local_path img =
      path_join dir (Camera.image_filename eid (Camera.image_index img)) ∧
    Camera.size_bytes img = length data ∧
    Camera.sha256_hex img = sha256_hexdigest data.

(** The identifiers handed out by the capture ticks of a run, in order. *)
Fixpoint allocated_events `{Runtime} (ticks : list Tick) (w : World) : list Z :=
  match ticks with
  | [] => []
  | t :: rest =>
      let w1 := step w t in
      match t with
      | CaptureTick _ => _event_counter (self w1) :: allocated_events rest w1
      | _ => allocated_events rest w1
      end
  end.

Fixpoint allocated_readings `{Runtime} (ticks : list Tick) (w : World) : list Z :=
  match ticks with
  | [] => []
  | t :: rest =>
      let w1 := step w t in
      match t, sensor (self w) with
      | CaptureTick _, Some _ => _reading_counter (self w1) :: allocated_readings rest w1
      | _, _ => allocated_readings rest w1
      end
  end.

Definition is_restart (t : Tick) : Prop :=
  match t with Restart _ => True | _ => False end.

(** Stored identifiers increase along each table and the counters are at
    or above all of them. *)
Definition ids_ok (w : World) : Prop :=
  StronglySorted Z.lt (event_id <$> events (db w)) ∧
  Forall (λ i, i ≤ _event_counter (self w)) (event_id <$> events (db w)) ∧
  StronglySorted Z.lt (reading_id <$> readings (db w)) ∧
  Forall (λ i, i ≤ _reading_counter (self w)) (reading_id <$> readings (db w)).

(** *** Reading names back

    The cameras write the event identifier and the index of a frame into
    its file name, and the client writes them into the address of the
    upload. [read_int] reads a decimal integer off the front of a string
    and returns it with the rest of the string. *)
Definition digit (c : Ascii.ascii) : option N := N.of_nat <$> Ascii.is_nat c.

Fixpoint scan (acc : N) (s : string) : N * string :=
  match s with
  | EmptyString => (acc, EmptyString)
  | String c rest =>
      match digit c with
      | Some d => scan (10 * acc + d) rest
      | None => (acc, s)
      end
  end.

Definition dash : Ascii.ascii := Ascii.ascii_of_nat 45.

Definition read_int (s : string) : Z * string :=
  match s with
  | EmptyString => (0, EmptyString)
  | String c rest =>
      if decide (c = dash)
      then (- Z.of_N (scan 0 rest).1, (scan 0 rest).2)
      else (Z.of_N (scan 0 s).1, (scan 0 s).2)
  end.

(** A string at which the reading of digits stops. *)
Definition stops (t : string) : Prop :=
  match t with
  | EmptyString => True
  | String c _ => digit c = None
  end.

(** The two integers of a file name [<event>_<index>.jpg]. *)
Definition parse_filename (name : string) : Z * Z :=
  let head := read_int name in
  match head.2 with
  | EmptyString => (head.1, 0)
  | String _ rest => (head.1, (read_int rest).1)
  end.

Fixpoint last_char (s : string) : option Ascii.ascii :=
  match s with
  | EmptyString => None
  | String a EmptyString => Some a
  | String _ rest => last_char rest
  end.

(** [n] times the character [c]. *)
Fixpoint run_of (c : Ascii.ascii) (n : nat) : string :=
  match n with
  | O => EmptyString
  | S k => String c (run_of c k)
  end.

(** A loaded configuration with another [extra]. *)
Definition with_extra (c : ConfigFile.Config) (extra : list (string * json))
  : ConfigFile.Config :=
  {| ConfigFile.device_id := ConfigFile.device_id c;
     ConfigFile.base_url := ConfigFile.base_url c;
     ConfigFile.db_path := ConfigFile.db_path c;
     ConfigFile.image_dir := ConfigFile.image_dir c;
     ConfigFile.burst_size := ConfigFile.burst_size c;
     ConfigFile.capture_interval := ConfigFile.capture_interval c;
     ConfigFile.heartbeat_interval := ConfigFile.heartbeat_interval c;
     ConfigFile.sync_interval := ConfigFile.sync_interval c;
     ConfigFile.cleanup_interval := ConfigFile.cleanup_interval c;
     ConfigFile.retention_days := ConfigFile.retention_days c;
     ConfigFile.camera_backend := ConfigFile.camera_backend c;
     ConfigFile.sensor_enabled := ConfigFile.sensor_enabled c;
     ConfigFile.log_file := ConfigFile.log_file c;
     ConfigFile.extra := extra |}.

(** *** Frames and their files *)

(** The path the cameras give to frame [idx] of event [eid]. *)
Definition frame_path `{Runtime} (dir : string) (eid : Z) (idx : nat) : string :=
  path_join dir (Camera.image_filename eid idx).

(** The bytes saved for a frame, the artifact the mock camera returns for
    it, and the disk after the frame is saved. *)
Definition frame_bytes (sc : Camera.Scene) (idx : nat) : bytes :=
  default [] (Camera.jpeg sc idx).

Definition mock_image `{Runtime} (cam : Camera.MockCamera) (sc : Camera.Scene)
    (eid : Z) (dir : string) (idx : nat) : Camera.CapturedImage :=
  {| Camera.image_index := idx; Camera.local_path := frame_path dir eid idx;
     Camera.size_bytes := length (frame_bytes sc idx);
     Camera.sha256_hex := sha256_hexdigest (frame_bytes sc idx);
     Camera.width_px := Camera.mock_width cam;
     Camera.height_px := Camera.mock_height cam;
     Camera.format := "jpg"; Camera.captured_at := Camera.burst_clock sc |}.

Definition save_frame `{Runtime} (sc : Camera.Scene) (eid : Z) (dir : string)
    (f : FS) (idx : nat) : FS :=
  write_file f (frame_path dir eid idx) (frame_bytes sc idx).

(** The bytes the Raspberry Pi camera finds at the path of a frame, and the
    artifact it returns for them. *)
Definition found_bytes `{Runtime} (f : FS) (dir : string) (eid : Z) (idx : nat)
  : bytes :=
  default [] (files f !! frame_path dir eid idx).

Definition rpi_image `{Runtime} (cam : Camera.RpiCamera) (sc : Camera.Scene)
    (eid : Z) (dir : string) (f : FS) (idx : nat) : Camera.CapturedImage :=
  {| Camera.image_index := idx; Camera.local_path := frame_path dir eid idx;
     Camera.size_bytes := length (found_bytes f dir eid idx);
     Camera.sha256_hex := sha256_hexdigest (found_bytes f dir eid idx);
     Camera.width_px := Camera.rpi_width cam;
     Camera.height_px := Camera.rpi_height cam;
     Camera.format := "jpg"; Camera.captured_at := Camera.frame_clock sc idx |}.


(** *** Events and their images *)

(** The owning event of every image row, and the identifier and burst size
    of every event row, in table order. *)
Definition owners (d : Database) : list Z := event_local_id <$> images d.

Definition bursts (d : Database) : list (Z * nat) :=
  (λ e, (event_id e, burst_size e)) <$> events d.

(** Every image row belongs to an event row, and every event row counts
    its image rows. *)
Definition bursts_ok (d : Database) : Prop :=
  Forall (λ o, o ∈ (bursts d).*1) (owners d) ∧
  Forall (λ b, b.2 = length (filter (λ o, o = b.1) (owners d))) (bursts d).

Definition consistent (w : World) : Prop := ids_ok w ∧ bursts_ok (db w).

(** Every image row belongs to an event row, and no event row has more
    image rows than its burst size says. *)
Definition bursts_within (d : Database) : Prop :=
  Forall (λ o, o ∈ (bursts d).*1) (owners d) ∧
  Forall (λ b, (length (filter (λ o, o = b.1) (owners d)) ≤ b.2)%nat) (bursts d).

Definition sound (w : World) : Prop := ids_ok w ∧ bursts_within (db w).

(** Of a row, that binary upload or abandonment came after the metadata. *)
Definition metadata_first (r : CapturedImageRecord) : Prop :=
  uploaded r = true ∨ corrupted r = true → metadata_uploaded r = true.

(** *** The two devices of a capture tick *)

(** What the sensor, when there is one, and the camera come to in a tick
    that starts in [w]. *)
Definition sensor_result (env : CaptureEnv) (w : World) : exn + unit :=
  match sensor (self w) with
  | None => inr tt
  | Some s =>
      match Sensors.read s (air env) (crate_id (self w))
              (_reading_counter (self w) + 1) with
      | inl e => inl e
      | inr _ => inr tt
      end
  end.

Definition burst `{Runtime} (env : CaptureEnv) (w : World)
  : FS * (exn + list Camera.CapturedImage) :=
  dispatch_capture_burst (camera (self w)) (scene env)
    (_event_counter (self w) + 1) (Config.image_dir (config (self w)))
    (Config.burst_size (config (self w))) (fs w).

Definition camera_result `{Runtime} (env : CaptureEnv) (w : World) : exn + unit :=
  match (burst env w).2 with
  | inl e => inl e
  | inr _ => inr tt
  end.

(** The store after the sensor block, and after the camera block, of a
    tick in which every insert is accepted; and that tick. *)
Definition with_reading (env : CaptureEnv) (w : World) : Database :=
  match sensor (self w) with
  | None => db w
  | Some s =>
      match Sensors.read s (air env) (crate_id (self w))
              (_reading_counter (self w) + 1) with
      | inl _ => db w
      | inr reading =>
          with_readings (db w) (readings (db w) ++ [reading_record reading])
      end
  end.

Definition with_burst (env : CaptureEnv) (w : World)
    (imgs : list Camera.CapturedImage) (d : Database) : Database :=
  with_images
    (with_events d
       (events d ++ [event_record w (_event_counter (self w) + 1)
                       (crate_id (self w)) (utcnow env) imgs]))
    (images d ++ (image_record (_event_counter (self w) + 1) <$> imgs)).

(** The store after the event row and the first [k] image rows of the
    burst are inserted. *)
Definition with_prefix (env : CaptureEnv) (w : World)
    (imgs : list Camera.CapturedImage) (k : nat) (d : Database) : Database :=
  with_images
    (with_events d
       (events d ++ [event_record w (_event_counter (self w) + 1)
                       (crate_id (self w)) (utcnow env) imgs]))
    (images d ++ (image_record (_event_counter (self w) + 1) <$> take k imgs)).

Definition next_reading_counter (w : World) : Z :=
  match sensor (self w) with
  | Some _ => _reading_counter (self w) + 1
  | None => _reading_counter (self w)
  end.

Definition capture_committed `{Runtime} (env : CaptureEnv) (w : World) : World :=
  let w1 := with_counters w (_event_counter (self w) + 1) (next_reading_counter w) in
  match sensor_result env w with
  | inl _ => w1
  | inr _ =>
      match (burst env w).2 with
      | inl _ => with_fs (with_db w1 (with_reading env w)) (burst env w).1
      | inr imgs =>
          with_fs (with_db w1 (with_burst env w imgs (with_reading env w)))
            (burst env w).1
      end
  end.

(** The world that a process killed after [k] image inserts leaves, when
    every insert before is accepted. *)
Definition capture_cut `{Runtime} (env : CaptureEnv) (k : nat) (w : World) : World :=
  let w1 := with_counters w (_event_counter (self w) + 1) (next_reading_counter w) in
  match sensor_result env w with
  | inl _ => w1
  | inr _ =>
      match (burst env w).2 with
      | inl _ => with_fs (with_db w1 (with_reading env w)) (burst env w).1
      | inr imgs =>
          with_fs (with_db w1 (with_prefix env w imgs k (with_reading env w)))
            (burst env w).1
      end
  end.

(** *** Start-up *)

(** The crate row that [_ensure_crate] builds from the configuration, when
    the section and its three mandatory keys are there. *)
Definition crate_of (c : Config.Config) : option CrateRecord :=
  match Config.crate c with
  | None => None
  | Some crate_cfg =>
      match Config.id crate_cfg, Config.label crate_cfg,
            Config.started_at crate_cfg with
      | Some crate_id, Some label, Some started_at =>
          Some {| crate_pk := crate_id; crate_label := label;
                  location := Config.location crate_cfg;
                  notes := Config.notes crate_cfg;
                  created_at := started_at;
                  ended_at := Config.ended_at crate_cfg |}
      | _, _, _ => None
      end
  end.


(** *** The metadata queues *)

(** The events, and the readings, that still wait for their metadata
    upload, oldest first. *)
Definition event_queue (d : Database) : list CaptureEventRecord :=
  filter (λ e, ev_uploaded e = false) (events d).

Definition reading_queue (d : Database) : list SensorReadingRecord :=
  filter (λ r, rd_uploaded r = false) (readings d).

End Props.

(** ** A concrete device, used to run the model *)

Module Demo.
Import Store Edge.

Definition digit (c : Ascii.ascii) : option N :=
  let n := Ascii.N_of_ascii c in
  if decide (48 ≤ n ∧ n < 58)%N then Some (n - 48)%N else None.

Fixpoint digits (s : string) (acc : N) : option N :=
  match s with
  | EmptyString => Some acc
  | String c rest =>
      match digit c with
      | Some d => digits rest (10 * acc + d)%N
      | None => None
      end
  end.

(** Decimal literals with an optional minus sign. *)
Definition parse_int (s : string) : option Z :=
  match s with
  | EmptyString => None
  | String c rest =>
      if decide (Ascii.N_of_ascii c = 45%N) then
        match rest with
        | EmptyString => None
        | _ => (λ n, - Z.of_N n) <$> digits rest 0
        end
      else Z.of_N <$> digits s 0
  end.

Definition show (v : json) : string :=
  match v with
  | JNull => "None"
  | JBool true => "True"
  | JBool false => "False"
  | JInt z => pretty z
  | JStr s => s
  | _ => "<value>"
  end.

#[local] Instance runtime : Runtime := {|
  sha256_hexdigest := λ b, "sha256:" +:+ pretty (length b);
  path_join := λ d name, d +:+ "/" +:+ name;
  py_str := show;
  py_int := parse_int;
|}.

Definition crate : Config.Crate := {|
  Config.id := Some 1; Config.label := Some "A";
  Config.location := None; Config.notes := None;
  Config.started_at := Some "2025-01-01"; Config.ended_at := None |}.

Definition cfg (sensor_on : bool) : Config.Config := {|
  Config.device_id := "device-001"; Config.base_url := "https://example.com";
  Config.image_dir := "images"; Config.burst_size := 2;
  Config.retention_days := 0; Config.camera_backend := "mock";
  Config.sensor_enabled := sensor_on; Config.sensor_backend := None;
  Config.camera_name := None; Config.dht22_pin := None;
  Config.crate := Some crate |}.

Definition boot : Boot := {| dht22_importable := false; lower := λ s, s |}.
Definition disk : FS := {| files := ∅; locked := ∅ |}.

Definition booted (sensor_on : bool) : World :=
  match startup (cfg sensor_on) boot Store.empty disk with
  | inr w => w
  | inl _ =>
      {| self := {| config := cfg sensor_on; crate_id := 0;
                    camera := Mock Camera.new_mock; sensor := None;
                    _event_counter := 0; _reading_counter := 0 |};
         db := Store.empty; fs := disk |}
  end.

Definition still_air : Sensors.Air := {|
  Sensors.sensor_clock := 100; Sensors.random_temperature := 0%Q;
  Sensors.random_humidity := 0%Q; Sensors.read_retry := (None, None) |}.

Definition frame : bytes := [x00; x01]%byte.

(** A tick in which the camera works, and one in which saving fails. *)
Definition good (now : Z) : CaptureEnv := {|
  utcnow := now; air := still_air;
  scene := {| Camera.burst_clock := now; Camera.frame_clock := λ _, now;
              Camera.jpeg := λ _, Some frame; Camera.tool := Camera.ToolMissing |} |}.
Definition bad (now : Z) : CaptureEnv := {|
  utcnow := now; air := still_air;
  scene := {| Camera.burst_clock := now; Camera.frame_clock := λ _, now;
              Camera.jpeg := λ _, None; Camera.tool := Camera.ToolMissing |} |}.

(** A server that accepts everything and acknowledges up to [safe]; one
    that cannot be reached; one that answers without a watermark. *)
Definition ok (body : option json) : Client.HttpOutcome := Client.Response 200 body.
Definition online (safe : Z) : Server := {|
  heartbeat_reply := λ _ _, ok (Some (JObj [(Client.watermark_key, JInt safe)]));
  metadata_reply := λ _, ok None;
  image_reply := λ _ _ _ _ _, ok None |}.
Definition offline : Server := {|
  heartbeat_reply := λ _ _, Client.Unreachable;
  metadata_reply := λ _, Client.Unreachable;
  image_reply := λ _ _ _ _ _, Client.Unreachable |}.
(** Metadata goes through, the image upload does not. *)
Definition flaky : Server := {|
  heartbeat_reply := λ _ _, Client.Unreachable;
  metadata_reply := λ _, ok None;
  image_reply := λ _ _ _ _ _, Client.Unreachable |}.

(** Worlds reached by the device: two captured events; the same with the
    server's acknowledgement of event 1 stored; the first event with its
    metadata acknowledged and its images waiting for the binary upload; a
    start with the sensor on. *)
Definition captured : World := step (booted false) (CaptureTick (good 100)).
Definition captured_twice : World := step captured (CaptureTick (good 200)).
Definition acked : World := step captured_twice (HeartbeatTick (online 1)).
Definition pending : World := (sync_events (online 1) captured).1.
Definition first_path : string := "images/00000001_000.jpg".
Definition acked_locked : World :=
  with_fs acked {| files := files (fs acked); locked := {[ first_path ]} |}.

Definition blank : CapturedImageRecord := {|
  event_local_id := 0; image_index := 0; local_path := EmptyString; captured_at := 0;
  size_bytes := 0; sha256_hex := EmptyString; width_px := 0; height_px := 0;
  format := EmptyString; metadata_uploaded := false; uploaded := false;
  local_exists := false; corrupted := false |}.

Definition row (w : World) (id : nat) : CapturedImageRecord :=
  default blank (images (db w) !! id).

Definition blank_event : CaptureEventRecord := {|
  event_id := 0; ev_crate_id := 0; camera_name := EmptyString;
  ev_captured_at := 0; burst_size := 0; ev_uploaded := false |}.

Definition event (w : World) (i : nat) : CaptureEventRecord :=
  default blank_event (events (db w) !! i).

Definition fails_then_restarts : list Tick :=
  [CaptureTick (bad 100); Restart boot; CaptureTick (good 200)].

Definition mock_reading : Sensors.SensorReading := {|
  Sensors.reading_id := 1; Sensors.crate_id := 1; Sensors.recorded_at := 100;
  Sensors.temperature_c := Some 0%Q; Sensors.humidity_pct := Some 0%Q |}.

(** A device with the DHT22 sensor, on a system where its driver can be
    imported; [still_air] gives the driver nothing to read. *)
Definition cfg_dht22 : Config.Config := {|
  Config.device_id := "device-001"; Config.base_url := "https://example.com";
  Config.image_dir := "images"; Config.burst_size := 2;
  Config.retention_days := 0; Config.camera_backend := "mock";
  Config.sensor_enabled := true; Config.sensor_backend := Some "dht22";
  Config.camera_name := None; Config.dht22_pin := None;
  Config.crate := Some crate |}.

Definition boot_pi : Boot := {| dht22_importable := true; lower := λ s, s |}.

(** A device whose bursts are empty. *)
Definition cfg_empty : Config.Config := {|
  Config.device_id := "device-001"; Config.base_url := "https://example.com";
  Config.image_dir := "images"; Config.burst_size := 0;
  Config.retention_days := 0; Config.camera_backend := "mock";
  Config.sensor_enabled := false; Config.sensor_backend := None;
  Config.camera_name := None; Config.dht22_pin := None;
  Config.crate := Some crate |}.

Definition started (c : Config.Config) (b : Boot) : World :=
  match startup c b Store.empty disk with
  | inr w => w
  | inl _ => booted false
  end.

(** A tick in which the first frame is saved and the second is not. *)
Definition half (now : Z) : CaptureEnv := {|
  utcnow := now; air := still_air;
  scene := {| Camera.burst_clock := now; Camera.frame_clock := λ _, now;
              Camera.jpeg := λ idx, match idx with O => Some frame | _ => None end;
              Camera.tool := Camera.ToolMissing |} |}.

(** A run of the capture tool that leaves the first frame of event 1 and
    not the second. *)
Definition pi_scene : Camera.Scene := {|
  Camera.burst_clock := 100; Camera.frame_clock := λ _, 100;
  Camera.jpeg := λ _, None;
  Camera.tool := Camera.ToolRan [(first_path, frame)] |}.

(** A server whose watermark is no number. *)
Definition vague : Server := {|
  heartbeat_reply := λ _ _, ok (Some (JObj [(Client.watermark_key, JStr "soon")]));
  metadata_reply := λ _, ok None;
  image_reply := λ _ _ _ _ _, ok None |}.

(** A parsed configuration file, and the configuration loaded from it. *)
Definition document : list (string * json) :=
  [("device_id", JStr "device-001"); ("base_url", JStr "https://example.com");
   ("crate", JObj [("id", JInt 1)]); ("extra", JBool true)].

Definition loaded : ConfigFile.Config :=
  match ConfigFile.from_yaml (JObj document) with
  | inr c => c
  | inl _ => ConfigFile.defaults JNull JNull
  end.

End Demo.

(** * Properties *)

Import Store Edge Props.

Section store_facts.
Implicit Types (d : Database) (r : CapturedImageRecord) (id : nat).

Lemma elem_of_stored d id r : (id, r) ∈ stored d ↔ images d !! id = Some r.
Proof.
  unfold stored. rewrite elem_of_lookup_imap. split.
  - intros (i & x & Heq & Hl). by simplify_eq.
  - intros Hl. by exists id, r.
Qed.

Lemma stored_ids d : (stored d).*1 = seq 0 (length (images d)).
Proof.
  unfold stored. apply list_eq. intros i.
  rewrite list_lookup_fmap, list_lookup_imap.
  destruct (images d !! i) eqn:E; simpl.
  - symmetry. apply lookup_seq. split; [done|]. by eapply lookup_lt_Some.
  - symmetry. apply lookup_seq_ge. by apply lookup_ge_None.
Qed.

Lemma NoDup_stored_ids d : NoDup (stored d).*1.
Proof. rewrite stored_ids. apply NoDup_seq. Qed.

Lemma candidates_sound d safe days limit now id r :
  (id, r) ∈ get_cleanup_candidates d safe days limit now →
  images d !! id = Some r ∧ cleanup_eligible safe days now r.
Proof.
  unfold get_cleanup_candidates. intros Hin.
  apply subseteq_take in Hin. rewrite merge_sort_Permutation in Hin.
  apply list_elem_of_filter in Hin as [He Hs]. by apply elem_of_stored in Hs.
Qed.

Lemma NoDup_candidates d safe days limit now :
  NoDup (get_cleanup_candidates d safe days limit now).*1.
Proof.
  unfold get_cleanup_candidates.
  eapply sublist_NoDup; [|apply fmap_sublist, sublist_take].
  rewrite merge_sort_Permutation.
  eapply sublist_NoDup; [|apply fmap_sublist, sublist_filter].
  apply NoDup_stored_ids.
Qed.
End store_facts.

Section monad_facts.
Lemma bind_inr {A B} (m : M A) (k : A → M B) w w1 a :
  m w = (w1, inr a) → bind m k w = k a w1.
Proof. unfold bind. by intros ->. Qed.

Lemma bind_inl {A B} (m : M A) (k : A → M B) w w1 e :
  m w = (w1, inl e) → bind m k w = (w1, inl e).
Proof. unfold bind. by intros ->. Qed.

Lemma for_each_cons_inr {A} (body : A → M unit) x l w w1 :
  body x w = (w1, inr tt) → for_each (x :: l) body w = for_each l body w1.
Proof. intros Hb. simpl. by rewrite (bind_inr _ _ _ _ _ Hb). Qed.
End monad_facts.

Section cleanup.
Context `{Runtime}.

(** The three ways one candidate is processed. *)
Lemma cleanup_image_absent id r w :
  files (fs w) !! local_path r = None →
  cleanup_image (id, r) w = (with_db w (mark_image_deleted (db w) id), inr tt).
Proof.
  intros Hf. unfold cleanup_image, try_except, bind, gets, when, os_path_exists. simpl.
  rewrite bool_decide_eq_false_2; [done|]. rewrite Hf. by intros [? ?].
Qed.

Lemma cleanup_image_locked id r w data :
  files (fs w) !! local_path r = Some data → local_path r ∈ locked (fs w) →
  cleanup_image (id, r) w = (w, inr tt).
Proof.
  intros Hf Hl. unfold cleanup_image, try_except, bind, gets, when, os_path_exists. simpl.
  rewrite bool_decide_eq_true_2 by (rewrite Hf; eauto).
  unfold remove_file, os_remove. rewrite Hf. by rewrite decide_True.
Qed.

Lemma cleanup_image_removed id r w data :
  files (fs w) !! local_path r = Some data → local_path r ∉ locked (fs w) →
  cleanup_image (id, r) w =
    ({| self := self w; db := mark_image_deleted (db w) id;
        fs := {| files := delete (local_path r) (files (fs w));
                 locked := locked (fs w) |} |}, inr tt).
Proof.
  intros Hf Hl. unfold cleanup_image, try_except, bind, gets, when, os_path_exists. simpl.
  rewrite bool_decide_eq_true_2 by (rewrite Hf; eauto).
  unfold remove_file, os_remove. rewrite Hf. by rewrite decide_False.
Qed.

Lemma cleanup_image_cases id r w :
  let w1 := (cleanup_image (id, r) w).1 in
  (cleanup_image (id, r) w).2 = inr tt ∧
  self w1 = self w ∧ locked (fs w1) = locked (fs w) ∧
  crates (db w1) = crates (db w) ∧ events (db w1) = events (db w) ∧
  readings (db w1) = readings (db w) ∧ state (db w1) = state (db w) ∧
  (stuck (fs w) (local_path r) →
     images (db w1) = images (db w) ∧ files (fs w1) = files (fs w)) ∧
  (¬ stuck (fs w) (local_path r) →
     images (db w1) = alter set_deleted id (images (db w)) ∧
     files (fs w1) = delete (local_path r) (files (fs w))).
Proof.
  destruct (files (fs w) !! local_path r) as [data|] eqn:Hf.
  - destruct (decide (local_path r ∈ locked (fs w))) as [Hl|Hl].
    + rewrite (cleanup_image_locked _ _ _ _ Hf Hl). simpl.
      do 7 (split; [done|]). split; [done|].
      intros Hn. destruct Hn. split; [by rewrite Hf|done].
    + rewrite (cleanup_image_removed _ _ _ _ Hf Hl). simpl.
      do 7 (split; [done|]). split; [|done].
      intros [_ ?]. done.
  - rewrite (cleanup_image_absent _ _ _ Hf). simpl.
    do 7 (split; [done|]). split.
    + intros [[? Hs] _]. congruence.
    + intros _. split; [done|]. symmetry. by apply delete_id.
Qed.

Lemma cleanup_loop_spec l : ∀ w,
  NoDup l.*1 →
  (∀ id r, (id, r) ∈ l → images (db w) !! id = Some r) →
  ∀ w', w' = (for_each l cleanup_image w).1 →
  (for_each l cleanup_image w).2 = inr tt ∧
  self w' = self w ∧ locked (fs w') = locked (fs w) ∧
  crates (db w') = crates (db w) ∧ events (db w') = events (db w) ∧
  readings (db w') = readings (db w) ∧ state (db w') = state (db w) ∧
  (∀ id, id ∉ (l.*1) → images (db w') !! id = images (db w) !! id) ∧
  (∀ p, files (fs w') !! p = files (fs w) !! p ∨
        (files (fs w') !! p = None ∧ (p ∉ locked (fs w)) ∧
         ∃ id r, (id, r) ∈ l ∧ local_path r = p)) ∧
  (∀ id r, (id, r) ∈ l →
     (stuck (fs w) (local_path r) →
        images (db w') !! id = Some r ∧
        files (fs w') !! local_path r = files (fs w) !! local_path r) ∧
     (¬ stuck (fs w) (local_path r) →
        images (db w') !! id = Some (set_deleted r) ∧
        files (fs w') !! local_path r = None)).
Proof.
  induction l as [|[id0 r0] l IH]; intros w Hnd Hrows w' ->.
  - simpl. do 8 (split; [done|]). split; [by left|].
    intros ? ? Hin. by apply elem_of_nil in Hin.
  - simpl in Hnd. apply NoDup_cons in Hnd as [Hid0 Hnd].
    destruct (cleanup_image_cases id0 r0 w)
      as (Hres & Hself & Hlock & Hc & He & Hr & Hs & Hstuck & Hfree).
    destruct (cleanup_image (id0, r0) w) as [w1 res] eqn:Hhead.
    simpl in Hres, Hself, Hlock, Hc, He, Hr, Hs, Hstuck, Hfree. subst res.
    rewrite (for_each_cons_inr _ _ _ _ _ Hhead).
    assert (Hrows1 : ∀ id r, (id, r) ∈ l → images (db w1) !! id = Some r).
    { intros id r Hin.
      assert (id ≠ id0).
      { intros ->. apply Hid0. apply list_elem_of_fmap. by exists (id0, r). }
      assert (images (db w) !! id = Some r) by (apply Hrows; by right).
      destruct (decide (stuck (fs w) (local_path r0))) as [Hst|Hst].
      - destruct (Hstuck Hst) as [-> _]. done.
      - destruct (Hfree Hst) as [-> _]. by rewrite list_lookup_alter_ne. }
    assert (Hfiles1 : ∀ p, files (fs w1) !! p = files (fs w) !! p ∨
              (files (fs w1) !! p = None ∧ (p ∉ locked (fs w)) ∧ p = local_path r0)).
    { intros p. destruct (decide (stuck (fs w) (local_path r0))) as [Hst|Hst].
      - destruct (Hstuck Hst) as [_ ->]. by left.
      - destruct (Hfree Hst) as [_ ->].
        destruct (decide (p = local_path r0)) as [->|Hne].
        + rewrite lookup_delete_eq.
          destruct (files (fs w) !! local_path r0) eqn:E; [|by left].
          right. repeat split; try done. intros Hl. apply Hst. split; eauto.
        + left. by rewrite lookup_delete_ne. }
    destruct (IH w1 Hnd Hrows1 _ eq_refl)
      as (Hres' & Hself' & Hlock' & Hc' & He' & Hr' & Hs' & Hother & Hfiles & Hcand).
    simpl in *.
    split; [done|]. split; [congruence|]. split; [congruence|].
    split; [congruence|]. split; [congruence|]. split; [congruence|].
    split; [congruence|]. split; [|split].
    + intros id Hnot. apply not_elem_of_cons in Hnot as [Hne Hnot].
      rewrite (Hother id Hnot).
      destruct (decide (stuck (fs w) (local_path r0))) as [Hst|Hst].
      * destruct (Hstuck Hst) as [-> _]. done.
      * destruct (Hfree Hst) as [-> _]. by rewrite list_lookup_alter_ne.
    + intros p. destruct (Hfiles p) as [Heq|(Hnone & Hnl & id & r & Hin & Hp)].
      * rewrite Heq. destruct (Hfiles1 p) as [?|(? & ? & ?)]; [by left|].
        right. repeat split; try done. exists id0, r0. split; [by left|done].
      * right. split; [done|]. split; [by rewrite <- Hlock|].
        exists id, r. split; [by right|done].
    + intros id r Hin. apply elem_of_cons in Hin as [Heq|Hin].
      * simplify_eq. rewrite (Hother id0 Hid0). split.
        -- intros Hst. destruct (Hstuck Hst) as [-> Hf]. split.
           ++ apply Hrows. by left.
           ++ destruct (Hfiles (local_path r0)) as [->|(_ & Hnl & _)]; [by rewrite Hf|].
              destruct Hst as [_ Hl]. rewrite Hlock in Hnl. done.
        -- intros Hst. destruct (Hfree Hst) as [-> Hf]. split.
           ++ rewrite list_lookup_alter_eq. rewrite (Hrows id0 r0); [done|by left].
           ++ destruct (Hfiles (local_path r0)) as [->|(? & _)]; [|done].
              rewrite Hf. apply lookup_delete_eq.
      * destruct (Hcand id r Hin) as [Hc1 Hc2]. split.
        -- intros [Hsome Hl].
           assert (Hsame : files (fs w1) !! local_path r = files (fs w) !! local_path r).
           { destruct (Hfiles1 (local_path r)) as [->|(_ & Hnl & _)]; done. }
           destruct Hc1 as [Hrow Hfile].
           { split; [by rewrite Hsame|by rewrite Hlock]. }
           split; [done|]. by rewrite Hfile.
        -- intros Hst. apply Hc2. intros [Hsome Hl]. apply Hst. split.
           ++ destruct (Hfiles1 (local_path r)) as [<-|(Hn & _)]; [done|].
              rewrite Hn in Hsome. by destruct Hsome.
           ++ by rewrite <- Hlock.
Qed.
End cleanup.

Section cleanup_theorems.
Context `{Runtime}.

Lemma cleanup_once_absent now w :
  get_state_value (db w) Client.watermark_key = None →
  cleanup_once now w = (w, inr tt).
Proof. intros Hk. unfold cleanup_once, bind, gets. simpl. by rewrite Hk. Qed.

Lemma cleanup_once_unreadable now w s :
  get_state_value (db w) Client.watermark_key = Some s → py_int s = None →
  cleanup_once now w = (w, inl ValueError).
Proof. intros Hk Hp. unfold cleanup_once, bind, gets. simpl. by rewrite Hk, Hp. Qed.

Lemma cleanup_once_present now w s safe :
  get_state_value (db w) Client.watermark_key = Some s → py_int s = Some safe →
  cleanup_once now w =
    for_each (get_cleanup_candidates (db w) safe
                (Config.retention_days (config (self w))) 20 now)
      cleanup_image w.
Proof. intros Hk Hp. unfold cleanup_once, bind, gets. simpl. by rewrite Hk, Hp. Qed.

(** C1. A cleanup tick without a stored watermark deletes nothing: the
    store and the disk are left as they are, whatever the age of the
    images. With a watermark [safe], no image row whose owning event
    identifier is greater than [safe] is changed, every file that the tick
    removes is the payload of an image row whose owning event identifier is
    at most [safe], and so the file of an image above the watermark is
    untouched unless a row at or below the watermark names the same path. *)
Theorem cleanup_respects_watermark (now : Z) (w : World) :
  let w' := step w (CleanupTick now) in
  (get_state_value (db w) Client.watermark_key = None → w' = w) ∧
  (∀ s, get_state_value (db w) Client.watermark_key = Some s →
        py_int s = None → w' = w) ∧
  (∀ s safe, get_state_value (db w) Client.watermark_key = Some s →
     py_int s = Some safe →
     (∀ id r, images (db w) !! id = Some r → safe < event_local_id r →
              images (db w') !! id = Some r) ∧
     (∀ p, files (fs w') !! p ≠ files (fs w) !! p →
           ∃ id r, images (db w) !! id = Some r ∧ local_path r = p ∧
                   local_exists r = true ∧ event_local_id r ≤ safe) ∧
     (∀ id r, images (db w) !! id = Some r → safe < event_local_id r →
              (∀ id' r', images (db w) !! id' = Some r' →
                         event_local_id r' ≤ safe →
                         local_path r' ≠ local_path r) →
              files (fs w') !! local_path r = files (fs w) !! local_path r)).
Proof.
  simpl. unfold iteration. split; [|split].
  - intros Hk. by rewrite cleanup_once_absent.
  - intros s Hk Hp. by rewrite (cleanup_once_unreadable _ _ _ Hk Hp).
  - intros s safe Hk Hp. rewrite (cleanup_once_present _ _ _ _ Hk Hp).
    set (l := get_cleanup_candidates _ _ _ _ _).
    assert (Hsound : ∀ id r, (id, r) ∈ l →
              images (db w) !! id = Some r ∧
              cleanup_eligible safe (Config.retention_days (config (self w))) now r).
    { intros id r. apply candidates_sound. }
    destruct (cleanup_loop_spec l w (NoDup_candidates _ _ _ _ _)
                (λ id r Hin, proj1 (Hsound id r Hin)) _ eq_refl)
      as (_ & _ & _ & _ & _ & _ & _ & Hother & Hfiles & _).
    assert (Hchanged : ∀ p, files (fs (for_each l cleanup_image w).1) !! p
                            ≠ files (fs w) !! p →
              ∃ id r, images (db w) !! id = Some r ∧ local_path r = p ∧
                      local_exists r = true ∧ event_local_id r ≤ safe).
    { intros p Hne. destruct (Hfiles p) as [?|(_ & _ & id & r & Hin & Hp')]; [done|].
      destruct (Hsound id r Hin) as [Hrow (He & Hle & _)]. eauto 8. }
    split; [|split].
    + intros id r Hrow Hgt. rewrite Hother; [done|].
      intros (x & Hid & Hin)%list_elem_of_fmap. destruct x as [id' r']. simpl in Hid.
      subst id'. destruct (Hsound id r' Hin) as [Hrow' (_ & Hle & _)].
      rewrite Hrow in Hrow'. simplify_eq. lia.
    + done.
    + intros id r Hrow Hgt Hfresh.
      destruct (Hfiles (local_path r)) as [?|(_ & _ & id' & r' & Hin & Hp')]; [done|].
      destruct (Hsound id' r' Hin) as [Hrow' (_ & Hle & _)].
      by destruct (Hfresh id' r' Hrow' Hle).
Qed.

(** C9. Every candidate of a cleanup tick is processed on its own. When
    its file is absent, or present and removable, the row is marked deleted
    ([local_exists = 0], the other columns kept) and no file is left at the
    path. When removing the existing file raises, the row and the file are
    left exactly as they were; the other candidates of the batch are
    processed all the same, since the statement holds for each of them. *)
Theorem cleanup_candidate_outcome (now : Z) (w : World) (s : string) (safe : Z) :
  get_state_value (db w) Client.watermark_key = Some s →
  py_int s = Some safe →
  let w' := step w (CleanupTick now) in
  ∀ id r,
    (id, r) ∈ get_cleanup_candidates (db w) safe
                (Config.retention_days (config (self w))) 20 now →
    images (db w) !! id = Some r ∧
    (files (fs w) !! local_path r = None →
       images (db w') !! id = Some (set_deleted r) ∧
       local_exists (set_deleted r) = false) ∧
    (is_Some (files (fs w) !! local_path r) → local_path r ∉ locked (fs w) →
       images (db w') !! id = Some (set_deleted r) ∧
       files (fs w') !! local_path r = None) ∧
    (is_Some (files (fs w) !! local_path r) → local_path r ∈ locked (fs w) →
       images (db w') !! id = Some r ∧
       files (fs w') !! local_path r = files (fs w) !! local_path r).
Proof.
  intros Hk Hp w' id r Hin. subst w'. simpl. unfold iteration.
  rewrite (cleanup_once_present _ _ _ _ Hk Hp).
  set (l := get_cleanup_candidates _ _ _ _ _) in *.
  assert (Hrows : ∀ id r, (id, r) ∈ l → images (db w) !! id = Some r).
  { intros id' r' Hin'. by apply candidates_sound in Hin' as [? _]. }
  destruct (cleanup_loop_spec l w (NoDup_candidates _ _ _ _ _) Hrows _ eq_refl)
    as (_ & _ & _ & _ & _ & _ & _ & _ & _ & Hcand).
  destruct (Hcand id r Hin) as [Hstuck Hfree].
  split; [by apply Hrows|]. split; [|split].
  - intros Hnone. split; [|done]. apply Hfree. intros [[? Hs] _]. congruence.
  - intros Hsome Hnl. apply Hfree. by intros [_ ?].
  - intros Hsome Hl. by apply Hstuck.
Qed.
End cleanup_theorems.

Section heartbeat_theorems.
Context `{Runtime}.

Lemma send_heartbeat_failure o :
  heartbeat_failure o → Client.send_heartbeat o = None.
Proof.
  unfold Client.send_heartbeat, Client.heartbeat_request.
  destruct 1 as [|o (status & body & -> & Hst)|status|status data Hno
                 |status fields Hf|status fields Hf]; simpl.
  - done.
  - by rewrite decide_True.
  - by destruct (decide _).
  - destruct (decide _); [done|]. destruct data; try done. by destruct (Hno fields).
  - destruct (decide _); [done|]. simpl. by rewrite Hf.
  - destruct (decide _); [done|]. simpl. by rewrite Hf.
Qed.

Lemma send_heartbeat_success status fields v :
  ¬ (400 ≤ status < 600) →
  Client.dict_get fields Client.watermark_key = Some v → v ≠ JNull →
  Client.send_heartbeat (Client.Response status (Some (JObj fields))) = Some v.
Proof.
  intros Hst Hf Hv. unfold Client.send_heartbeat, Client.heartbeat_request. simpl.
  rewrite decide_False by done. simpl. rewrite Hf. by destruct v.
Qed.

Lemma heartbeat_once_spec srv w :
  heartbeat_once srv w =
    match Client.send_heartbeat
            (heartbeat_reply srv (Config.device_id (config (self w)))
               (_get_max_id (db w) capture_events_local)) with
    | Some v => (with_db w (set_state_value (db w) Client.watermark_key (py_str v)), inr tt)
    | None => (w, inr tt)
    end.
Proof.
  unfold heartbeat_once, bind, gets. simpl. by destruct (Client.send_heartbeat _).
Qed.

Lemma json_null_dec (v : json) : v = JNull ∨ v ≠ JNull.
Proof. destruct v; first [by left | by right]. Qed.

(** Every reply is a failure or carries a watermark value. *)
Lemma heartbeat_reply_cases o :
  heartbeat_failure o ∨
  ∃ status fields v,
    o = Client.Response status (Some (JObj fields)) ∧
    ¬ (400 ≤ status < 600) ∧
    Client.dict_get fields Client.watermark_key = Some v ∧ v ≠ JNull.
Proof.
  destruct o as [|status body]; [left; constructor|].
  destruct (decide (400 ≤ status < 600)) as [Hst|Hst].
  { left. apply hb_rejected. by exists status, body. }
  destruct body as [data|]; [|left; apply hb_not_json].
  assert (Hobj : (∀ fields, data ≠ JObj fields) ∨ ∃ fields, data = JObj fields).
  { destruct data; first [by left | right; by eexists]. }
  destruct Hobj as [Hno|[fields ->]]; [left; by apply hb_not_object|].
  destruct (Client.dict_get fields Client.watermark_key) as [v|] eqn:Hf;
    [|left; by apply hb_no_field].
  destruct (json_null_dec v) as [->|Hv]; [left; by apply hb_null_field|].
  right. exists status, fields, v. by repeat split.
Qed.

(** C7. A heartbeat tick that fails (the call raises, the server answers
    with an error status, the body is not JSON, is not an object, or has no
    watermark field or a null one) leaves the whole world, and so the
    stored watermark, exactly as it was. A tick whose response carries a
    watermark value stores [str] of that value under the watermark key and
    changes nothing else, whatever the type of the value: the client does
    not check it. These are all the cases, and in none of them does a
    stored watermark become absent. *)
Theorem heartbeat_keeps_or_stores_watermark (srv : Server) (w : World) :
  let reply := heartbeat_reply srv (Config.device_id (config (self w)))
                 (_get_max_id (db w) capture_events_local) in
  let w' := step w (HeartbeatTick srv) in
  (heartbeat_failure reply → w' = w) ∧
  (∀ status fields v,
     reply = Client.Response status (Some (JObj fields)) →
     ¬ (400 ≤ status < 600) →
     Client.dict_get fields Client.watermark_key = Some v → v ≠ JNull →
     w' = with_db w (set_state_value (db w) Client.watermark_key (py_str v)) ∧
     get_state_value (db w') Client.watermark_key = Some (py_str v)) ∧
  (is_Some (get_state_value (db w) Client.watermark_key) →
   is_Some (get_state_value (db w') Client.watermark_key)) ∧
  (heartbeat_failure reply ∨
   ∃ status fields v,
     reply = Client.Response status (Some (JObj fields)) ∧
     ¬ (400 ≤ status < 600) ∧
     Client.dict_get fields Client.watermark_key = Some v ∧ v ≠ JNull).
Proof.
  simpl. unfold iteration. rewrite heartbeat_once_spec. split; [|split; [|split]].
  - intros Hfail. by rewrite (send_heartbeat_failure _ Hfail).
  - intros status fields v -> Hst Hf Hv.
    rewrite (send_heartbeat_success _ _ _ Hst Hf Hv). simpl. split; [done|].
    unfold get_state_value. simpl. apply lookup_insert_eq.
  - intros Hsome. destruct (Client.send_heartbeat _); [|done]. simpl.
    unfold get_state_value. simpl. rewrite lookup_insert. case_decide; eauto.
  - apply heartbeat_reply_cases.
Qed.
End heartbeat_theorems.

Section capture_facts.
Context `{Runtime}.

Lemma read_reading_id s air cid rid reading :
  Sensors.read s air cid rid = inr reading →
  Sensors.reading_id reading = rid ∧ Sensors.crate_id reading = cid.
Proof.
  destruct s as [|d]; simpl.
  - unfold Sensors.mock_read. by intros [= <-].
  - unfold Sensors.dht22_read.
    destruct (Sensors.read_retry air) as [[?|] [?|]]; try done. by intros [= <-].
Qed.

Lemma capture_reading_spec env cid w :
  capture_reading env cid w =
    match sensor (self w) with
    | None => (w, inr tt)
    | Some s =>
        let w1 := with_counters w (_event_counter (self w))
                    (_reading_counter (self w) + 1) in
        match Sensors.read s (air env) cid (_reading_counter (self w) + 1) with
        | inl e => (w1, inl e)
        | inr reading =>
            match insert_sensor_reading (db w) (reading_record reading) with
            | inl e => (w1, inl e)
            | inr d => (with_db w1 d, inr tt)
            end
        end
    end.
Proof.
  unfold capture_reading, bind, gets, modify, lift, db_try. simpl.
  destruct (sensor (self w)); [|done]. simpl.
  destruct (Sensors.read _ _ _ _); [done|]. simpl.
  by destruct (insert_sensor_reading _ _).
Qed.

Lemma capture_images_spec env eid cid cat w :
  capture_images env eid cid cat w =
    let out := dispatch_capture_burst (camera (self w)) (scene env) eid
                 (Config.image_dir (config (self w)))
                 (Config.burst_size (config (self w))) (fs w) in
    match out.2 with
    | inl e => (with_fs w out.1, inl e)
    | inr imgs =>
        insert_images eid imgs
          (with_db (with_fs w out.1)
             (insert_event (db w) (event_record w eid cid cat imgs)))
    end.
Proof.
  unfold capture_images, bind, gets, camera_capture_burst. simpl.
  destruct (dispatch_capture_burst _ _ _ _ _ _) as [f [e|imgs]]; done.
Qed.

Lemma capture_once_spec env w :
  capture_once env w =
    let w1 := with_counters w (_event_counter (self w) + 1)
                (_reading_counter (self w)) in
    match capture_reading env (crate_id (self w)) w1 with
    | (w2, inl e) => (w2, inl e)
    | (w2, inr _) =>
        capture_images env (_event_counter (self w) + 1) (crate_id (self w))
          (utcnow env) w2
    end.
Proof. reflexivity. Qed.

Lemma insert_images_cons eid img rest w :
  insert_images eid (img :: rest) w =
    match insert_image (db w) (image_record eid img) with
    | inl e => (w, inl e)
    | inr d => insert_images eid rest (with_db w d)
    end.
Proof.
  unfold insert_images. cbn [for_each]. unfold bind, db_try.
  by destruct (insert_image _ _).
Qed.

Lemma insert_images_spec eid imgs : ∀ w,
  self (insert_images eid imgs w).1 = self w ∧
  fs (insert_images eid imgs w).1 = fs w ∧
  crates (db (insert_images eid imgs w).1) = crates (db w) ∧
  events (db (insert_images eid imgs w).1) = events (db w) ∧
  readings (db (insert_images eid imgs w).1) = readings (db w) ∧
  state (db (insert_images eid imgs w).1) = state (db w) ∧
  ∃ k : nat, (k ≤ length imgs)%nat ∧
    images (db (insert_images eid imgs w).1) =
      (images (db w) ++ (image_record eid <$> take k imgs))%list ∧
    ((insert_images eid imgs w).2 = inr tt → k = length imgs) ∧
    (NoDup (key <$> images (db w)) →
     NoDup (key <$> images (db (insert_images eid imgs w).1))).
Proof.
  induction imgs as [|img rest IH]; intros w.
  - simpl. do 6 (split; [done|]). exists 0%nat. simpl.
    rewrite app_nil_r. split; [lia|]. split; [done|]. split; done.
  - rewrite insert_images_cons. unfold insert_image.
    destruct (decide _) as [Hdup|Hfresh].
    + simpl. do 6 (split; [done|]). exists 0%nat. simpl.
      rewrite app_nil_r. split; [lia|]. split; [done|]. split; done.
    + set (w1 := with_db w _).
      destruct (IH w1) as (Hs & Hf & Hc & He & Hr & Hst & k & Hk & Him & Hres & Hnd).
      split; [done|]. split; [done|]. split; [done|]. split; [done|].
      split; [done|]. split; [done|].
      exists (S k). split; [simpl; lia|]. split; [|split].
      * rewrite Him. simpl. by rewrite <- app_assoc.
      * intros Hok. simpl. f_equal. by apply Hres.
      * intros Hnd0. apply Hnd. simpl. rewrite fmap_app. simpl.
        apply NoDup_app. split; [done|]. split; [|apply NoDup_singleton].
        intros x Hx ->%list_elem_of_singleton. done.
Qed.
End capture_facts.

Section capture_effect.
Context `{Runtime}.

Lemma chunk_size_pos : (0 < Camera.chunk_size)%nat.
Proof. unfold Camera.chunk_size. lia. Qed.

(** The chunked read feeds the whole file to the hash object. *)
Lemma read_chunks_all size rounds : ∀ rest h,
  (0 < size)%nat → (length rest ≤ rounds)%nat →
  Camera.read_chunks size rounds h rest =
    {| Camera.absorbed := Camera.absorbed h ++ rest |}.
Proof.
  induction rounds as [|k IH]; intros rest h Hpos Hlen.
  - destruct rest; [|simpl in Hlen; lia]. simpl. rewrite take_nil.
    destruct h. simpl. by rewrite app_nil_r.
  - simpl. destruct (take size rest) as [|b chunk] eqn:Htake.
    + destruct rest as [|b rest].
      * destruct h. simpl. by rewrite app_nil_r.
      * destruct size; [lia|done].
    + rewrite IH; [|done|rewrite length_drop; lia].
      unfold Camera.update. simpl. rewrite <- Htake, <- app_assoc.
      by rewrite take_drop.
Qed.

Lemma compute_sha256_written f path data :
  files f !! path = Some data →
  Camera._compute_sha256 f path = inr (sha256_hexdigest data).
Proof.
  intros Hf. unfold Camera._compute_sha256, Camera.hexdigest. rewrite Hf.
  by rewrite read_chunks_all by (apply chunk_size_pos || done).
Qed.

Lemma mock_frame_spec cam sc eid dir idx f :
  Camera.mock_frame cam sc eid dir idx f =
    let path := path_join dir (Camera.image_filename eid idx) in
    match Camera.jpeg sc idx with
    | None => (f, inl OSError)
    | Some data =>
        (write_file f path data,
         inr {| Camera.image_index := idx; Camera.local_path := path;
                Camera.size_bytes := length data;
                Camera.sha256_hex := sha256_hexdigest data;
                Camera.width_px := Camera.mock_width cam;
                Camera.height_px := Camera.mock_height cam;
                Camera.format := "jpg";
                Camera.captured_at := Camera.burst_clock sc |})
    end.
Proof.
  unfold Camera.mock_frame. cbv zeta. destruct (Camera.jpeg sc idx) as [data|]; [|done].
  rewrite (compute_sha256_written _ _ data) by apply lookup_insert_eq.
  unfold Camera.os_path_getsize. simpl. by rewrite lookup_insert_eq.
Qed.

Lemma mock_loop_locked cam sc eid dir idxs : ∀ acc f,
  locked (Camera.mock_loop cam sc eid dir idxs acc f).1 = locked f.
Proof.
  induction idxs as [|idx rest IH]; intros acc f; [done|].
  simpl. rewrite mock_frame_spec. cbv zeta.
  destruct (Camera.jpeg sc idx) as [data|]; [|done].
  by rewrite IH.
Qed.

Lemma write_all_locked written : ∀ f, locked (Camera.write_all f written) = locked f.
Proof.
  unfold Camera.write_all. induction written as [|x rest IH]; intros f; [done|].
  simpl. by rewrite IH.
Qed.

Lemma dispatch_locked cam sc eid dir n f :
  locked (dispatch_capture_burst cam sc eid dir n f).1 = locked f.
Proof.
  destruct cam as [c|c]; simpl.
  - apply mock_loop_locked.
  - unfold Camera.rpi_capture_burst.
    destruct (Camera.tool sc); simpl; [done|apply write_all_locked..].
Qed.

Lemma capture_reading_effect env cid w :
  let w' := (capture_reading env cid w).1 in
  config (self w') = config (self w) ∧ crate_id (self w') = crate_id (self w) ∧
  camera (self w') = camera (self w) ∧ sensor (self w') = sensor (self w) ∧
  _event_counter (self w') = _event_counter (self w) ∧
  _reading_counter (self w') =
    match sensor (self w) with
    | Some _ => _reading_counter (self w) + 1
    | None => _reading_counter (self w)
    end ∧
  fs w' = fs w ∧ crates (db w') = crates (db w) ∧ state (db w') = state (db w) ∧
  events (db w') = events (db w) ∧ images (db w') = images (db w) ∧
  (readings (db w') = readings (db w) ∨
   ∃ reading, Sensors.reading_id reading = _reading_counter (self w) + 1 ∧
     is_Some (sensor (self w)) ∧
     ((_reading_counter (self w) + 1) ∉ (reading_id <$> readings (db w))) ∧
     (capture_reading env cid w).2 = inr tt ∧
     readings (db w') = (readings (db w) ++ [reading_record reading])%list).
Proof.
  rewrite capture_reading_spec. destruct (sensor (self w)) as [s|] eqn:Hsensor.
  - cbv zeta. destruct (Sensors.read s _ _ _) as [e|reading] eqn:Hread.
    { cbn. rewrite Hsensor. do 11 (split; [done|]). by left. }
    unfold insert_sensor_reading. destruct (decide _) as [Hdup|Hfresh].
    { cbn. rewrite Hsensor. do 11 (split; [done|]). by left. }
    destruct (read_reading_id _ _ _ _ _ Hread) as [Hrid _].
    cbn. rewrite Hsensor. do 11 (split; [done|]). right. exists reading.
    split; [done|]. split; [eauto|]. split; [|done].
    cbn in Hfresh. by rewrite Hrid in Hfresh.
  - cbn. rewrite Hsensor. do 11 (split; [done|]). by left.
Qed.

(** Everything one capture tick can do to the world. *)
Lemma capture_once_effect env w :
  let w' := (capture_once env w).1 in
  let eid := _event_counter (self w) + 1 in
  let out := dispatch_capture_burst (camera (self w)) (scene env) eid
               (Config.image_dir (config (self w)))
               (Config.burst_size (config (self w))) (fs w) in
  config (self w') = config (self w) ∧ crate_id (self w') = crate_id (self w) ∧
  camera (self w') = camera (self w) ∧ sensor (self w') = sensor (self w) ∧
  _event_counter (self w') = eid ∧
  _reading_counter (self w') =
    match sensor (self w) with
    | Some _ => _reading_counter (self w) + 1
    | None => _reading_counter (self w)
    end ∧
  crates (db w') = crates (db w) ∧ state (db w') = state (db w) ∧
  locked (fs w') = locked (fs w) ∧
  (events (db w') = events (db w) ∨
   ∃ imgs, out.2 = inr imgs ∧
     events (db w') =
       (events (db w) ++
        [event_record w eid (crate_id (self w)) (utcnow env) imgs])%list) ∧
  (readings (db w') = readings (db w) ∨
   ∃ reading, Sensors.reading_id reading = _reading_counter (self w) + 1 ∧
     is_Some (sensor (self w)) ∧
     ((_reading_counter (self w) + 1) ∉ (reading_id <$> readings (db w))) ∧
     readings (db w') = (readings (db w) ++ [reading_record reading])%list) ∧
  (∃ new, images (db w') = (images (db w) ++ new)%list ∧
     (NoDup (key <$> images (db w)) → NoDup (key <$> images (db w'))) ∧
     (new = [] ∨ ∃ imgs k, out.2 = inr imgs ∧ fs w' = out.1 ∧
                   new = image_record eid <$> take k imgs)) ∧
  ((capture_once env w).2 = inr tt →
   ∃ imgs, out.2 = inr imgs ∧
     events (db w') =
       (events (db w) ++
        [event_record w eid (crate_id (self w)) (utcnow env) imgs])%list ∧
     images (db w') = (images (db w) ++ (image_record eid <$> imgs))%list).
Proof.
  intros w' eid out. subst w'. rewrite capture_once_spec. cbv zeta. fold eid.
  assert (Hnil : ∀ l : list CapturedImageRecord, l = (l ++ [])%list)
    by (intros; by rewrite app_nil_r).
  assert (Himages : ∀ w2,
    config (self w2) = config (self w) → camera (self w2) = camera (self w) →
    fs w2 = fs w → images (db w2) = images (db w) →
    let w' := (capture_images env eid (crate_id (self w)) (utcnow env) w2).1 in
    self w' = self w2 ∧ crates (db w') = crates (db w2) ∧
    state (db w') = state (db w2) ∧ readings (db w') = readings (db w2) ∧
    locked (fs w') = locked (fs w) ∧
    (events (db w') = events (db w2) ∨
     ∃ imgs, out.2 = inr imgs ∧
       events (db w') =
         (events (db w2) ++
          [event_record w eid (crate_id (self w)) (utcnow env) imgs])%list) ∧
    (∃ new, images (db w') = (images (db w) ++ new)%list ∧
       (NoDup (key <$> images (db w)) → NoDup (key <$> images (db w'))) ∧
       (new = [] ∨ ∃ imgs k, out.2 = inr imgs ∧ fs w' = out.1 ∧
                     new = image_record eid <$> take k imgs)) ∧
    ((capture_images env eid (crate_id (self w)) (utcnow env) w2).2 = inr tt →
     ∃ imgs, out.2 = inr imgs ∧
       events (db w') =
         (events (db w2) ++
          [event_record w eid (crate_id (self w)) (utcnow env) imgs])%list ∧
       images (db w') = (images (db w) ++ (image_record eid <$> imgs))%list)).
  { intros w2 Hcfg Hcam Hfs Him. rewrite capture_images_spec. cbv zeta.
    rewrite Hcfg, Hcam, Hfs. fold eid. fold out.
    assert (Hl : locked out.1 = locked (fs w)) by apply dispatch_locked.
    assert (Hev : ∀ imgs, event_record w2 eid (crate_id (self w)) (utcnow env) imgs
                          = event_record w eid (crate_id (self w)) (utcnow env) imgs).
    { intros imgs. unfold event_record. by rewrite Hcfg. }
    clearbody out. destruct out as [f [e|imgs]]; cbn [fst snd] in *.
    - cbn [with_fs self db fs]. split; [done|]. split; [done|]. split; [done|].
      split; [done|]. split; [done|]. split; [by left|]. split; [|done].
      exists []. rewrite Him. split; [apply Hnil|]. split; [done|by left].
    - rewrite Hev.
      match goal with |- context [insert_images eid imgs ?w3] =>
        destruct (insert_images_spec eid imgs w3)
          as (Hs & Hf & Hc & He & Hr & Hst & k & Hk & Himg & Hfull & Hnd) end.
      cbn [with_fs with_db self db fs insert_event with_events
           crates events images readings state] in Hs, Hf, Hc, He, Hr, Hst, Himg, Hnd.
      rewrite Hs, Hc, He, Hr, Hst, Hf.
      split; [done|]. split; [done|]. split; [done|]. split; [done|].
      split; [done|]. split.
      + right. by exists imgs.
      + split.
        * exists (image_record eid <$> take k imgs).
          split; [by rewrite Himg, Him|]. split; [by rewrite <- Him|].
          right. by exists imgs, k.
        * intros Hdone. exists imgs. split; [done|]. split; [done|].
          rewrite Himg, Him, (Hfull Hdone). by rewrite firstn_all. }
  set (w1 := with_counters w eid (_reading_counter (self w))).
  destruct (capture_reading_effect env (crate_id (self w)) w1)
    as (Hcfg & Hcr & Hcam & Hsen & Hec & Hrc & Hfs & Hc & Hst & Hev & Him & Hrd).
  destruct (capture_reading env (crate_id (self w)) w1) as [w2 [e|u]] eqn:Hres;
    cbn [fst snd] in *; clear Hres; subst w1;
    cbn [with_counters self db fs config crate_id camera sensor
         _event_counter _reading_counter] in *.
  - rewrite Hcfg, Hcr, Hcam, Hsen, Hec, Hrc, Hfs, Hc, Hst, Hev, Him.
    do 9 (split; [done|]). split; [by left|]. split.
    + destruct Hrd as [->|(reading & _ & _ & _ & ? & _)]; [by left|done].
    + split; [|done]. exists []. split; [apply Hnil|]. split; [done|by left].
  - destruct (Himages w2 Hcfg Hcam Hfs Him)
      as (Hs' & Hc' & Hst' & Hr' & Hl' & Hev' & Him' & Hdone').
    rewrite Hs', Hc', Hst', Hr'.
    rewrite Hcfg, Hcr, Hcam, Hsen, Hec, Hrc, Hc, Hst.
    do 8 (split; [done|]). split; [done|]. split; [by rewrite <- Hev|].
    split; [|split; [done|]].
    + destruct Hrd as [->|(reading & ? & ? & ? & _ & ?)]; [by left|].
      right. by exists reading.
    + intros Hdone. destruct (Hdone' Hdone) as (imgs & ? & ? & ?).
      exists imgs. by rewrite <- Hev.
Qed.
End capture_effect.

Section sync_facts.
Context `{Runtime}.

Lemma world_eta w : with_db w (db w) = w.
Proof. by destruct w. Qed.

Lemma mark_events_nil d : mark_events [] d = d.
Proof.
  destruct d as [c e i r s]. unfold mark_events. simpl. f_equal.
  - rewrite <- (list_fmap_id e) at 2. apply list_fmap_ext. intros ? x _. by simpl.
  - rewrite <- (list_fmap_id i) at 2. apply list_fmap_ext. intros ? x _. by simpl.
Qed.

Lemma mark_events_cons eid ids d :
  mark_events ids (mark_image_metadata_uploaded (mark_event_uploaded d eid) eid)
  = mark_events (eid :: ids) d.
Proof.
  unfold mark_events, mark_image_metadata_uploaded, mark_event_uploaded. simpl.
  f_equal.
  - rewrite <- list_fmap_compose. apply list_fmap_ext. intros ? e _. simpl.
    destruct (decide (event_id e = eid)) as [Heq|Hne].
    + rewrite (decide_True (P := event_id e ∈ eid :: ids)) by (rewrite Heq; left).
      simpl. by destruct (decide _).
    + destruct (decide (event_id e ∈ ids)) as [Hin|Hnin].
      * by rewrite decide_True by (by right).
      * rewrite decide_False; [done|]. by intros [?|?]%elem_of_cons.
  - rewrite <- list_fmap_compose. apply list_fmap_ext. intros ? r _. simpl.
    destruct (decide (event_local_id r = eid)) as [Heq|Hne].
    + rewrite (decide_True (P := event_local_id r ∈ eid :: ids)) by (rewrite Heq; left).
      simpl. by destruct (decide _).
    + destruct (decide (event_local_id r ∈ ids)) as [Hin|Hnin].
      * by rewrite decide_True by (by right).
      * rewrite decide_False; [done|]. by intros [?|?]%elem_of_cons.
Qed.

Lemma mark_events_loop batch : ∀ w,
  for_each batch (λ event,
    db_call (λ d, mark_event_uploaded d (event_id event)) ;;;
    db_call (λ d, mark_image_metadata_uploaded d (event_id event))) w
  = (with_db w (mark_events (event_id <$> batch) (db w)), inr tt).
Proof.
  induction batch as [|e rest IH]; intros w.
  - simpl. by rewrite mark_events_nil, world_eta.
  - cbn [for_each]. unfold bind at 1. unfold bind at 1, db_call, modify.
    rewrite IH. simpl. by rewrite mark_events_cons.
Qed.

Lemma sync_events_spec srv w :
  sync_events srv w =
    let batch := get_unsynced_events (db w) 5 in
    let payload := event_meta (Config.device_id (config (self w))) (db w) <$> batch in
    match batch with
    | [] => (w, inr tt)
    | _ =>
        if Client.upload_metadata (metadata_reply srv payload)
        then (with_db w (mark_events (event_id <$> batch) (db w)), inr tt)
        else (w, inr tt)
    end.
Proof.
  unfold sync_events, bind, gets, when. simpl.
  destruct (get_unsynced_events (db w) 5) as [|e rest] eqn:Hb; [done|].
  destruct (Client.upload_metadata _); [|done].
  by rewrite mark_events_loop.
Qed.

Lemma mark_readings_nil d : mark_readings [] d = d.
Proof.
  destruct d as [c e i r s]. unfold mark_readings, with_readings. simpl. f_equal.
  rewrite <- (list_fmap_id r) at 2. apply list_fmap_ext. intros ? x _. by simpl.
Qed.

Lemma mark_readings_cons rid ids d :
  mark_readings ids (mark_reading_uploaded d rid) = mark_readings (rid :: ids) d.
Proof.
  unfold mark_readings, mark_reading_uploaded, with_readings. simpl. f_equal.
  rewrite <- list_fmap_compose. apply list_fmap_ext. intros ? r _. simpl.
  destruct (decide (reading_id r = rid)) as [Heq|Hne].
  - rewrite (decide_True (P := reading_id r ∈ rid :: ids)) by (rewrite Heq; left).
    simpl. by destruct (decide _).
  - destruct (decide (reading_id r ∈ ids)) as [Hin|Hnin].
    + by rewrite decide_True by (by right).
    + rewrite decide_False; [done|]. by intros [?|?]%elem_of_cons.
Qed.

Lemma mark_readings_loop batch : ∀ w,
  for_each batch (λ r, db_call (λ d, mark_reading_uploaded d (reading_id r))) w
  = (with_db w (mark_readings (reading_id <$> batch) (db w)), inr tt).
Proof.
  induction batch as [|r rest IH]; intros w.
  - simpl. by rewrite mark_readings_nil, world_eta.
  - cbn [for_each]. unfold bind at 1, db_call, modify.
    rewrite IH. simpl. by rewrite mark_readings_cons.
Qed.

Lemma sync_readings_spec srv w :
  sync_readings srv w =
    let batch := get_sensor_readings (db w) false 10 in
    let payload := reading_meta (Config.device_id (config (self w))) <$> batch in
    match batch with
    | [] => (w, inr tt)
    | _ =>
        if Client.upload_metadata (metadata_reply srv payload)
        then (with_db w (mark_readings (reading_id <$> batch) (db w)), inr tt)
        else (w, inr tt)
    end.
Proof.
  unfold sync_readings, bind, gets, when. simpl.
  destruct (get_sensor_readings (db w) false 10) as [|e rest] eqn:Hb; [done|].
  destruct (Client.upload_metadata _); [|done].
  by rewrite mark_readings_loop.
Qed.
End sync_facts.

Section row_relations.
Implicit Types (r : CapturedImageRecord) (l : list CapturedImageRecord).

Lemma set_flags_id r :
  set_flags r (metadata_uploaded r) (uploaded r) (local_exists r) (corrupted r) = r.
Proof. by destruct r. Qed.

#[global] Instance row_evolves_refl : Reflexive row_evolves.
Proof. intros r. exists (metadata_uploaded r), (uploaded r), (local_exists r), (corrupted r).
       by rewrite set_flags_id. Qed.

#[global] Instance row_evolves_trans : Transitive row_evolves.
Proof.
  intros r1 r2 r3 (m & u & l & c & -> & Hc) (m' & u' & l' & c' & -> & Hc').
  exists m', u', l', c'. split; [done|]. intros Hr. apply Hc'. simpl. by apply Hc.
Qed.

#[global] Instance upload_evolves_refl : Reflexive upload_evolves.
Proof. intros r. exists (uploaded r), (corrupted r). by rewrite set_flags_id. Qed.

#[global] Instance upload_evolves_trans : Transitive upload_evolves.
Proof.
  intros r1 r2 r3 (u & c & -> & Hc) (u' & c' & -> & Hc').
  exists u', c'. split; [done|]. intros Hr. apply Hc'. simpl. by apply Hc.
Qed.

Lemma upload_evolves_row r r' : upload_evolves r r' → row_evolves r r'.
Proof. intros (u & c & -> & Hc). by exists (metadata_uploaded r), u, (local_exists r), c. Qed.

Lemma upload_evolves_set_uploaded r : upload_evolves r (set_uploaded r).
Proof. by exists true, (corrupted r). Qed.

Lemma upload_evolves_set_corrupted r : upload_evolves r (set_corrupted r).
Proof. by exists (uploaded r), true. Qed.

Lemma row_evolves_set_metadata r : row_evolves r (set_metadata_uploaded r).
Proof. by exists true, (uploaded r), (local_exists r), (corrupted r). Qed.

Lemma row_evolves_set_deleted r : row_evolves r (set_deleted r).
Proof. by exists (metadata_uploaded r), (uploaded r), false, (corrupted r). Qed.

Lemma rows_related_refl R `{!Reflexive R} l : rows_related R l l.
Proof. intros id r Hr. by exists r. Qed.

Lemma rows_related_trans R `{!Transitive R} l1 l2 l3 :
  rows_related R l1 l2 → rows_related R l2 l3 → rows_related R l1 l3.
Proof.
  intros H12 H23 id r Hr. destruct (H12 id r Hr) as (r2 & Hr2 & HR).
  destruct (H23 id r2 Hr2) as (r3 & Hr3 & HR'). exists r3. split; [done|].
  by transitivity r2.
Qed.

Lemma rows_related_mono (R R' : relation CapturedImageRecord) l l' :
  (∀ r r', R r r' → R' r r') → rows_related R l l' → rows_related R' l l'.
Proof. intros Hsub Hrel id r Hr. destruct (Hrel id r Hr) as (r' & ? & ?). eauto. Qed.

Lemma rows_related_fmap R g l : (∀ r, R r (g r)) → rows_related R l (g <$> l).
Proof. intros Hg id r Hr. exists (g r). by rewrite list_lookup_fmap, Hr. Qed.

Lemma rows_related_alter R `{!Reflexive R} g i l :
  (∀ r, R r (g r)) → rows_related R l (alter g i l).
Proof.
  intros Hg id r Hr. destruct (decide (i = id)) as [->|Hne].
  - exists (g r). by rewrite list_lookup_alter_eq, Hr.
  - exists r. by rewrite list_lookup_alter_ne.
Qed.

Lemma rows_related_app R `{!Reflexive R} l new : rows_related R l (l ++ new).
Proof. intros id r Hr. exists r. split; [|done]. by apply lookup_app_l_Some. Qed.

(** A key names one row. *)
Lemma fmap_by_key_alter g l i r :
  NoDup (key <$> l) → l !! i = Some r →
  (λ x, if decide (event_local_id x = event_local_id r ∧
                   image_index x = image_index r) then g x else x) <$> l
  = alter g i l.
Proof.
  intros Hnd Hi. apply list_eq. intros j. rewrite list_lookup_fmap.
  destruct (decide (i = j)) as [<-|Hne].
  - rewrite list_lookup_alter_eq, Hi. simpl. by rewrite decide_True.
  - rewrite list_lookup_alter_ne by done.
    destruct (l !! j) as [x|] eqn:Hj; [|done]. simpl.
    destruct (decide _) as [[He Hx]|]; [|done]. destruct Hne.
    eapply (NoDup_lookup _ _ _ (key r) Hnd).
    + by rewrite list_lookup_fmap, Hi.
    + rewrite list_lookup_fmap, Hj. simpl. unfold key. by rewrite He, Hx.
Qed.

Lemma store_ok_alter d i g r :
  store_ok d → images d !! i = Some r → key (g r) = key r →
  (corrupted (g r) = true → uploaded (g r) = false) →
  store_ok (with_images d (alter g i (images d))).
Proof.
  intros [Hnd Hrow] Hi Hkey Hg. split; simpl.
  - replace (key <$> alter g i (images d)) with (key <$> images d); [done|].
    apply list_eq. intros j. rewrite !list_lookup_fmap.
    destruct (decide (i = j)) as [<-|Hne].
    + rewrite list_lookup_alter_eq, Hi. simpl. by rewrite Hkey.
    + by rewrite list_lookup_alter_ne.
  - intros x (j & Hj)%list_elem_of_lookup. destruct (decide (i = j)) as [<-|Hne].
    + rewrite list_lookup_alter_eq, Hi in Hj. simpl in Hj. simplify_eq. exact Hg.
    + rewrite list_lookup_alter_ne in Hj by done. apply Hrow.
      apply list_elem_of_lookup. eauto.
Qed.

(** The invariant only looks at keys and at the two upload flags. *)
Lemma store_ok_pointwise d d' :
  store_ok d →
  (∀ id, option_Forall2 same_upload_state (images d !! id) (images d' !! id)) →
  store_ok d'.
Proof.
  intros [Hnd Hrow] Hpt. split.
  - replace (key <$> images d') with (key <$> images d); [done|].
    apply list_eq. intros j. rewrite !list_lookup_fmap.
    destruct (Hpt j) as [r r' (Hk & _)|]; simpl; [by rewrite Hk|done].
  - intros x (j & Hj)%list_elem_of_lookup. specialize (Hpt j).
    rewrite Hj in Hpt. inversion Hpt as [r r' (Hk & Hu & Hc) Hr|]; subst.
    rewrite Hu, Hc. apply Hrow. apply list_elem_of_lookup. eauto.
Qed.

Lemma store_ok_fmap d g :
  (∀ r, same_upload_state r (g r)) → store_ok d →
  store_ok (with_images d (g <$> images d)).
Proof.
  intros Hg Hok. apply (store_ok_pointwise d); [done|]. intros id. simpl.
  rewrite list_lookup_fmap. destruct (images d !! id); constructor. apply Hg.
Qed.

Lemma store_ok_same_images d d' : images d' = images d → store_ok d → store_ok d'.
Proof. unfold store_ok. by intros ->. Qed.
End row_relations.

Section sync_images_facts.
Context `{Runtime}.

Lemma sync_image_spec srv id r w :
  sync_image srv (id, r) w =
    (with_db w
       (if upload_ok srv (Config.device_id (config (self w))) (fs w) r
        then mark_image_uploaded (db w) (event_local_id r) (image_index r)
        else mark_image_corrupted (db w) id), inr tt).
Proof.
  unfold sync_image, bind, gets, upload_ok. simpl.
  by destruct (Client.upload_image _ _ _).
Qed.

Lemma sync_images_frame srv l : ∀ w,
  (for_each l (sync_image srv) w).2 = inr tt ∧
  self (for_each l (sync_image srv) w).1 = self w ∧
  fs (for_each l (sync_image srv) w).1 = fs w ∧
  crates (db (for_each l (sync_image srv) w).1) = crates (db w) ∧
  events (db (for_each l (sync_image srv) w).1) = events (db w) ∧
  readings (db (for_each l (sync_image srv) w).1) = readings (db w) ∧
  state (db (for_each l (sync_image srv) w).1) = state (db w) ∧
  rows_related upload_evolves (images (db w))
    (images (db (for_each l (sync_image srv) w).1)).
Proof.
  induction l as [|[id r] l IH]; intros w.
  - simpl. do 7 (split; [done|]). by apply rows_related_refl, _.
  - rewrite (for_each_cons_inr _ _ _ _ _ (sync_image_spec srv id r w)).
    match goal with |- context [for_each l _ ?w1] =>
      destruct (IH w1) as (Hres & Hs & Hf & Hc & He & Hr & Hst & Hrel) end.
    rewrite Hres, Hs, Hf, Hc, He, Hr, Hst.
    split; [done|]. split; [done|]. split; [done|].
    split; [by destruct (upload_ok _ _ _ _)|].
    split; [by destruct (upload_ok _ _ _ _)|].
    split; [by destruct (upload_ok _ _ _ _)|].
    split; [by destruct (upload_ok _ _ _ _)|].
    eapply (rows_related_trans _); [|exact Hrel].
    cbn [db with_db]. destruct (upload_ok _ _ _ _); cbn [images].
    + apply rows_related_fmap. intros x. destruct (decide _); [|done].
      apply upload_evolves_set_uploaded.
    + apply (rows_related_alter _). apply upload_evolves_set_corrupted.
Qed.

(** The upload loop over a batch of rows that still need an upload. *)
Lemma sync_images_loop srv l : ∀ w,
  store_ok (db w) → NoDup l.*1 →
  (∀ id r, (id, r) ∈ l →
     images (db w) !! id = Some r ∧ uploaded r = false ∧ corrupted r = false) →
  store_ok (db (for_each l (sync_image srv) w).1) ∧
  (∀ id, id ∉ (l.*1) →
     images (db (for_each l (sync_image srv) w).1) !! id = images (db w) !! id) ∧
  (∀ id r, (id, r) ∈ l →
     images (db (for_each l (sync_image srv) w).1) !! id =
       Some (if upload_ok srv (Config.device_id (config (self w))) (fs w) r
             then set_uploaded r else set_corrupted r)).
Proof.
  induction l as [|[id0 r0] l IH]; intros w Hok Hnd Hrows.
  - simpl. split; [done|]. split; [done|]. intros ? ? Hin. by apply elem_of_nil in Hin.
  - simpl in Hnd. apply NoDup_cons in Hnd as [Hid0 Hnd].
    destruct (Hrows id0 r0) as (Hr0 & Hu0 & Hc0); [by left|].
    rewrite (for_each_cons_inr _ _ _ _ _ (sync_image_spec srv id0 r0 w)).
    set (g := if upload_ok srv (Config.device_id (config (self w))) (fs w) r0
              then set_uploaded else set_corrupted).
    assert (Hdb : (if upload_ok srv (Config.device_id (config (self w))) (fs w) r0
                   then mark_image_uploaded (db w) (event_local_id r0) (image_index r0)
                   else mark_image_corrupted (db w) id0)
                  = with_images (db w) (alter g id0 (images (db w)))).
    { subst g. destruct (upload_ok _ _ _ _); [|done].
      unfold mark_image_uploaded. f_equal.
      apply fmap_by_key_alter; [by destruct Hok|done]. }
    rewrite Hdb. set (w1 := with_db w _).
    assert (Hok1 : store_ok (db w1)).
    { subst w1 g. cbn [db with_db]. apply (store_ok_alter _ _ _ r0); [done..| |].
      - by destruct (upload_ok _ _ _ _).
      - destruct (upload_ok _ _ _ _); simpl; [by rewrite Hc0|by rewrite Hu0]. }
    assert (Hrows1 : ∀ id r, (id, r) ∈ l →
              images (db w1) !! id = Some r ∧ uploaded r = false ∧ corrupted r = false).
    { intros id r Hin. destruct (Hrows id r) as (Hr & Hu & Hc); [by right|].
      split; [|done]. subst w1. cbn [db with_db images with_images].
      rewrite list_lookup_alter_ne; [done|].
      intros ->. apply Hid0. apply list_elem_of_fmap. by exists (id, r). }
    destruct (IH w1 Hok1 Hnd Hrows1) as (Hok' & Hother & Hbatch).
    split; [done|]. split.
    + intros id [Hne Hnot]%not_elem_of_cons. rewrite (Hother id Hnot).
      subst w1. cbn [db with_db images with_images].
      by rewrite list_lookup_alter_ne.
    + intros id r [Heq|Hin]%elem_of_cons.
      * simplify_eq. rewrite (Hother id0 Hid0). subst w1.
        cbn [db with_db images with_images].
        rewrite list_lookup_alter_eq, Hr0. subst g. simpl.
        by destruct (upload_ok _ _ _ _).
      * by rewrite (Hbatch id r Hin).
Qed.

Lemma unsynced_images_sound d limit id r :
  (id, r) ∈ get_unsynced_images d limit → images d !! id = Some r ∧ needs_upload r.
Proof.
  unfold get_unsynced_images. intros Hin%subseteq_take.
  apply list_elem_of_filter in Hin as [Hn Hs]. by apply elem_of_stored in Hs.
Qed.

Lemma NoDup_unsynced_images d limit : NoDup (get_unsynced_images d limit).*1.
Proof.
  unfold get_unsynced_images.
  eapply sublist_NoDup; [|apply fmap_sublist, sublist_take].
  eapply sublist_NoDup; [|apply fmap_sublist, sublist_filter].
  apply NoDup_stored_ids.
Qed.

Lemma sync_events_ok srv w : (sync_events srv w).2 = inr tt.
Proof.
  rewrite sync_events_spec. cbv zeta.
  destruct (get_unsynced_events _ _); [done|]. by destruct (Client.upload_metadata _).
Qed.

Lemma sync_readings_ok srv w : (sync_readings srv w).2 = inr tt.
Proof.
  rewrite sync_readings_spec. cbv zeta.
  destruct (get_sensor_readings _ _ _); [done|]. by destruct (Client.upload_metadata _).
Qed.

Lemma sync_once_spec srv w :
  sync_once srv w =
    sync_images srv (sync_readings srv (sync_events srv w).1).1.
Proof.
  unfold sync_once.
  rewrite (bind_inr _ _ w (sync_events srv w).1 tt).
  - rewrite (bind_inr _ _ _ (sync_readings srv (sync_events srv w).1).1 tt); [done|].
    pose proof (sync_readings_ok srv (sync_events srv w).1).
    destruct (sync_readings _ _) as [? ?]. simpl in *. by subst.
  - pose proof (sync_events_ok srv w).
    destruct (sync_events _ _) as [? ?]. simpl in *. by subst.
Qed.

Lemma sync_images_unfold srv w :
  sync_images srv w = for_each (get_unsynced_images (db w) 3) (sync_image srv) w.
Proof. reflexivity. Qed.
End sync_images_facts.

Section tick_effects.
Context `{Runtime}.

(** *** Cleanup *)
Lemma cleanup_tick_effect now w :
  let w' := step w (CleanupTick now) in
  self w' = self w ∧ locked (fs w') = locked (fs w) ∧
  crates (db w') = crates (db w) ∧ events (db w') = events (db w) ∧
  readings (db w') = readings (db w) ∧ state (db w') = state (db w) ∧
  (∀ id, images (db w') !! id = images (db w) !! id ∨
         ∃ r, images (db w) !! id = Some r ∧
              images (db w') !! id = Some (set_deleted r)).
Proof.
  simpl. unfold iteration.
  destruct (get_state_value (db w) Client.watermark_key) as [s|] eqn:Hk.
  - destruct (py_int s) as [safe|] eqn:Hp.
    + rewrite (cleanup_once_present _ _ _ _ Hk Hp).
      set (l := get_cleanup_candidates _ _ _ _ _).
      assert (Hrows : ∀ id r, (id, r) ∈ l → images (db w) !! id = Some r).
      { intros id r Hin. by apply candidates_sound in Hin as [? _]. }
      destruct (cleanup_loop_spec l w (NoDup_candidates _ _ _ _ _) Hrows _ eq_refl)
        as (_ & Hs & Hl & Hc & He & Hr & Hst & Hother & _ & Hcand).
      do 6 (split; [done|]). intros id.
      destruct (decide (id ∈ l.*1)) as [Hin|Hnot]; [|left; by apply Hother].
      apply list_elem_of_fmap in Hin as ([id' r] & -> & Hin). simpl.
      destruct (Hcand id' r Hin) as [Hstuck Hfree].
      destruct (decide (stuck (fs w) (local_path r))) as [Hst'|Hst'].
      * left. destruct (Hstuck Hst') as [-> _]. symmetry. by apply Hrows.
      * right. exists r. split; [by apply Hrows|]. by destruct (Hfree Hst').
    + rewrite (cleanup_once_unreadable _ _ _ Hk Hp). simpl.
      do 6 (split; [done|]). by left.
  - rewrite (cleanup_once_absent _ _ Hk). simpl. do 6 (split; [done|]). by left.
Qed.

(** *** Heartbeat *)
Lemma heartbeat_tick_effect srv w :
  let w' := step w (HeartbeatTick srv) in
  self w' = self w ∧ fs w' = fs w ∧
  crates (db w') = crates (db w) ∧ events (db w') = events (db w) ∧
  readings (db w') = readings (db w) ∧ images (db w') = images (db w).
Proof.
  simpl. unfold iteration. rewrite heartbeat_once_spec.
  by destruct (Client.send_heartbeat _).
Qed.

(** *** Sync *)
Lemma sync_events_effect srv w :
  let w' := (sync_events srv w).1 in
  self w' = self w ∧ fs w' = fs w ∧
  crates (db w') = crates (db w) ∧ readings (db w') = readings (db w) ∧
  state (db w') = state (db w) ∧
  (db w' = db w ∨
   db w' = mark_events (event_id <$> get_unsynced_events (db w) 5) (db w)).
Proof.
  rewrite sync_events_spec. cbv zeta.
  destruct (get_unsynced_events (db w) 5) as [|e rest]; [by repeat split; try left|].
  destruct (Client.upload_metadata _).
  - simpl. do 5 (split; [done|]). by right.
  - simpl. do 5 (split; [done|]). by left.
Qed.

Lemma sync_readings_effect srv w :
  let w' := (sync_readings srv w).1 in
  self w' = self w ∧ fs w' = fs w ∧
  crates (db w') = crates (db w) ∧ events (db w') = events (db w) ∧
  images (db w') = images (db w) ∧ state (db w') = state (db w) ∧
  (readings (db w') = readings (db w) ∨
   db w' = mark_readings (reading_id <$> get_sensor_readings (db w) false 10) (db w)).
Proof.
  rewrite sync_readings_spec. cbv zeta.
  destruct (get_sensor_readings (db w) false 10) as [|e rest];
    [by repeat split; try left|].
  destruct (Client.upload_metadata _).
  - simpl. do 6 (split; [done|]). by right.
  - simpl. do 6 (split; [done|]). by left.
Qed.

Lemma mark_events_images_related ids d :
  rows_related (λ r r', r' = r ∨ r' = set_metadata_uploaded r)
    (images d) (images (mark_events ids d)).
Proof.
  intros id r Hr. simpl. rewrite list_lookup_fmap, Hr. simpl.
  eexists. split; [done|]. destruct (decide _); auto.
Qed.

Lemma sync_tick_effect srv w :
  let w' := step w (SyncTick srv) in
  self w' = self w ∧ fs w' = fs w ∧
  crates (db w') = crates (db w) ∧ state (db w') = state (db w) ∧
  event_id <$> events (db w') = event_id <$> events (db w) ∧
  reading_id <$> readings (db w') = reading_id <$> readings (db w) ∧
  rows_evolve (images (db w)) (images (db w')) ∧
  (store_ok (db w) → store_ok (db w')).
Proof.
  simpl. unfold iteration. rewrite sync_once_spec, sync_images_unfold.
  destruct (sync_events_effect srv w) as (Hs1 & Hf1 & Hc1 & Hr1 & Hst1 & Hdb1).
  set (w1 := (sync_events srv w).1) in *.
  destruct (sync_readings_effect srv w1) as (Hs2 & Hf2 & Hc2 & He2 & Hi2 & Hst2 & Hdb2).
  set (w2 := (sync_readings srv w1).1) in *.
  destruct (sync_images_frame srv (get_unsynced_images (db w2) 3) w2)
    as (_ & Hs3 & Hf3 & Hc3 & He3 & Hr3 & Hst3 & Hrel3).
  rewrite Hs3, Hf3, Hc3, He3, Hr3, Hst3.
  split; [congruence|]. split; [congruence|]. split; [congruence|].
  split; [congruence|].
  assert (He1 : event_id <$> events (db w1) = event_id <$> events (db w)).
  { destruct Hdb1 as [->| ->]; [done|]. simpl. rewrite <- list_fmap_compose.
    apply list_fmap_ext. intros ? e _. simpl. by destruct (decide _). }
  assert (Hrd2 : reading_id <$> readings (db w2) = reading_id <$> readings (db w1)).
  { destruct Hdb2 as [->| ->]; [done|]. simpl. rewrite <- list_fmap_compose.
    apply list_fmap_ext. intros ? e _. simpl. by destruct (decide _). }
  assert (Hrel1 : rows_related (λ r r', r' = r ∨ r' = set_metadata_uploaded r)
                    (images (db w)) (images (db w1))).
  { destruct Hdb1 as [->| ->]; [|apply mark_events_images_related].
    intros id r Hr. eauto. }
  split; [by rewrite He2|]. split; [by rewrite Hrd2, Hr1|]. split.
  - eapply (rows_related_trans _); [|eapply rows_related_mono; [|exact Hrel3]].
    + rewrite Hi2. eapply rows_related_mono; [|exact Hrel1].
      intros r r' [->| ->]; [done|apply row_evolves_set_metadata].
    + apply upload_evolves_row.
  - intros Hok.
    assert (Hok1 : store_ok (db w1)).
    { apply (store_ok_pointwise (db w)); [done|]. intros id.
      destruct (images (db w) !! id) as [r|] eqn:Hr.
      - destruct (Hrel1 id r Hr) as (r' & -> & [->| ->]); by constructor.
      - destruct Hdb1 as [->| ->]; [by rewrite Hr; constructor|]. simpl.
        rewrite list_lookup_fmap, Hr. constructor. }
    assert (Hok2 : store_ok (db w2)) by (by apply (store_ok_same_images (db w1))).
    apply sync_images_loop; [done|apply NoDup_unsynced_images|].
    intros id r Hin. apply unsynced_images_sound in Hin as [Hr (_ & Hu & Hc)]. done.
Qed.

(** *** Capture *)
Lemma capture_tick_store_ok env w :
  store_ok (db w) → store_ok (db (step w (CaptureTick env))).
Proof.
  intros [Hnd Hrow]. simpl. unfold iteration.
  destruct (capture_once_effect env w)
    as (_ & _ & _ & _ & _ & _ & _ & _ & _ & _ & _ & (new & Him & Hnd' & Hnew) & _).
  split; [by apply Hnd'|]. rewrite Him. intros r [Hin|Hin]%elem_of_app.
  - by apply Hrow.
  - destruct Hnew as [->|(imgs & k & _ & _ & ->)]; [by apply elem_of_nil in Hin|].
    apply list_elem_of_fmap in Hin as (img & -> & _). done.
Qed.

Lemma capture_tick_rows env w :
  rows_evolve (images (db w)) (images (db (step w (CaptureTick env)))).
Proof.
  simpl. unfold iteration.
  destruct (capture_once_effect env w)
    as (_ & _ & _ & _ & _ & _ & _ & _ & _ & _ & _ & (new & -> & _) & _).
  apply (rows_related_app _).
Qed.

(** *** Restart *)
Lemma restart_effect boot w :
  let w' := restart boot w in
  fs w' = fs w ∧ events (db w') = events (db w) ∧
  readings (db w') = readings (db w) ∧ images (db w') = images (db w) ∧
  state (db w') = state (db w) ∧
  (w' = w ∨
   (_event_counter (self w') = _get_max_id (db w) capture_events_local ∧
    _reading_counter (self w') = _get_max_id (db w) sensor_readings_local ∧
    config (self w') = config (self w))).
Proof.
  unfold restart, startup, _ensure_crate.
  destruct (Config.crate (config (self w))) as [c|]; [|by repeat split; try left].
  destruct (Config.id c), (Config.label c), (Config.started_at c);
    try (by repeat split; try left).
  unfold insert_crate. destruct (decide _);
    (destruct (_init_camera _); [by repeat split; try left|]);
    simpl; do 5 (split; [done|]); right; done.
Qed.

(** *** Any tick *)
Lemma step_rows_evolve t w : rows_evolve (images (db w)) (images (db (step w t))).
Proof.
  destruct t as [env|srv|srv|now|boot].
  - apply capture_tick_rows.
  - destruct (heartbeat_tick_effect srv w) as (_ & _ & _ & _ & _ & ->).
    apply (rows_related_refl _).
  - by destruct (sync_tick_effect srv w) as (_ & _ & _ & _ & _ & _ & ? & _).
  - destruct (cleanup_tick_effect now w) as (_ & _ & _ & _ & _ & _ & Hpt).
    intros id r Hr. destruct (Hpt id) as [Heq|(r0 & Hr0 & Hr')].
    + exists r. by rewrite Heq.
    + exists (set_deleted r0). split; [done|]. rewrite Hr in Hr0. simplify_eq.
      apply row_evolves_set_deleted.
  - destruct (restart_effect boot w) as (_ & _ & _ & Hi & _). simpl. rewrite Hi.
    apply (rows_related_refl _).
Qed.

Lemma step_store_ok t w : store_ok (db w) → store_ok (db (step w t)).
Proof.
  intros Hok. destruct t as [env|srv|srv|now|boot].
  - by apply capture_tick_store_ok.
  - destruct (heartbeat_tick_effect srv w) as (_ & _ & _ & _ & _ & Hi).
    by apply (store_ok_same_images (db w)).
  - destruct (sync_tick_effect srv w) as (_ & _ & _ & _ & _ & _ & _ & Hs). by apply Hs.
  - destruct (cleanup_tick_effect now w) as (_ & _ & _ & _ & _ & _ & Hpt).
    apply (store_ok_pointwise (db w)); [done|]. intros id.
    destruct (Hpt id) as [->|(r0 & -> & ->)].
    + destruct (images (db w) !! id); by constructor.
    + by constructor.
  - destruct (restart_effect boot w) as (_ & _ & _ & Hi & _).
    by apply (store_ok_same_images (db w)).
Qed.

Lemma run_snoc ticks t w : run (ticks ++ [t]) w = step (run ticks w) t.
Proof. unfold run. by rewrite foldl_app. Qed.

Lemma run_cons t ticks w : run (t :: ticks) w = run ticks (step w t).
Proof. reflexivity. Qed.

Lemma run_rows_evolve ticks : ∀ w,
  rows_evolve (images (db w)) (images (db (run ticks w))).
Proof.
  induction ticks as [|t ticks IH]; intros w; [apply (rows_related_refl _)|].
  rewrite run_cons. eapply (rows_related_trans _); [apply step_rows_evolve|apply IH].
Qed.

Lemma run_store_ok ticks : ∀ w, store_ok (db w) → store_ok (db (run ticks w)).
Proof.
  induction ticks as [|t ticks IH]; intros w Hok; [done|].
  rewrite run_cons. by apply IH, step_store_ok.
Qed.

Lemma store_ok_empty : store_ok Store.empty.
Proof. split; [constructor|]. intros r Hin. by apply elem_of_nil in Hin. Qed.
End tick_effects.

Section upload_state_theorems.
Context `{Runtime}.

Lemma upload_metadata_accepted o : accepted o → Client.upload_metadata o = true.
Proof.
  intros (status & body & -> & Hst). unfold Client.upload_metadata. simpl.
  by rewrite decide_False.
Qed.

Lemma upload_metadata_failed o :
  o = Client.Unreachable ∨ rejected o → Client.upload_metadata o = false.
Proof.
  intros [->|(status & body & -> & Hst)]; unfold Client.upload_metadata; simpl; [done|].
  by rewrite decide_True.
Qed.

(** C2. In every store that the agent builds from one without image rows,
    by any sequence of ticks of the four loops and restarts, a row whose
    [corrupted] flag is set has [uploaded = 0]; and after any further
    sequence of ticks the row is still there with [corrupted = 1] and
    [uploaded = 0], and the binary-sync query does not select it, whatever
    its limit. *)
Theorem corrupted_is_terminal (ticks1 ticks2 : list Tick) (w0 : World)
    (id : nat) (r : CapturedImageRecord) :
  images (db w0) = [] →
  images (db (run ticks1 w0)) !! id = Some r →
  corrupted r = true →
  uploaded r = false ∧
  ∃ r', images (db (run ticks2 (run ticks1 w0))) !! id = Some r' ∧
        corrupted r' = true ∧ uploaded r' = false ∧
        ∀ limit x, (id, x) ∉ get_unsynced_images (db (run ticks2 (run ticks1 w0))) limit.
Proof.
  intros Hempty Hr Hc.
  assert (Hok : store_ok (db (run ticks1 w0))).
  { apply run_store_ok. by apply (store_ok_same_images Store.empty), store_ok_empty. }
  pose proof (run_store_ok ticks2 _ Hok) as Hok'.
  split.
  - destruct Hok as [_ Hrow]. apply Hrow; [|done]. apply list_elem_of_lookup. eauto.
  - destruct (run_rows_evolve ticks2 (run ticks1 w0) id r Hr)
      as (r' & Hr' & m & u & l & c & -> & Hsticky).
    exists (set_flags r m u l c). split; [done|].
    assert (Hc' : corrupted (set_flags r m u l c) = true) by (simpl; by apply Hsticky).
    split; [done|]. split.
    + destruct Hok' as [_ Hrow]. apply Hrow; [|done]. apply list_elem_of_lookup. eauto.
    + intros limit x Hin. apply unsynced_images_sound in Hin as [Hx (_ & _ & Hcx)].
      rewrite Hr' in Hx. simplify_eq. simpl in Hcx. rewrite Hsticky in Hcx; done.
Qed.

(** C3, as the code has it. In the binary-upload sub-step every selected
    image gets exactly one attempt. If the attempt goes through (the file
    is read and the server answers without an error status) the row is
    marked uploaded. If it fails in any way, the file cannot be read, the
    PUT raises (a network failure), or the server answers with an error
    status, the row is marked corrupted, its other flags unchanged; no
    kind of failure leaves the flags as they were. *)
Theorem upload_failure_marks_corrupted (srv : Server) (w : World)
    (id : nat) (r : CapturedImageRecord) :
  store_ok (db w) →
  (id, r) ∈ get_unsynced_images (db w) 3 →
  let w' := (sync_images srv w).1 in
  let reply := image_reply srv (Config.device_id (config (self w)))
                 (event_local_id r) (image_index r) (sha256_hex r) in
  images (db w) !! id = Some r ∧
  (∀ data, files (fs w) !! local_path r = Some data → accepted (reply data) →
     images (db w') !! id = Some (set_uploaded r)) ∧
  (files (fs w) !! local_path r = None →
     images (db w') !! id = Some (set_corrupted r)) ∧
  (∀ data, files (fs w) !! local_path r = Some data →
     reply data = Client.Unreachable ∨ rejected (reply data) →
     images (db w') !! id = Some (set_corrupted r)).
Proof.
  intros Hok Hin w' reply. subst w'. rewrite sync_images_unfold.
  destruct (sync_images_loop srv (get_unsynced_images (db w) 3) w Hok
              (NoDup_unsynced_images _ _)) as (_ & _ & Hbatch).
  { intros id' r' Hin'. apply unsynced_images_sound in Hin' as [? (_ & ? & ?)]. done. }
  rewrite (Hbatch id r Hin). unfold upload_ok, Client.upload_image. fold reply.
  split; [by apply unsynced_images_sound in Hin as [? _]|]. split; [|split].
  - intros data -> Hacc. apply upload_metadata_accepted in Hacc.
    unfold Client.upload_metadata in Hacc. by destruct (Client.raise_for_status _).
  - by intros ->.
  - intros data -> Hfail. apply upload_metadata_failed in Hfail.
    unfold Client.upload_metadata in Hfail. by destruct (Client.raise_for_status _).
Qed.
End upload_state_theorems.

Section metadata_batch_theorem.
Context `{Runtime}.

(** After the metadata sub-step, the rest of the sync tick leaves the
    events table and every [metadata_uploaded] flag alone. *)
Lemma sync_tick_after_events srv w :
  let w1 := (sync_events srv w).1 in
  let w' := step w (SyncTick srv) in
  events (db w') = events (db w1) ∧
  rows_related upload_evolves (images (db w1)) (images (db w')).
Proof.
  simpl. unfold iteration. rewrite sync_once_spec, sync_images_unfold.
  set (w1 := (sync_events srv w).1).
  destruct (sync_readings_effect srv w1) as (_ & _ & _ & He2 & Hi2 & _).
  set (w2 := (sync_readings srv w1).1) in *.
  destruct (sync_images_frame srv (get_unsynced_images (db w2) 3) w2)
    as (_ & _ & _ & _ & He3 & _ & _ & Hrel3).
  split; [congruence|]. by rewrite <- Hi2.
Qed.

(** C4. The metadata sub-step of a sync tick submits the batch of unsynced
    events in one call. If the call is accepted, every event of the batch
    has its [uploaded] flag set and every image of every event of the batch
    has its [metadata_uploaded] flag set, in that one step, and both still
    hold at the end of the tick. If the call fails (it raises, or the
    server answers with an error status), the sub-step changes nothing at
    all; at the end of the tick the events table and every
    [metadata_uploaded] flag are as before, and the next tick selects the
    same batch. *)
Theorem metadata_batch_all_or_nothing (srv : Server) (w : World) :
  let batch := get_unsynced_events (db w) 5 in
  let reply := metadata_reply srv
                 (event_meta (Config.device_id (config (self w))) (db w) <$> batch) in
  let w1 := (sync_events srv w).1 in
  let w' := step w (SyncTick srv) in
  (accepted reply →
     db w1 = mark_events (event_id <$> batch) (db w) ∧
     (∀ e, e ∈ batch →
        set_event_uploaded e ∈ events (db w') ∧
        ∀ e', e' ∈ events (db w') → event_id e' = event_id e →
              ev_uploaded e' = true) ∧
     (∀ e id r, e ∈ batch → images (db w) !! id = Some r →
        event_local_id r = event_id e →
        ∃ r', images (db w') !! id = Some r' ∧ metadata_uploaded r' = true)) ∧
  (reply = Client.Unreachable ∨ rejected reply →
     w1 = w ∧ events (db w') = events (db w) ∧
     (∀ id r, images (db w) !! id = Some r →
        ∃ r', images (db w') !! id = Some r' ∧
              metadata_uploaded r' = metadata_uploaded r) ∧
     get_unsynced_events (db w') 5 = batch).
Proof.
  intros batch reply w1 w'.
  destruct (sync_tick_after_events srv w) as [Hev Hrel].
  fold w1 in Hev, Hrel. fold w' in Hev, Hrel.
  assert (Hspec := sync_events_spec srv w). cbv zeta in Hspec.
  fold batch in Hspec. fold reply in Hspec.
  split.
  - intros Hacc. rewrite (upload_metadata_accepted _ Hacc) in Hspec.
    assert (Hdb : db w1 = mark_events (event_id <$> batch) (db w)).
    { subst w1. rewrite Hspec. destruct batch; [|done].
      simpl. by rewrite mark_events_nil. }
    split; [done|]. split.
    + intros e He. rewrite Hev, Hdb. simpl. split.
      * apply list_elem_of_fmap. exists e. split.
        2:{ apply subseteq_take in He. by apply list_elem_of_filter in He as [_ ?]. }
        rewrite decide_True; [done|]. apply list_elem_of_fmap. eauto.
      * intros e' (x & -> & Hx)%list_elem_of_fmap Heq.
        destruct (decide _) as [?|Hnot]; [done|]. destruct Hnot.
        rewrite Heq. apply list_elem_of_fmap. eauto.
    + intros e id r He Hr Hre.
      assert (Hr1 : images (db w1) !! id = Some (set_metadata_uploaded r)).
      { rewrite Hdb. simpl. rewrite list_lookup_fmap, Hr. simpl.
        rewrite decide_True; [done|]. rewrite Hre. apply list_elem_of_fmap. eauto. }
      destruct (Hrel id _ Hr1) as (r' & Hr' & u & c & -> & _).
      eexists. split; [done|]. done.
  - intros Hfail. rewrite (upload_metadata_failed _ Hfail) in Hspec.
    assert (Hw1 : w1 = w).
    { subst w1. rewrite Hspec. by destruct batch. }
    rewrite Hw1 in Hev, Hrel. split; [done|]. split; [done|]. split.
    + intros id r Hr. destruct (Hrel id r Hr) as (r' & Hr' & u & c & -> & _).
      eexists. split; [done|]. done.
    + unfold batch, get_unsynced_events. by rewrite Hev.
Qed.
End metadata_batch_theorem.

Section identifier_theorems.
Context `{Runtime}.

Lemma foldl_max_spec rest : ∀ x,
  foldl Z.max x rest ∈ x :: rest ∧ Forall (λ i, i ≤ foldl Z.max x rest) (x :: rest).
Proof.
  induction rest as [|y rest IH]; intros x.
  - simpl. split; [by left|]. by repeat constructor.
  - simpl. destruct (IH (Z.max x y)) as [Hin Hall].
    apply Forall_cons in Hall as [Hm Hall]. split.
    + apply elem_of_cons in Hin as [->|Hin]; [|by right; right].
      destruct (Z.max_spec x y) as [[_ ->]|[_ ->]]; [right; left|left].
    + constructor; [lia|]. constructor; [lia|done].
Qed.

Lemma get_max_id_ge d t : Forall (λ i, i ≤ _get_max_id d t) (column d t).
Proof.
  unfold _get_max_id, sql_max. destruct (column d t) as [|x rest]; [constructor|].
  apply foldl_max_spec.
Qed.

Lemma get_max_id_empty d t : column d t = [] → _get_max_id d t = 0.
Proof. unfold _get_max_id. by intros ->. Qed.

Lemma get_max_id_stored d t :
  column d t ≠ [] → _get_max_id d t ∈ column d t.
Proof.
  unfold _get_max_id, sql_max. destruct (column d t) as [|x rest]; [done|].
  intros _. apply foldl_max_spec.
Qed.

Lemma StronglySorted_snoc (l : list Z) x :
  StronglySorted Z.lt l → Forall (λ i, i < x) l → StronglySorted Z.lt (l ++ [x]).
Proof.
  induction 1 as [|y l Hs IH Hy]; intros Hall; simpl.
  - repeat constructor.
  - apply Forall_cons in Hall as [Hyx Hall]. constructor; [by apply IH|].
    apply Forall_app. split; [done|]. by constructor.
Qed.

Lemma capture_tick_ids_ok env w : ids_ok w → ids_ok (step w (CaptureTick env)).
Proof.
  intros (He & Hec & Hr & Hrc).
  destruct (capture_once_effect env w)
    as (_ & _ & _ & Hsen & Hec' & Hrc' & _ & _ & _ & Hev & Hrd & _).
  unfold ids_ok. change (step w (CaptureTick env)) with (capture_once env w).1.
  rewrite Hec', Hrc'.
  assert (Hrcle : _reading_counter (self w) ≤
            match sensor (self w) with
            | Some _ => _reading_counter (self w) + 1
            | None => _reading_counter (self w)
            end) by (destruct (sensor (self w)); lia).
  split; [|split; [|split]].
  - destruct Hev as [->|(imgs & _ & ->)]; [done|]. rewrite fmap_app. simpl.
    apply StronglySorted_snoc; [done|]. eapply Forall_impl; [exact Hec|].
    simpl. intros; lia.
  - destruct Hev as [->|(imgs & _ & ->)].
    + eapply Forall_impl; [exact Hec|]. simpl. intros; lia.
    + rewrite fmap_app. apply Forall_app. split.
      * eapply Forall_impl; [exact Hec|]. simpl. intros; lia.
      * simpl. constructor; [lia|constructor].
  - destruct Hrd as [->|(reading & Hid & _ & _ & ->)]; [done|].
    rewrite fmap_app. simpl. rewrite Hid.
    apply StronglySorted_snoc; [done|]. eapply Forall_impl; [exact Hrc|].
    simpl. intros; lia.
  - destruct Hrd as [->|(reading & Hid & [s Hs] & _ & ->)].
    + eapply Forall_impl; [exact Hrc|]. simpl. intros; lia.
    + rewrite Hs. rewrite fmap_app. apply Forall_app. split.
      * eapply Forall_impl; [exact Hrc|]. simpl. intros; lia.
      * simpl. rewrite Hid. constructor; [lia|constructor].
Qed.

Lemma restart_ids_ok boot w : ids_ok w → ids_ok (restart boot w).
Proof.
  intros (He & Hec & Hr & Hrc).
  destruct (restart_effect boot w) as (_ & Hev & Hrd & _ & _ & [->|(Hec' & Hrc' & _)]);
    [done|].
  unfold ids_ok. rewrite Hev, Hrd, Hec', Hrc'.
  split; [done|]. split; [apply (get_max_id_ge _ capture_events_local)|].
  split; [done|]. apply (get_max_id_ge _ sensor_readings_local).
Qed.

(** The ticks of the other three loops leave the process and the stored
    identifiers alone. *)
Lemma quiet_tick_ids t w :
  match t with CaptureTick _ | Restart _ => False | _ => True end →
  self (step w t) = self w ∧
  event_id <$> events (db (step w t)) = event_id <$> events (db w) ∧
  reading_id <$> readings (db (step w t)) = reading_id <$> readings (db w).
Proof.
  destruct t as [env|srv|srv|now|boot]; try done; intros _.
  - destruct (heartbeat_tick_effect srv w) as (Hs & _ & _ & He & Hr & _).
    by rewrite Hs, He, Hr.
  - by destruct (sync_tick_effect srv w) as (Hs & _ & _ & _ & He & Hr & _).
  - destruct (cleanup_tick_effect now w) as (Hs & _ & _ & He & Hr & _).
    by rewrite Hs, He, Hr.
Qed.

Lemma step_ids_ok t w : ids_ok w → ids_ok (step w t).
Proof.
  intros Hok. destruct t as [env|srv|srv|now|boot] eqn:Ht.
  - by apply capture_tick_ids_ok.
  - destruct (quiet_tick_ids (HeartbeatTick srv) w I) as (Hs & He & Hr).
    unfold ids_ok. by rewrite Hs, He, Hr.
  - destruct (quiet_tick_ids (SyncTick srv) w I) as (Hs & He & Hr).
    unfold ids_ok. by rewrite Hs, He, Hr.
  - destruct (quiet_tick_ids (CleanupTick now) w I) as (Hs & He & Hr).
    unfold ids_ok. by rewrite Hs, He, Hr.
  - by apply restart_ids_ok.
Qed.

Lemma run_ids_ok ticks : ∀ w, ids_ok w → ids_ok (run ticks w).
Proof.
  induction ticks as [|t ticks IH]; intros w Hok; [done|].
  rewrite run_cons. by apply IH, step_ids_ok.
Qed.

(** Within one run of the process the counters only go up, by one at each
    allocation. *)
Lemma allocated_events_sorted ticks : ∀ w,
  Forall (λ t, ¬ is_restart t) ticks →
  _event_counter (self w) ≤ _event_counter (self (run ticks w)) ∧
  Forall (λ i, _event_counter (self w) < i) (allocated_events ticks w) ∧
  StronglySorted Z.lt (allocated_events ticks w).
Proof.
  induction ticks as [|t ticks IH]; intros w Hno.
  - simpl. split; [done|]. split; constructor.
  - apply Forall_cons in Hno as [Ht Hno]. rewrite run_cons.
    destruct (IH (step w t) Hno) as (Hle & Hgt & Hs).
    destruct t as [env|srv|srv|now|boot]; [| | | |by destruct Ht].
    + cbn [allocated_events].
      destruct (capture_once_effect env w) as (_ & _ & _ & _ & Hec & _).
      assert (Hec' : _event_counter (self (step w (CaptureTick env)))
                     = _event_counter (self w) + 1) by exact Hec.
      rewrite Hec' in *. split; [lia|]. split.
      * constructor; [lia|]. eapply Forall_impl; [exact Hgt|]. simpl. intros; lia.
      * constructor; [done|done].
    + cbn [allocated_events].
      destruct (quiet_tick_ids (HeartbeatTick srv) w I) as (Hself & _).
      rewrite Hself in *. done.
    + cbn [allocated_events].
      destruct (quiet_tick_ids (SyncTick srv) w I) as (Hself & _).
      rewrite Hself in *. done.
    + cbn [allocated_events].
      destruct (quiet_tick_ids (CleanupTick now) w I) as (Hself & _).
      rewrite Hself in *. done.
Qed.
End identifier_theorems.

Section identifier_theorems_2.
Context `{Runtime}.

Lemma allocated_readings_sorted ticks : ∀ w,
  Forall (λ t, ¬ is_restart t) ticks →
  _reading_counter (self w) ≤ _reading_counter (self (run ticks w)) ∧
  Forall (λ i, _reading_counter (self w) < i) (allocated_readings ticks w) ∧
  StronglySorted Z.lt (allocated_readings ticks w).
Proof.
  induction ticks as [|t ticks IH]; intros w Hno.
  - simpl. split; [done|]. split; constructor.
  - apply Forall_cons in Hno as [Ht Hno]. rewrite run_cons.
    destruct (IH (step w t) Hno) as (Hle & Hgt & Hs).
    destruct t as [env|srv|srv|now|boot]; [| | | |by destruct Ht].
    + cbn [allocated_readings].
      destruct (capture_once_effect env w) as (_ & _ & _ & _ & _ & Hrc & _).
      assert (Hrc' : _reading_counter (self (step w (CaptureTick env))) =
                match sensor (self w) with
                | Some _ => _reading_counter (self w) + 1
                | None => _reading_counter (self w)
                end) by exact Hrc.
      rewrite Hrc' in *. destruct (sensor (self w)).
      * split; [lia|]. split.
        -- constructor; [lia|]. eapply Forall_impl; [exact Hgt|]. simpl. intros; lia.
        -- by constructor.
      * done.
    + cbn [allocated_readings].
      destruct (quiet_tick_ids (HeartbeatTick srv) w I) as (Hself & _).
      rewrite Hself in *. done.
    + cbn [allocated_readings].
      destruct (quiet_tick_ids (SyncTick srv) w I) as (Hself & _).
      rewrite Hself in *. done.
    + cbn [allocated_readings].
      destruct (quiet_tick_ids (CleanupTick now) w I) as (Hself & _).
      rewrite Hself in *. done.
Qed.

Lemma startup_counters c boot d f w1 :
  startup c boot d f = inr w1 →
  _event_counter (self w1) = _get_max_id d capture_events_local ∧
  _reading_counter (self w1) = _get_max_id d sensor_readings_local ∧
  events (db w1) = events d ∧ readings (db w1) = readings d.
Proof.
  unfold startup, _ensure_crate. destruct (Config.crate c) as [cr|]; [|done].
  destruct (Config.id cr), (Config.label cr), (Config.started_at cr); try done.
  unfold insert_crate. destruct (decide _); destruct (_init_camera c); try done;
    by intros [= <-].
Qed.

(** C5, as the code has it. Counters are seeded at start-up with the
    greatest stored identifier (0 for an empty table) and incremented
    before each use. So, within one run of the process, the identifiers
    allocated by successive capture ticks increase strictly and lie above
    the seed, failed ticks included: nothing is handed out twice and
    nothing is backfilled. Across restarts it is the stored identifiers
    that increase strictly along each table and are never reused, every
    counter staying at or above all of them. *)
Theorem identifiers_increase (ticks : list Tick) (w : World) :
  ids_ok w →
  ids_ok (run ticks w) ∧
  (Forall (λ t, ¬ is_restart t) ticks →
     StronglySorted Z.lt (allocated_events ticks w) ∧
     Forall (λ i, _event_counter (self w) < i) (allocated_events ticks w) ∧
     StronglySorted Z.lt (allocated_readings ticks w) ∧
     Forall (λ i, _reading_counter (self w) < i) (allocated_readings ticks w)) ∧
  (∀ boot w1,
     startup (config (self w)) boot (db w) (fs w) = inr w1 →
     _event_counter (self w1) = _get_max_id (db w) capture_events_local ∧
     _reading_counter (self w1) = _get_max_id (db w) sensor_readings_local ∧
     (events (db w) = [] → _event_counter (self w1) = 0) ∧
     (readings (db w) = [] → _reading_counter (self w1) = 0) ∧
     (events (db w) ≠ [] →
        _event_counter (self w1) ∈ event_id <$> events (db w)) ∧
     (readings (db w) ≠ [] →
        _reading_counter (self w1) ∈ reading_id <$> readings (db w)) ∧
     Forall (λ i, i ≤ _event_counter (self w1)) (event_id <$> events (db w)) ∧
     Forall (λ i, i ≤ _reading_counter (self w1)) (reading_id <$> readings (db w))).
Proof.
  intros Hok. split; [by apply run_ids_ok|]. split.
  - intros Hno.
    destruct (allocated_events_sorted ticks w Hno) as (_ & ? & ?).
    destruct (allocated_readings_sorted ticks w Hno) as (_ & ? & ?). done.
  - intros boot w1 Hstart.
    destruct (startup_counters _ _ _ _ _ Hstart) as (-> & -> & _ & _).
    split; [done|]. split; [done|]. split; [|split; [|split; [|split; [|split]]]].
    + intros He. apply get_max_id_empty. simpl. by rewrite He.
    + intros Hr. apply get_max_id_empty. simpl. by rewrite Hr.
    + intros He. apply (get_max_id_stored _ capture_events_local). simpl.
      by destruct (events (db w)).
    + intros Hr. apply (get_max_id_stored _ sensor_readings_local). simpl.
      by destruct (readings (db w)).
    + apply (get_max_id_ge _ capture_events_local).
    + apply (get_max_id_ge _ sensor_readings_local).
Qed.
End identifier_theorems_2.

Section camera_facts.
Context `{Runtime}.

Lemma mock_loop_spec cam sc eid dir idxs : ∀ acc f f' imgs,
  Camera.mock_loop cam sc eid dir idxs acc f = (f', inr imgs) →
  ∃ new, imgs = (acc ++ new)%list ∧ Camera.image_index <$> new = idxs ∧
         Forall (mock_artifact cam sc eid dir) new.
Proof.
  induction idxs as [|idx rest IH]; intros acc f f' imgs.
  - simpl. intros [= <- <-]. exists []. by rewrite app_nil_r.
  - simpl. rewrite mock_frame_spec. cbv zeta.
    destruct (Camera.jpeg sc idx) as [data|] eqn:Hj; [|done].
    intros Hloop. destruct (IH _ _ _ _ Hloop) as (new & -> & Hidx & Hall).
    eexists (_ :: new). split; [by rewrite <- app_assoc|]. split.
    + by rewrite fmap_cons, Hidx.
    + constructor; [|done]. exists data. by simpl.
Qed.

Lemma rpi_loop_spec cam sc eid dir idxs f : ∀ acc imgs,
  Camera.rpi_loop cam sc eid dir idxs acc f = inr imgs →
  ∃ new, imgs = (acc ++ new)%list ∧
    Forall (λ img, ∃ data, files f !! Camera.local_path img = Some data ∧
              Camera.size_bytes img = length data ∧
              Camera.sha256_hex img = sha256_hexdigest data) new.
Proof.
  induction idxs as [|idx rest IH]; intros acc imgs.
  - simpl. intros [= <-]. exists []. by rewrite app_nil_r.
  - simpl. unfold os_path_exists.
    destruct (files f !! path_join dir (Camera.image_filename eid idx))
      as [data|] eqn:Hf.
    + rewrite bool_decide_eq_true_2 by eauto.
      rewrite (compute_sha256_written _ _ _ Hf).
      unfold Camera.os_path_getsize. rewrite Hf.
      intros Hloop. destruct (IH _ _ Hloop) as (new & -> & Hall).
      eexists (_ :: new). split; [by rewrite <- app_assoc|].
      constructor; [|done]. exists data. by simpl.
    + rewrite bool_decide_eq_false_2 by (by intros [? ?]).
      intros Hloop. destruct (IH _ _ Hloop) as (new & -> & Hall). by exists new.
Qed.
End camera_facts.

Section checksum_facts.
Context `{Runtime}.

Lemma row_evolves_sha r r' : row_evolves r r' → sha256_hex r' = sha256_hex r.
Proof. by intros (m & u & l & c & -> & _). Qed.

End checksum_facts.

Section burst_theorem.
Context `{Runtime}.

(** C8. A capture tick that completes inserts one event row, whose
    [burst_size] is the number of artifacts the camera returned, and one
    image row per returned artifact, in order, after the rows that were
    there. With the mock camera the artifacts are one per requested index,
    so for a requested burst size of 2 the event row has [burst_size = 2]
    and exactly two image rows, with indices 0 and 1, are inserted. *)
Theorem burst_size_counts_returned_images (env : CaptureEnv) (w : World) :
  (capture_once env w).2 = inr tt →
  let w' := step w (CaptureTick env) in
  let eid := _event_counter (self w) + 1 in
  ∃ imgs ev,
    (dispatch_capture_burst (camera (self w)) (scene env) eid
       (Config.image_dir (config (self w)))
       (Config.burst_size (config (self w))) (fs w)).2 = inr imgs ∧
    events (db w') = (events (db w) ++ [ev])%list ∧
    event_id ev = eid ∧ ev_uploaded ev = false ∧
    burst_size ev = length imgs ∧
    images (db w') = (images (db w) ++ (image_record eid <$> imgs))%list ∧
    length (images (db w')) = (length (images (db w)) + length imgs)%nat ∧
    (∀ cam, camera (self w) = Mock cam →
       burst_size ev = Z.to_nat (Config.burst_size (config (self w))) ∧
       image_index <$> (image_record eid <$> imgs) =
         Z.of_nat <$> seq 0 (Z.to_nat (Config.burst_size (config (self w)))) ∧
       (Config.burst_size (config (self w)) = 2 →
          burst_size ev = 2%nat ∧
          image_index <$> (image_record eid <$> imgs) = [0; 1])).
Proof.
  intros Hdone w' eid.
  destruct (capture_once_effect env w)
    as (_ & _ & _ & _ & _ & _ & _ & _ & _ & _ & _ & _ & Hsucc).
  destruct (Hsucc Hdone) as (imgs & Hout & Hev & Him).
  exists imgs, (event_record w eid (crate_id (self w)) (utcnow env) imgs).
  split; [done|]. split; [done|]. split; [done|]. split; [done|]. split; [done|].
  split; [done|]. split.
  { subst w'. change (step w (CaptureTick env)) with (capture_once env w).1.
    rewrite Him, length_app, length_fmap. lia. }
  intros cam Hcam.
  assert (Hidx : Camera.image_index <$> imgs
                 = seq 0 (Z.to_nat (Config.burst_size (config (self w))))).
  { fold eid in Hout. rewrite Hcam in Hout. simpl in Hout.
    unfold Camera.mock_capture_burst in Hout.
    destruct (Camera.mock_loop _ _ _ _ _ _ _) as [f' res] eqn:Hloop.
    simpl in Hout. subst res.
    destruct (mock_loop_spec _ _ _ _ _ _ _ _ _ Hloop) as (new & Heq & Hi & _).
    simpl in Heq. by subst new. }
  assert (Hlen : length imgs = Z.to_nat (Config.burst_size (config (self w)))).
  { rewrite <- (length_fmap Camera.image_index), Hidx. apply length_seq. }
  assert (Hrows : image_index <$> (image_record eid <$> imgs)
            = Z.of_nat <$> seq 0 (Z.to_nat (Config.burst_size (config (self w))))).
  { rewrite <- Hidx, <- !list_fmap_compose. by apply list_fmap_ext. }
  split; [done|]. split; [done|].
  intros Htwo. rewrite Hrows. simpl. rewrite Hlen, Htwo. done.
Qed.
End burst_theorem.

Section partial_capture_theorem.
Context `{Runtime}.

(** In a run without restart, event rows are only added at the end of the
    table, with identifiers above the counter the run started with. *)
Lemma events_grow ticks : ∀ w,
  Forall (λ t, ¬ is_restart t) ticks →
  ∃ later, event_id <$> events (db (run ticks w))
           = ((event_id <$> events (db w)) ++ later)%list ∧
           Forall (λ i, _event_counter (self w) < i) later.
Proof.
  induction ticks as [|t ticks IH]; intros w Hno.
  - exists []. by rewrite app_nil_r.
  - apply Forall_cons in Hno as [Ht Hno]. rewrite run_cons.
    destruct (IH (step w t) Hno) as (later & Heq & Hall).
    destruct (allocated_events_sorted [t] w) as (Hle & _).
    { constructor; [done|constructor]. }
    change (run [t] w) with (step w t) in Hle.
    assert (Hall' : Forall (λ i, _event_counter (self w) < i) later).
    { eapply Forall_impl; [exact Hall|]. simpl. intros; lia. }
    destruct t as [env|srv|srv|now|boot]; [| | | |by destruct Ht].
    + destruct (capture_once_effect env w)
        as (_ & _ & _ & _ & Hec & _ & _ & _ & _ & Hev & _).
      change (capture_once env w).1 with (step w (CaptureTick env)) in Hev.
      destruct Hev as [Hev|(imgs & _ & Hev)]; rewrite Hev in Heq.
      * by exists later.
      * rewrite fmap_app, <- app_assoc in Heq. eexists. split; [exact Heq|].
        simpl. constructor; [lia|done].
    + destruct (quiet_tick_ids (HeartbeatTick srv) w I) as (_ & He & _).
      rewrite He in Heq. by exists later.
    + destruct (quiet_tick_ids (SyncTick srv) w I) as (_ & He & _).
      rewrite He in Heq. by exists later.
    + destruct (quiet_tick_ids (CleanupTick now) w I) as (_ & He & _).
      rewrite He in Heq. by exists later.
Qed.

(** The sensor sub-step of a sync tick, seen from the whole tick. *)
Lemma sync_tick_readings srv w :
  let batch := get_sensor_readings (db w) false 10 in
  let w' := step w (SyncTick srv) in
  accepted (metadata_reply srv
              (reading_meta (Config.device_id (config (self w))) <$> batch)) →
  ∀ r, r ∈ batch → set_reading_uploaded r ∈ readings (db w').
Proof.
  intros batch w' Hacc r Hr. subst w'. simpl. unfold iteration.
  rewrite sync_once_spec, sync_images_unfold.
  destruct (sync_events_effect srv w) as (Hs1 & _ & _ & Hr1 & _).
  set (w1 := (sync_events srv w).1) in *.
  assert (Hb : get_sensor_readings (db w1) false 10 = batch).
  { unfold batch, get_sensor_readings. by rewrite Hr1. }
  assert (Hspec := sync_readings_spec srv w1). cbv zeta in Hspec.
  rewrite Hb, Hs1, (upload_metadata_accepted _ Hacc) in Hspec.
  set (w2 := (sync_readings srv w1).1) in *.
  destruct (sync_images_frame srv (get_unsynced_images (db w2) 3) w2)
    as (_ & _ & _ & _ & _ & Hr3 & _).
  rewrite Hr3. subst w2. rewrite Hspec.
  destruct batch as [|b rest] eqn:Hbatch; [by apply elem_of_nil in Hr|].
  cbn [fst db with_db readings mark_readings with_readings].
  apply list_elem_of_fmap. exists r. split.
  - rewrite decide_True; [done|]. by apply (list_elem_of_fmap_2 reading_id).
  - rewrite Hr1. assert (Hin : r ∈ get_sensor_readings (db w) false 10)
      by (fold batch; by rewrite Hbatch).
    apply subseteq_take in Hin. by apply list_elem_of_filter in Hin as [_ ?].
Qed.

(** C10, as the code has it. A capture tick is not atomic. When the sensor
    is read and its reading stored, and the camera then raises, the tick
    ends with the exception: the reading row is in the store, not yet
    uploaded; no event row and no image row was added; the event counter
    has moved on by one. The reading is then uploaded like any other: it is
    in the next sensor batch when fewer than ten unsynced readings precede
    it, and a sync tick whose sensor upload is accepted marks it uploaded.
    For the rest of the run of the process (any ticks, no restart) every
    event row added later has a greater identifier, so the identifier of
    the failed tick is not used. *)
Theorem failed_capture_keeps_reading (env : CaptureEnv) (w : World)
    (s : Sensors.Sensor) (reading : Sensors.SensorReading) (f : FS) (e : exn) :
  sensor (self w) = Some s →
  Sensors.read s (air env) (crate_id (self w)) (_reading_counter (self w) + 1)
    = inr reading →
  (_reading_counter (self w) + 1) ∉ (reading_id <$> readings (db w)) →
  dispatch_capture_burst (camera (self w)) (scene env)
    (_event_counter (self w) + 1) (Config.image_dir (config (self w)))
    (Config.burst_size (config (self w))) (fs w) = (f, inl e) →
  let w' := step w (CaptureTick env) in
  let row := reading_record reading in
  (capture_once env w).2 = inl e ∧
  readings (db w') = (readings (db w) ++ [row])%list ∧
  reading_id row = _reading_counter (self w) + 1 ∧ rd_uploaded row = false ∧
  events (db w') = events (db w) ∧ images (db w') = images (db w) ∧
  _event_counter (self w') = _event_counter (self w) + 1 ∧
  ((length (filter (λ r, rd_uploaded r = false) (readings (db w))) < 10)%nat →
     row ∈ get_sensor_readings (db w') false 10 ∧
     ∀ srv,
       accepted (metadata_reply srv
                   (reading_meta (Config.device_id (config (self w'))) <$>
                    get_sensor_readings (db w') false 10)) →
       set_reading_uploaded row ∈ readings (db (step w' (SyncTick srv)))) ∧
  (∀ ticks, Forall (λ t, ¬ is_restart t) ticks →
     ∃ later, event_id <$> events (db (run ticks w'))
              = ((event_id <$> events (db w)) ++ later)%list ∧
              Forall (λ i, _event_counter (self w) + 1 < i) later).
Proof.
  intros Hsensor Hread Hfresh Hcam w' row.
  destruct (read_reading_id _ _ _ _ _ Hread) as [Hrid _].
  assert (Hw' : capture_once env w =
            (with_fs
               (with_db
                  (with_counters
                     (with_counters w (_event_counter (self w) + 1)
                        (_reading_counter (self w)))
                     (_event_counter (self w) + 1) (_reading_counter (self w) + 1))
                  (with_readings (db w) (readings (db w) ++ [row]))) f, inl e)).
  { rewrite capture_once_spec. cbv zeta. rewrite capture_reading_spec.
    cbn [self with_counters sensor _reading_counter _event_counter crate_id db].
    rewrite Hsensor. cbv zeta. rewrite Hread.
    unfold insert_sensor_reading. rewrite decide_False
      by (cbn [reading_id reading_record]; by rewrite Hrid).
    rewrite capture_images_spec. cbv zeta.
    cbn [self with_counters with_db config camera fs _event_counter].
    rewrite Hcam. reflexivity. }
  assert (Hstep : w' = (capture_once env w).1) by done.
  rewrite Hw' in Hstep. simpl in Hstep.
  split; [by rewrite Hw'|].
  split; [by rewrite Hstep|]. split; [done|]. split; [done|].
  split; [by rewrite Hstep|]. split; [by rewrite Hstep|].
  split; [by rewrite Hstep|]. split.
  - intros Hfew.
    assert (Hin : row ∈ get_sensor_readings (db w') false 10).
    { rewrite Hstep. unfold get_sensor_readings. simpl.
      rewrite filter_app, filter_cons_True, filter_nil by done.
      rewrite take_app_ge by lia. apply elem_of_app. right.
      set (n := length _) in *. destruct (10 - n)%nat eqn:Hd; [lia|].
      simpl. by left. }
    split; [done|]. intros srv Hacc.
    by apply sync_tick_readings.
  - intros ticks Hno.
    destruct (events_grow ticks w' Hno) as (later & Heq & Hall).
    exists later. rewrite Heq. split; [by rewrite Hstep|].
    eapply Forall_impl; [exact Hall|]. rewrite Hstep. simpl. intros; lia.
Qed.
End partial_capture_theorem.

(** ** Names, configuration, start-up and the store through the ticks *)

Section decimal.

Lemma digit_pretty_N_char d : (d < 10)%N → digit (pretty_N_char d) = Some d.
Proof.
  intros Hd.
  assert (d = 0 ∨ d = 1 ∨ d = 2 ∨ d = 3 ∨ d = 4 ∨ d = 5 ∨ d = 6 ∨ d = 7
          ∨ d = 8 ∨ d = 9)%N as Hc by lia.
  repeat destruct Hc as [->|Hc]; try subst d; reflexivity.
Qed.

Lemma app_String a s t : String a s +:+ t = String a (s +:+ t).
Proof. reflexivity. Qed.

Lemma app_assoc_string (a b c : string) : (a +:+ b) +:+ c = a +:+ b +:+ c.
Proof. induction a as [|x a IH]; [done|]. rewrite !app_String. by rewrite IH. Qed.

Lemma pretty_N_go_app x : ∀ s t, pretty_N_go x s +:+ t = pretty_N_go x (s +:+ t).
Proof.
  induction (N.lt_wf_0 x) as [x _ IH]; intros s t.
  assert (x = 0 ∨ 0 < x)%N as [->|Hx] by lia.
  { rewrite !pretty_N_go_0. done. }
  rewrite (pretty_N_go_step x s), (pretty_N_go_step x (s +:+ t)) by done.
  rewrite IH by (by apply N.div_lt). reflexivity.
Qed.

Lemma scan_pretty_N_go x : ∃ k : N, ∀ s acc,
  scan acc (pretty_N_go x s) = scan (acc * 10 ^ k + x) s.
Proof.
  induction (N.lt_wf_0 x) as [x _ IH].
  assert (x = 0 ∨ 0 < x)%N as [->|Hx] by lia.
  - exists 0%N. intros s acc. rewrite pretty_N_go_0. f_equal. lia.
  - destruct (IH (x `div` 10)%N) as [k Hk]; [by apply N.div_lt|].
    exists (k + 1)%N. intros s acc. rewrite pretty_N_go_step by done.
    rewrite Hk. cbn [scan]. rewrite digit_pretty_N_char by (by apply N.mod_lt).
    f_equal. rewrite N.pow_add_r. pose proof (N.div_mod x 10). lia.
Qed.

Lemma scan_0 r : scan 0 ("0" +:+ r) = scan 0 r.
Proof. reflexivity. Qed.

Lemma scan_stops acc t : stops t → scan acc t = (acc, t).
Proof. destruct t as [|c t]; [done|]. simpl. by intros ->. Qed.

Lemma scan_pretty (n : N) t : stops t → scan 0 (pretty n +:+ t) = (n, t).
Proof.
  intros Ht. unfold pretty, pretty_N. destruct (decide (n = 0%N)) as [->|Hn].
  - rewrite scan_0. by apply scan_stops.
  - rewrite pretty_N_go_app. destruct (scan_pretty_N_go n) as [k Hk].
    rewrite Hk. change (EmptyString +:+ t) with t. rewrite scan_stops by done. f_equal; lia.
Qed.

Lemma pretty_N_go_head x : ∀ s, (0 < x)%N →
  ∃ c r, pretty_N_go x s = String c r ∧ is_Some (digit c).
Proof.
  induction (N.lt_wf_0 x) as [x _ IH]; intros s Hx.
  rewrite pretty_N_go_step by done.
  destruct (decide (x `div` 10 = 0)%N) as [->|Hd].
  - rewrite pretty_N_go_0. eexists _, _. split; [done|].
    rewrite digit_pretty_N_char by (by apply N.mod_lt). eauto.
  - apply IH; [by apply N.div_lt|by apply N.neq_0_lt_0].
Qed.

Lemma pretty_N_head (n : N) :
  ∃ c r, pretty n = String c r ∧ is_Some (digit c).
Proof.
  unfold pretty, pretty_N. destruct (decide (n = 0%N)) as [->|Hn].
  - eexists _, _. split; [done|]. by eexists.
  - apply pretty_N_go_head. lia.
Qed.

Lemma digit_dash : digit dash = None.
Proof. reflexivity. Qed.

Lemma zeros_S k :
  String.concat EmptyString (replicate (S k) "0")
  = "0" +:+ String.concat EmptyString (replicate k "0").
Proof. simpl. by destruct (replicate k "0"). Qed.

Lemma zeros_scan k : ∀ u, 
  scan 0 (String.concat EmptyString (replicate k "0") +:+ u) = scan 0 u.
Proof.
  induction k as [|k IH]; intros u; [done|].
  rewrite zeros_S, app_assoc_string, scan_0. apply IH.
Qed.

Lemma scan_zfill w (n : N) t : stops t → scan 0 (zfill w (pretty n) +:+ t) = (n, t).
Proof.
  intros Ht. unfold zfill. rewrite app_assoc_string, zeros_scan. by apply scan_pretty.
Qed.

Lemma zfill_head w (n : N) :
  ∃ c r, zfill w (pretty n) = String c r ∧ is_Some (digit c).
Proof.
  unfold zfill. destruct (w - String.length (pretty n))%nat as [|k].
  - simpl. change (String.append EmptyString ?s) with s. apply pretty_N_head.
  - rewrite zeros_S, app_assoc_string. eexists _, _. split; [reflexivity|]. by eexists.
Qed.

Lemma read_int_digits c r : is_Some (digit c) →
  read_int (String c r) = (Z.of_N (scan 0 (String c r)).1, (scan 0 (String c r)).2).
Proof.
  intros [d Hd]. unfold read_int. destruct (decide (c = dash)) as [->|]; [|done].
  by rewrite digit_dash in Hd.
Qed.

Lemma read_int_dash r :
  read_int ("-" +:+ r) = (- Z.of_N (scan 0 r).1, (scan 0 r).2).
Proof. reflexivity. Qed.

(** Reading a formatted integer back. *)
Lemma read_int_format_0d w z t : stops t → read_int (format_0d w z +:+ t) = (z, t).
Proof.
  intros Ht. unfold format_0d. destruct (decide (z < 0)) as [Hneg|Hpos].
  - rewrite app_assoc_string, read_int_dash, scan_zfill by done.
    simpl. f_equal. lia.
  - destruct (zfill_head w (Z.to_N z)) as (c & r & Heq & Hc).
    rewrite Heq, app_String, read_int_digits by done.
    rewrite <- app_String, <- Heq, scan_zfill by done. simpl. f_equal. lia.
Qed.

Lemma read_int_pretty (z : Z) t : stops t → read_int (pretty z +:+ t) = (z, t).
Proof.
  intros Ht. destruct z as [|p|p].
  - change (pretty 0) with "0". rewrite app_String, read_int_digits by (by eexists).
    rewrite <- app_String. change "0" with (pretty 0%N). by rewrite scan_pretty.
  - change (pretty (Z.pos p)) with (pretty (N.pos p)).
    destruct (pretty_N_head (N.pos p)) as (c & r & Heq & Hc).
    rewrite Heq, app_String, read_int_digits by done.
    rewrite <- app_String, <- Heq, scan_pretty by done. done.
  - change (pretty (Z.neg p)) with ("-" +:+ pretty (N.pos p)).
    rewrite app_assoc_string, read_int_dash, scan_pretty by done. done.
Qed.
End decimal.

Section names.

Lemma parse_image_filename e i :
  parse_filename (Camera.image_filename e i) = (e, Z.of_nat i).
Proof.
  unfold parse_filename, Camera.image_filename.
  rewrite read_int_format_0d by done. cbn [fst snd].
  change ("_" +:+ ?s) with (String (Ascii.ascii_of_nat 95) s). cbv iota.
  by rewrite read_int_format_0d.
Qed.

Lemma image_filename_inj e i e' i' :
  Camera.image_filename e i = Camera.image_filename e' i' → e = e' ∧ i = i'.
Proof.
  intros Heq. assert (Hp := parse_image_filename e i).
  rewrite Heq, parse_image_filename in Hp. injection Hp as -> Hi. split; [done|lia].
Qed.

(** X6. The file name that both cameras give a frame,
    [%08d_%03d.jpg], can be read back: its two decimal fields are the event
    identifier and the index, also when the identifier is negative or a
    number is longer than its field. So two frames have the same name only
    if event and index agree. *)
Theorem image_filename_read_back (e e' : Z) (i i' : nat) :
  parse_filename (Camera.image_filename e i) = (e, Z.of_nat i) ∧
  (Camera.image_filename e i = Camera.image_filename e' i' → e = e' ∧ i = i').
Proof. split; [apply parse_image_filename|apply image_filename_inj]. Qed.

(** X5. The address of an image upload determines the image: for one
    client, two addresses are equal only for the same event identifier and
    the same image index. It is neither the heartbeat nor the metadata
    address, and these two differ. *)
Theorem image_url_names_one_image (c : Client.SyncClient) (e i e' i' : Z) :
  (Client.image_url c e i = Client.image_url c e' i' → e = e' ∧ i = i') ∧
  Client.image_url c e i ≠ Client.heartbeat_url c ∧
  Client.image_url c e i ≠ Client.metadata_url c ∧
  Client.heartbeat_url c ≠ Client.metadata_url c.
Proof.
  unfold Client.image_url, Client.heartbeat_url, Client.metadata_url.
  split; [|split; [|split]].
  - intros Heq. do 4 apply (inj (String.app _)) in Heq.
    assert (Hp := read_int_pretty e ("/" +:+ pretty i) eq_refl).
    rewrite Heq, read_int_pretty in Hp by done.
    injection Hp as -> Hi. split; [done|].
    apply (inj (String.app _)) in Hi. by apply (inj pretty).
  - intros Heq. apply (inj (String.app _)) in Heq. by cbv -[pretty] in Heq.
  - intros Heq. apply (inj (String.app _)) in Heq. by cbv -[pretty] in Heq.
  - intros Heq. apply (inj (String.app _)) in Heq. by cbv in Heq.
Qed.

Lemma rstrip_cons c a s :
  Client.rstrip c (String a s) =
    match Client.rstrip c s with
    | EmptyString => if decide (a = c) then EmptyString else String a EmptyString
    | kept => String a kept
    end.
Proof. reflexivity. Qed.

Lemma rstrip_split c s : ∃ n, s = Client.rstrip c s +:+ run_of c n.
Proof.
  induction s as [|a s [n IH]]; [by exists 0%nat|].
  rewrite rstrip_cons. destruct (Client.rstrip c s) as [|b kept] eqn:E.
  - destruct (decide (a = c)) as [->|Hne].
    + exists (S n). change (EmptyString +:+ ?x) with x in *. by rewrite IH at 1.
    + exists n. rewrite app_String. by rewrite IH at 1.
  - exists n. rewrite app_String. by rewrite IH at 1.
Qed.

Lemma rstrip_last c s : last_char (Client.rstrip c s) ≠ Some c.
Proof.
  induction s as [|a s IH]; [done|].
  rewrite rstrip_cons. destruct (Client.rstrip c s) as [|b kept] eqn:E.
  - destruct (decide (a = c)); [done|]. simpl. congruence.
  - done.
Qed.

Lemma rstrip_fixed c s : last_char s ≠ Some c → Client.rstrip c s = s.
Proof.
  induction s as [|a s IH]; [done|]. intros Hl.
  rewrite rstrip_cons. destruct s as [|b s].
  - simpl in *. rewrite decide_False; [done|]. congruence.
  - rewrite IH by done. done.
Qed.

Lemma rstrip_run c s n : Client.rstrip c (s +:+ run_of c n) = Client.rstrip c s.
Proof.
  induction s as [|a s IH].
  - change (EmptyString +:+ ?x) with x. induction n as [|n IHn]; [done|].
    simpl run_of. rewrite rstrip_cons, IHn. simpl. by rewrite decide_True.
  - rewrite app_String, !rstrip_cons. by rewrite IH.
Qed.

(** X4. [SyncClient.__init__] cuts the slashes off the end of the base
    URL and nothing else: the stored URL does not end in a slash, the given
    URL is the stored one followed by slashes only, URLs that differ in
    trailing slashes give the same client, and a URL that does not end in a
    slash is stored unchanged. *)
Theorem base_url_without_trailing_slash (base device : string) (n : nat) :
  let c := Client.new_client base device in
  last_char (Client.base_url c) ≠ Some Client.slash ∧
  (∃ k, base = Client.base_url c +:+ run_of Client.slash k) ∧
  Client.new_client (base +:+ run_of Client.slash n) device = c ∧
  (last_char base ≠ Some Client.slash → Client.base_url c = base).
Proof.
  simpl. split; [apply rstrip_last|]. split; [apply rstrip_split|].
  split; [unfold Client.new_client; by rewrite rstrip_run|apply rstrip_fixed].
Qed.
End names.

Section loader.
Import ConfigFile.

Lemma contains_mapping fields k :
  contains (JObj fields) k = inr (bool_decide (is_Some (Client.dict_get fields k))).
Proof. reflexivity. Qed.

Lemma from_yaml_mapping fields :
  from_yaml (JObj fields) =
    match Client.dict_get fields "device_id", Client.dict_get fields "base_url" with
    | Some d, Some b =>
        inr {|
          device_id := d;
          base_url := b;
          db_path := get fields "db_path" (JStr "./smartlarva_edge.db");
          image_dir := get fields "image_dir" (JStr "./images");
          burst_size := get fields "burst_size" (JInt 10);
          capture_interval := get fields "capture_interval" (JInt 60);
          heartbeat_interval := get fields "heartbeat_interval" (JInt 300);
          sync_interval := get fields "sync_interval" (JInt 120);
          cleanup_interval := get fields "cleanup_interval" (JInt 3600);
          retention_days := get fields "retention_days" (JInt 30);
          camera_backend := get fields "camera_backend" (JStr "mock");
          sensor_enabled := truthy (get fields "sensor_enabled" (JBool false));
          log_file := get fields "log_file" (JStr "./edge.log");
          extra := filter (λ kv, kv.1 ∉ annotations) fields;
        |}
    | None, Some _ => inl (KeyError ["device_id"])
    | Some _, None => inl (KeyError ["base_url"])
    | None, None => inl (KeyError ["device_id"; "base_url"])
    end.
Proof.
  unfold from_yaml, required_keys, missing_keys. rewrite !contains_mapping.
  unfold subscript.
  destruct (Client.dict_get fields "device_id") as [d|],
           (Client.dict_get fields "base_url") as [b|]; reflexivity.
Qed.

(** X1. [Config.from_yaml] returns a configuration only for a mapping
    that holds both [device_id] and [base_url], and then takes the two
    values as they are. A mapping without one of them, or without both,
    raises the [KeyError] that lists exactly the missing keys, [device_id]
    first; an empty document, which is parsed to [None], raises a
    [TypeError]. *)
Theorem from_yaml_needs_both_keys (data : json) :
  (∀ c, from_yaml data = inr c →
     ∃ fields, data = JObj fields ∧
       Client.dict_get fields "device_id" = Some (device_id c) ∧
       Client.dict_get fields "base_url" = Some (base_url c)) ∧
  (∀ fields d b, data = JObj fields →
     Client.dict_get fields "device_id" = Some d →
     Client.dict_get fields "base_url" = Some b →
     ∃ c, from_yaml data = inr c ∧ device_id c = d ∧ base_url c = b) ∧
  (∀ fields, data = JObj fields →
     from_yaml data = inl (KeyError ["device_id"; "base_url"]) ↔
       (Client.dict_get fields "device_id" = None ∧
        Client.dict_get fields "base_url" = None)) ∧
  (∀ fields, data = JObj fields →
     (from_yaml data = inl (KeyError ["device_id"]) ↔
        (Client.dict_get fields "device_id" = None ∧
         is_Some (Client.dict_get fields "base_url"))) ∧
     (from_yaml data = inl (KeyError ["base_url"]) ↔
        (is_Some (Client.dict_get fields "device_id") ∧
         Client.dict_get fields "base_url" = None))) ∧
  (data = JNull → from_yaml data = inl TypeError).
Proof.
  split; [|split; [|split; [|split]]].
  - intros c Hc. destruct data as [| | | |s|items|fields].
    1-4: done.
    + unfold from_yaml in Hc. destruct (missing_keys _ _) as [e|[|k rest]]; done.
    + unfold from_yaml in Hc. destruct (missing_keys _ _) as [e|[|k rest]]; done.
    + exists fields. split; [done|]. rewrite from_yaml_mapping in Hc.
      destruct (Client.dict_get fields "device_id") as [d|],
               (Client.dict_get fields "base_url") as [b|]; try done.
      by injection Hc as <-.
  - intros fields d b -> Hd Hb. rewrite from_yaml_mapping, Hd, Hb. eauto.
  - intros fields ->. rewrite from_yaml_mapping.
    destruct (Client.dict_get fields "device_id") as [d|],
             (Client.dict_get fields "base_url") as [b|]; split; try done;
      by intros [? ?].
  - intros fields ->. rewrite from_yaml_mapping.
    destruct (Client.dict_get fields "device_id") as [d|],
             (Client.dict_get fields "base_url") as [b|];
      (split; split; try done; try (by intros [? ?]); try (by intros [[? ?] ?]);
       try (by intros [? [? ?]]); eauto).
  - by intros ->.
Qed.

Lemma get_absent fields k default :
  Client.dict_get fields k = None → get fields k default = default.
Proof. unfold get. by intros ->. Qed.

(** X2. The defaults that [from_yaml] passes to [get] are the defaults
    of the dataclass: for a mapping that holds the two required keys and
    none of the other fields, the loaded configuration is
    [Config(device_id, base_url)] with, in [extra], the entries of the keys
    that are no field names. *)
Theorem from_yaml_agrees_with_defaults (fields : list (string * json)) (d b : json) :
  Client.dict_get fields "device_id" = Some d →
  Client.dict_get fields "base_url" = Some b →
  (∀ k, k ∈ annotations → k ∉ required_keys → k ≠ "extra" →
        Client.dict_get fields k = None) →
  from_yaml (JObj fields) =
    inr (with_extra (defaults d b) (filter (λ kv, kv.1 ∉ annotations) fields)).
Proof.
  intros Hd Hb Hnone. rewrite from_yaml_mapping, Hd, Hb.
  unfold with_extra, defaults. cbn.
  rewrite !get_absent; [done|apply Hnone; try done; apply (bool_decide_unpack _); by vm_compute..].
Qed.

Lemma dict_get_extra fields k :
  Client.dict_get (filter (λ kv, kv.1 ∉ annotations) fields) k =
    if decide (k ∈ annotations) then None else Client.dict_get fields k.
Proof.
  induction fields as [|[k0 v0] rest IH]; [by destruct (decide _)|].
  rewrite filter_cons. cbn [fst Client.dict_get].
  destruct (decide (k0 ∉ annotations)) as [Hk0|Hk0], (decide (k0 = k)) as [->|Hne];
    cbn [Client.dict_get].
  - destruct (decide (k = k)); [|done]. by destruct (decide (k ∈ annotations)).
  - rewrite decide_False by done. exact IH.
  - rewrite IH. destruct (decide (k ∈ annotations)); [done|]. by destruct Hk0.
  - exact IH.
Qed.

(** X3. [extra] of a loaded configuration holds exactly the entries of
    the document whose key is not the name of a field: a lookup in [extra]
    finds what the document has for such a key and nothing for a field
    name, a key [extra] of the document included. The keys that main.py
    reads from [extra] ([crate], [camera_name], [sensor_backend],
    [dht22_pin]) are passed through. *)
Theorem from_yaml_extra_keys (fields : list (string * json)) (c : Config) :
  from_yaml (JObj fields) = inr c →
  (∀ k, Client.dict_get (extra c) k =
          if decide (k ∈ annotations) then None else Client.dict_get fields k) ∧
  Client.dict_get (extra c) "extra" = None ∧
  (∀ k, k ∈ ["crate"; "camera_name"; "sensor_backend"; "dht22_pin"] →
        Client.dict_get (extra c) k = Client.dict_get fields k) ∧
  (∀ k v, (k, v) ∈ extra c → (k, v) ∈ fields ∧ k ∉ annotations).
Proof.
  intros Hc. rewrite from_yaml_mapping in Hc.
  destruct (Client.dict_get fields "device_id") as [d|],
           (Client.dict_get fields "base_url") as [b|]; try done.
  injection Hc as <-. cbn [extra].
  assert (Hget := dict_get_extra fields).
  split; [exact Hget|]. split; [|split].
  - rewrite Hget. rewrite decide_True; [done|]. unfold annotations. set_solver.
  - intros k Hk. rewrite Hget. rewrite decide_False; [done|].
    unfold annotations. intros Hin.
    repeat (apply elem_of_cons in Hk as [->|Hk];
            [by repeat (apply elem_of_cons in Hin as [Hin|Hin]; [done|]);
                apply elem_of_nil in Hin|]).
    by apply elem_of_nil in Hk.
  - intros k v Hin. apply list_elem_of_filter in Hin as [Hk Hin]. done.
Qed.
End loader.

Section camera_runs.
Context `{Runtime}.

Lemma mock_loop_all cam sc eid dir idxs : ∀ acc f,
  Forall (λ i, is_Some (Camera.jpeg sc i)) idxs →
  Camera.mock_loop cam sc eid dir idxs acc f =
    (foldl (save_frame sc eid dir) f idxs,
     inr (acc ++ (mock_image cam sc eid dir <$> idxs))%list).
Proof.
  induction idxs as [|idx rest IH]; intros acc f Hall.
  - simpl. by rewrite app_nil_r.
  - apply Forall_cons in Hall as [[data Hd] Hall]. cbn [Camera.mock_loop foldl].
    rewrite mock_frame_spec. cbv zeta. rewrite Hd. rewrite IH by done.
    assert (Hs : save_frame sc eid dir f idx
                 = write_file f (path_join dir (Camera.image_filename eid idx)) data)
      by (unfold save_frame, frame_bytes, frame_path; by rewrite Hd).
    rewrite Hs, fmap_cons, <- app_assoc. do 3 f_equal.
    unfold mock_image, frame_bytes, frame_path. by rewrite Hd.
Qed.

Lemma mock_loop_stops cam sc eid dir pre k post : ∀ acc f,
  Forall (λ i, is_Some (Camera.jpeg sc i)) pre → Camera.jpeg sc k = None →
  Camera.mock_loop cam sc eid dir (pre ++ k :: post) acc f =
    (foldl (save_frame sc eid dir) f pre, inl OSError).
Proof.
  induction pre as [|idx rest IH]; intros acc f Hall Hk.
  - simpl. rewrite mock_frame_spec. cbv zeta. by rewrite Hk.
  - apply Forall_cons in Hall as [[data Hd] Hall].
    rewrite <- app_comm_cons. cbn [Camera.mock_loop foldl].
    rewrite mock_frame_spec. cbv zeta. rewrite Hd. rewrite IH by done.
    assert (Hs : save_frame sc eid dir f idx
                 = write_file f (path_join dir (Camera.image_filename eid idx)) data)
      by (unfold save_frame, frame_bytes, frame_path; by rewrite Hd).
    by rewrite Hs.
Qed.

Lemma rpi_loop_all cam sc eid dir f idxs : ∀ acc,
  Camera.rpi_loop cam sc eid dir idxs acc f =
    inr (acc ++ (rpi_image cam sc eid dir f <$>
                 filter (λ i, os_path_exists f (frame_path dir eid i)) idxs))%list.
Proof.
  induction idxs as [|idx rest IH]; intros acc.
  - simpl. by rewrite app_nil_r.
  - cbn [Camera.rpi_loop]. cbv zeta. rewrite filter_cons.
    change (path_join dir (Camera.image_filename eid idx))
      with (frame_path dir eid idx).
    destruct (os_path_exists f (frame_path dir eid idx)) eqn:Hex.
    + rewrite decide_True by done.
      unfold os_path_exists in Hex. apply bool_decide_eq_true in Hex as [data Hd].
      rewrite (compute_sha256_written _ _ _ Hd).
      unfold Camera.os_path_getsize. rewrite Hd. rewrite IH.
      rewrite fmap_cons, <- app_assoc. do 3 f_equal.
      unfold rpi_image, found_bytes. by rewrite Hd.
    + rewrite decide_False by (intros Hf; exact Hf). apply IH.
Qed.

Lemma foldl_save_locked sc eid dir idxs : ∀ f,
  locked (foldl (save_frame sc eid dir) f idxs) = locked f.
Proof. induction idxs as [|i rest IH]; intros f; [done|]. simpl. by rewrite IH. Qed.

Lemma foldl_save_lookup sc eid dir idxs : ∀ f p,
  files (foldl (save_frame sc eid dir) f idxs) !! p = files f !! p ∨
  ∃ i, i ∈ idxs ∧ p = frame_path dir eid i ∧
       files (foldl (save_frame sc eid dir) f idxs) !! p = Some (frame_bytes sc i).
Proof.
  induction idxs as [|i rest IH]; intros f p; [by left|]. simpl.
  destruct (IH (save_frame sc eid dir f i) p) as [Heq|(j & Hj & Hp & Hl)].
  - rewrite Heq. unfold save_frame, write_file. simpl.
    destruct (decide (frame_path dir eid i = p)) as [<-|Hne].
    + right. exists i. rewrite lookup_insert_eq. split; [left|done].
    + left. by rewrite lookup_insert_ne.
  - right. exists j. split; [by right|done].
Qed.

Lemma foldl_save_present sc eid dir idxs : ∀ f i,
  i ∈ idxs → is_Some (files (foldl (save_frame sc eid dir) f idxs) !! frame_path dir eid i).
Proof.
  induction idxs as [|j rest IH]; intros f i Hin; [by apply elem_of_nil in Hin|].
  simpl. destruct (decide (i ∈ rest)) as [Hr|Hr]; [by apply IH|].
  apply elem_of_cons in Hin as [->|?]; [|done].
  destruct (foldl_save_lookup sc eid dir rest (save_frame sc eid dir f j)
              (frame_path dir eid j)) as [->|(? & _ & _ & ->)]; [|done].
  unfold save_frame, write_file. simpl. rewrite lookup_insert_eq. done.
Qed.

(** What every backend returns: artifacts for increasing indices below the
    requested size, each at the path of its index. *)
Lemma dispatch_artifacts cam sc eid dir n f imgs :
  (dispatch_capture_burst cam sc eid dir n f).2 = inr imgs →
  sublist (Camera.image_index <$> imgs) (seq 0 (Z.to_nat n)) ∧
  Forall (λ img, Camera.local_path img =
                   frame_path dir eid (Camera.image_index img)) imgs.
Proof.
  destruct cam as [cam|cam]; simpl.
  - unfold Camera.mock_capture_burst.
    destruct (Camera.mock_loop _ _ _ _ _ _ _) as [f' res] eqn:Hloop. simpl.
    intros ->. destruct (mock_loop_spec _ _ _ _ _ _ _ _ _ Hloop) as (new & Heq & Hi & Hall).
    simpl in Heq. subst new. rewrite Hi. split; [done|].
    eapply Forall_impl; [exact Hall|]. intros img (data & _ & Hp & _). exact Hp.
  - unfold Camera.rpi_capture_burst. destruct (Camera.tool sc) as [|written|written];
      simpl; try done.
    rewrite rpi_loop_all. simpl. intros [= <-]. split.
    + rewrite <- list_fmap_compose. simpl.
      rewrite list_fmap_id. apply sublist_filter.
    + apply Forall_fmap. apply Forall_forall. by intros i _.
Qed.

Lemma sublist_seq_NoDup (l : list nat) n : sublist l (seq 0 n) → NoDup l.
Proof. intros Hs. eapply sublist_NoDup; [apply NoDup_seq|done]. Qed.
End camera_runs.

Section checksum_theorem.
Context `{Runtime}.

Lemma mock_loop_jpegs cam sc eid dir idxs acc f f' imgs :
  Camera.mock_loop cam sc eid dir idxs acc f = (f', inr imgs) →
  Forall (λ i, is_Some (Camera.jpeg sc i)) idxs.
Proof.
  intros Hloop.
  destruct (mock_loop_spec _ _ _ _ _ _ _ _ _ Hloop) as (new & _ & <- & Hall).
  apply Forall_fmap. eapply Forall_impl; [exact Hall|].
  intros img (data & Hj & _). simpl. eauto.
Qed.

(** Right after frame [idx] is saved, it is at its path. *)
Lemma foldl_save_last sc eid dir f idx :
  files (foldl (save_frame sc eid dir) f (seq 0 (S idx))) !! frame_path dir eid idx
  = Some (frame_bytes sc idx).
Proof.
  rewrite seq_S, foldl_app. simpl. unfold save_frame at 1, write_file. simpl.
  by rewrite lookup_insert_eq.
Qed.

(** After the frames of [idxs] are saved, each is at its path, when no
    two names give one path. *)
Lemma foldl_save_written sc eid dir :
  (∀ a b, path_join dir a = path_join dir b → a = b) →
  ∀ idxs f i, i ∈ idxs →
    files (foldl (save_frame sc eid dir) f idxs) !! frame_path dir eid i
    = Some (frame_bytes sc i).
Proof.
  intros Hinj idxs. induction idxs as [|j rest IH]; intros f i Hin;
    [by apply elem_of_nil in Hin|].
  simpl. destruct (decide (i ∈ rest)) as [Hr|Hr]; [by apply IH|].
  apply elem_of_cons in Hin as [->|?]; [|done].
  destruct (foldl_save_lookup sc eid dir rest (save_frame sc eid dir f j)
              (frame_path dir eid j)) as [->|(k & Hk & Hp & _)].
  - unfold save_frame, write_file. simpl. by rewrite lookup_insert_eq.
  - unfold frame_path in Hp. apply Hinj, image_filename_inj in Hp as [_ ->].
    by destruct Hr.
Qed.

(** C6. The checksum column of a row inserted by a capture tick is the
    SHA-256 hex digest of the bytes of the image file. With the mock camera
    these are the bytes written for the index of the row in this tick: they
    are at the path of the row on the disk as it is right after the frame
    is saved, which is when they are hashed; when the tick ends, with all
    frames of the burst saved, a file is at that path, and it holds these
    bytes, provided that no two file names give one path in the image
    directory. With the Raspberry Pi camera they
    are the bytes found at the path of the row once the capture tool has
    run, which are there when the tick ends. No later tick of any loop and
    no restart changes the column: the row keeps the checksum it was
    inserted with. *)
Theorem checksum_fixed_at_capture (env : CaptureEnv) (w : World)
    (ticks : list Tick) (id : nat) (r : CapturedImageRecord) :
  let w' := step w (CaptureTick env) in
  let dir := Config.image_dir (config (self w)) in
  images (db w) !! id = None →
  images (db w') !! id = Some r →
  match camera (self w) with
  | Mock cam =>
      let disk_after m :=
        foldl (save_frame (scene env) (_event_counter (self w) + 1) dir)
          (fs w) (seq 0 m) in
      ∃ data, Camera.jpeg (scene env) (Z.to_nat (image_index r)) = Some data ∧
        local_path r =
          path_join dir
            (Camera.image_filename (_event_counter (self w) + 1)
               (Z.to_nat (image_index r))) ∧
        size_bytes r = length data ∧
        sha256_hex r = sha256_hexdigest data ∧
        files (disk_after (S (Z.to_nat (image_index r)))) !! local_path r
          = Some data ∧
        fs w' = disk_after (Z.to_nat (Config.burst_size (config (self w)))) ∧
        is_Some (files (fs w') !! local_path r) ∧
        ((∀ a b, path_join dir a = path_join dir b → a = b) →
         files (fs w') !! local_path r = Some data)
  | Rpi cam =>
      ∃ data, files (fs w') !! local_path r = Some data ∧
        size_bytes r = length data ∧
        sha256_hex r = sha256_hexdigest data
  end ∧
  ∃ r', images (db (run ticks w')) !! id = Some r' ∧ sha256_hex r' = sha256_hex r.
Proof.
  intros w' dir Hnew Hrow. split.
  - subst w'. change (step w (CaptureTick env)) with (capture_once env w).1 in *.
    destruct (capture_once_effect env w)
      as (_ & _ & _ & _ & _ & _ & _ & _ & _ & _ & _ & (new & Him & _ & Hcases) & _).
    rewrite Him in Hrow. rewrite lookup_app_r in Hrow
      by (by apply lookup_ge_None).
    destruct Hcases as [->|(imgs & k & Hout & Hfs & ->)];
      [by rewrite lookup_nil in Hrow|].
    apply list_elem_of_lookup_2 in Hrow.
    apply list_elem_of_fmap in Hrow as (img & -> & Himg).
    apply subseteq_take in Himg. fold dir in Hout, Hfs.
    destruct (camera (self w)) as [cam|cam]; simpl in Hout, Hfs.
    + unfold Camera.mock_capture_burst in Hout, Hfs.
      destruct (Camera.mock_loop _ _ _ _ _ _ _) as [f' res] eqn:Hloop.
      simpl in Hout, Hfs. subst res.
      assert (Hjpegs := mock_loop_jpegs _ _ _ _ _ _ _ _ _ Hloop).
      rewrite (mock_loop_all _ _ _ _ _ _ _ Hjpegs) in Hloop.
      injection Hloop as Hf' Himgs. simpl in Himgs. subst imgs.
      apply list_elem_of_fmap in Himg as (idx & -> & Hidx).
      rewrite Forall_forall in Hjpegs. destruct (Hjpegs idx Hidx) as [data Hd].
      assert (Hbytes : frame_bytes (scene env) idx = data)
        by (unfold frame_bytes; by rewrite Hd).
      exists data. simpl. rewrite Nat2Z.id, Hbytes, Hfs, <- Hf'.
      split; [done|]. split; [done|]. split; [done|]. split; [done|].
      split; [|split; [done|split]].
      * rewrite <- Hbytes. apply foldl_save_last.
      * by apply foldl_save_present.
      * intros Hinj. rewrite <- Hbytes. by apply foldl_save_written.
    + unfold Camera.rpi_capture_burst in Hout, Hfs.
      destruct (Camera.tool (scene env)) as [|written|written]; try done.
      simpl in Hout, Hfs.
      destruct (rpi_loop_spec _ _ _ _ _ _ _ _ Hout) as (new & Heq & Hall).
      simpl in Heq. subst new.
      rewrite Forall_forall in Hall. destruct (Hall img Himg) as (data & ? & ? & ?).
      exists data. simpl. by rewrite Hfs.
  - destruct (run_rows_evolve ticks w' id r Hrow) as (r' & Hr' & Hev).
    exists r'. split; [done|]. by apply row_evolves_sha.
Qed.
End checksum_theorem.

Section shapes.
Context `{Runtime}.

Lemma rows_evolve_Forall2 l l' :
  rows_evolve l l' → length l' = length l → Forall2 row_evolves l l'.
Proof.
  intros Hev Hlen. apply Forall2_same_length_lookup_2; [done|].
  intros i r r' Hr Hr'. destruct (Hev i r Hr) as (r'' & Hr'' & He). congruence.
Qed.

Lemma sync_images_length srv l : ∀ w,
  length (images (db (for_each l (sync_image srv) w).1)) = length (images (db w)).
Proof.
  induction l as [|[id r] l IH]; intros w; [done|].
  rewrite (for_each_cons_inr _ _ _ _ _ (sync_image_spec srv id r w)), IH.
  cbn [db with_db]. destruct (upload_ok _ _ _ _); cbn [images mark_image_uploaded
    mark_image_corrupted with_images].
  - by rewrite length_fmap.
  - by rewrite length_alter.
Qed.

Lemma same_domain_length {A} (l l' : list A) :
  (∀ i, is_Some (l' !! i) ↔ is_Some (l !! i)) → length l' = length l.
Proof.
  intros Hd. apply Nat.le_antisymm.
  - apply Nat.nlt_ge. intros Hlt. apply lookup_lt_is_Some_2, Hd in Hlt.
    apply lookup_lt_is_Some_1 in Hlt. lia.
  - apply Nat.nlt_ge. intros Hlt. apply lookup_lt_is_Some_2, Hd in Hlt.
    apply lookup_lt_is_Some_1 in Hlt. lia.
Qed.

Lemma bursts_mark_events ids d : bursts (mark_events ids d) = bursts d.
Proof.
  unfold bursts. simpl. rewrite <- list_fmap_compose. apply list_fmap_ext.
  intros ? e _. simpl. by destruct (decide _).
Qed.

(** The ticks of the loops other than the capture loop, and a restart, add
    no row and change only flags. *)
Lemma quiet_tick_shape t w :
  match t with CaptureTick _ => False | _ => True end →
  Forall2 row_evolves (images (db w)) (images (db (step w t))) ∧
  bursts (db (step w t)) = bursts (db w).
Proof.
  intros Ht. assert (Hev := step_rows_evolve t w).
  destruct t as [env|srv|srv|now|boot]; [done|..].
  - destruct (heartbeat_tick_effect srv w) as (_ & _ & _ & He & _ & Hi).
    split; [apply rows_evolve_Forall2; [done|by rewrite Hi]|].
    unfold bursts. by rewrite He.
  - split.
    + apply rows_evolve_Forall2; [done|].
      simpl. unfold iteration. rewrite sync_once_spec, sync_images_unfold.
      rewrite sync_images_length.
      destruct (sync_events_effect srv w) as (_ & _ & _ & _ & _ & Hdb1).
      destruct (sync_readings_effect srv (sync_events srv w).1)
        as (_ & _ & _ & _ & Hi2 & _).
      rewrite Hi2. destruct Hdb1 as [->| ->]; [done|]. simpl. by rewrite length_fmap.
    + destruct (sync_tick_after_events srv w) as [He _]. unfold bursts at 1.
      rewrite He. fold (bursts (db (sync_events srv w).1)).
      destruct (sync_events_effect srv w) as (_ & _ & _ & _ & _ & [->| ->]);
        [done|apply bursts_mark_events].
  - destruct (cleanup_tick_effect now w) as (_ & _ & _ & He & _ & _ & Hpt).
    split; [|unfold bursts; by rewrite He].
    apply rows_evolve_Forall2; [done|]. apply same_domain_length. intros i.
    destruct (Hpt i) as [->|(r & -> & ->)]; [done|]. split; eauto.
  - change (step w (Restart boot)) with (restart boot w) in *.
    destruct (restart_effect boot w) as (_ & He & _ & Hi & _).
    split; [apply rows_evolve_Forall2; [done|by rewrite Hi]|].
    unfold bursts. by rewrite He.
Qed.

Lemma evolves_proj {B} (g : CapturedImageRecord → B) l l' :
  (∀ r m u x c, g (set_flags r m u x c) = g r) →
  Forall2 row_evolves l l' → g <$> l' = g <$> l.
Proof.
  intros Hg. induction 1 as [|r r' l l' (m & u & x & c & -> & _) _ IH]; [done|].
  rewrite !fmap_cons, IH. by rewrite Hg.
Qed.

Lemma quiet_tick_owners t w :
  match t with CaptureTick _ => False | _ => True end →
  owners (db (step w t)) = owners (db w).
Proof.
  intros Ht. destruct (quiet_tick_shape t w Ht) as [Hrows _].
  unfold owners. by apply evolves_proj.
Qed.

Lemma step_config t w : config (self (step w t)) = config (self w).
Proof.
  destruct t as [env|srv|srv|now|boot].
  - by destruct (capture_once_effect env w) as (Hc & _).
  - by destruct (heartbeat_tick_effect srv w) as (-> & _).
  - by destruct (sync_tick_effect srv w) as (-> & _).
  - by destruct (cleanup_tick_effect now w) as (-> & _).
  - change (step w (Restart boot)) with (restart boot w).
    by destruct (restart_effect boot w) as (_ & _ & _ & _ & _ & [->|(_ & _ & ->)]).
Qed.

Lemma run_config ticks : ∀ w, config (self (run ticks w)) = config (self w).
Proof.
  induction ticks as [|t ticks IH]; intros w; [done|].
  by rewrite run_cons, IH, step_config.
Qed.
End shapes.

Section committed.
Context `{Runtime}.

Lemma insert_images_fresh eid imgs : ∀ w,
  NoDup (Camera.image_index <$> imgs) →
  (∀ r, r ∈ images (db w) → event_local_id r = eid →
        image_index r ∉ (Z.of_nat ∘ Camera.image_index <$> imgs)) →
  insert_images eid imgs w =
    (with_db w (with_images (db w)
                  (images (db w) ++ (image_record eid <$> imgs))), inr tt).
Proof.
  induction imgs as [|img rest IH]; intros w Hnd Hfresh.
  - simpl. rewrite app_nil_r. unfold insert_images. simpl. unfold ret.
    destruct w as [s [c e i r st] f]. done.
  - rewrite fmap_cons in Hnd. apply NoDup_cons in Hnd as [Hhead Hnd].
    rewrite insert_images_cons. unfold insert_image.
    rewrite decide_False.
    + rewrite IH; [|done|].
      * cbn [db with_db images with_images]. rewrite fmap_cons, <- app_assoc.
        destruct w as [s [c e i r st] f]. done.
      * cbn [db with_db images with_images]. intros r [Hr|Hr]%elem_of_app Heid.
        -- intros Hin. apply (Hfresh r Hr Heid). rewrite fmap_cons. by right.
        -- apply list_elem_of_singleton in Hr as ->. simpl.
           intros (x & Hx & Hin)%list_elem_of_fmap. simpl in Hx.
           apply Nat2Z.inj in Hx. apply Hhead. rewrite Hx.
           by apply list_elem_of_fmap_2.
    + intros (r & Hk & Hr)%list_elem_of_fmap. simpl in Hk.
      injection Hk as He Hi. apply (Hfresh r Hr); [done|].
      rewrite fmap_cons. simpl. rewrite <- Hi. left.
Qed.

Lemma owners_bound w :
  ids_ok w → bursts_ok (db w) →
  Forall (λ o, o ≤ _event_counter (self w)) (owners (db w)).
Proof.
  intros (_ & Hec & _) [Hown _]. eapply Forall_impl; [exact Hown|].
  intros o Ho. simpl in Ho. unfold bursts in Ho. rewrite <- list_fmap_compose in Ho.
  rewrite Forall_forall in Hec. by apply Hec.
Qed.

(** In a consistent world the store accepts every insert of a capture
    tick. *)
Lemma capture_once_committed env w :
  ids_ok w → Forall (λ o, o ≤ _event_counter (self w)) (owners (db w)) →
  capture_once env w =
    (capture_committed env w,
     match sensor_result env w with
     | inl e => inl e
     | inr _ => camera_result env w
     end).
Proof.
  intros (_ & _ & _ & Hrc) Hown.
  rewrite capture_once_spec. cbv zeta. rewrite capture_reading_spec.
  unfold capture_committed, sensor_result, camera_result, with_reading,
    next_reading_counter, burst.
  cbn [self with_counters sensor _reading_counter _event_counter crate_id db].
  set (eid := _event_counter (self w) + 1).
  set (rid := _reading_counter (self w) + 1).
  assert (Hcam : ∀ w2,
    config (self w2) = config (self w) → camera (self w2) = camera (self w) →
    crate_id (self w2) = crate_id (self w) →
    fs w2 = fs w → events (db w2) = events (db w) → images (db w2) = images (db w) →
    capture_images env eid (crate_id (self w)) (utcnow env) w2 =
      let out := dispatch_capture_burst (camera (self w)) (scene env) eid
                   (Config.image_dir (config (self w)))
                   (Config.burst_size (config (self w))) (fs w) in
      match out.2 with
      | inl e => (with_fs w2 out.1, inl e)
      | inr imgs => (with_fs (with_db w2 (with_burst env w imgs (db w2))) out.1, inr tt)
      end).
  { intros w2 Hcfg Hcamera Hcrate Hfs Hev Him. rewrite capture_images_spec. cbv zeta.
    rewrite Hcfg, Hcamera, Hfs.
    destruct (dispatch_capture_burst _ _ _ _ _ _) as [f' [e|imgs]] eqn:Hout;
      cbn [fst snd]; [done|].
    destruct (dispatch_artifacts (camera (self w)) (scene env) eid
                (Config.image_dir (config (self w)))
                (Config.burst_size (config (self w))) (fs w) imgs) as [Hsub _].
    { by rewrite Hout. }
    rewrite insert_images_fresh.
    - unfold with_burst, event_record. fold eid. rewrite Hcfg.
      destruct w2 as [s2 d2 f2]. done.
    - by eapply sublist_seq_NoDup.
    - cbn [db with_db with_fs images insert_event with_events]. rewrite Him.
      intros r Hr Heid. rewrite Forall_forall in Hown.
      assert (event_local_id r ≤ _event_counter (self w)).
      { apply Hown. unfold owners. by apply list_elem_of_fmap_2. }
      subst eid. lia. }
  destruct (sensor (self w)) as [s|] eqn:Hsensor.
  - cbv zeta. destruct (Sensors.read s _ _ _) as [e|reading] eqn:Hread; [done|].
    unfold insert_sensor_reading. rewrite decide_False.
    2:{ destruct (read_reading_id _ _ _ _ _ Hread) as [Hrid _].
        cbn [reading_id reading_record]. rewrite Hrid. intros Hin.
        rewrite Forall_forall in Hrc. apply Hrc in Hin. subst rid. lia. }
    rewrite Hcam by done. cbv zeta.
    destruct (dispatch_capture_burst _ _ _ _ _ _) as [f' [e|imgs]]; done.
  - rewrite Hcam by done. cbv zeta.
    destruct (dispatch_capture_burst _ _ _ _ _ _) as [f' [e|imgs]]; done.
Qed.
End committed.

Section whole_bursts.
Context `{Runtime}.

Lemma bursts_ids d : (bursts d).*1 = event_id <$> events d.
Proof. unfold bursts. rewrite <- list_fmap_compose. by apply list_fmap_ext. Qed.

Lemma filter_owner_length (x : Z) (l : list CapturedImageRecord) :
  length (filter (λ r, event_local_id r = x) l)
  = length (filter (λ o, o = x) (event_local_id <$> l)).
Proof.
  induction l as [|r l IH]; [done|]. rewrite fmap_cons, !filter_cons.
  destruct (decide (event_local_id r = x)); simpl; by rewrite IH.
Qed.

Lemma filter_none {A} (P : A → Prop) `{!∀ x, Decision (P x)} (l : list A) :
  Forall (λ x, ¬ P x) l → filter P l = [].
Proof.
  induction 1 as [|x l Hx _ IH]; [done|]. by rewrite filter_cons_False.
Qed.

Lemma filter_all {A} (P : A → Prop) `{!∀ x, Decision (P x)} (l : list A) :
  Forall P l → filter P l = l.
Proof.
  induction 1 as [|x l Hx _ IH]; [done|]. by rewrite filter_cons_True, IH.
Qed.

Lemma bursts_ok_same d d' :
  owners d' = owners d → bursts d' = bursts d → bursts_ok d → bursts_ok d'.
Proof. unfold bursts_ok. by intros -> ->. Qed.

Lemma bursts_ok_with_burst env w imgs d :
  owners d = owners (db w) → bursts d = bursts (db w) →
  ids_ok w → bursts_ok (db w) → bursts_ok (with_burst env w imgs d).
Proof.
  intros Ho Hb Hids [Hown Hcount].
  pose proof (owners_bound w Hids (conj Hown Hcount)) as Hbound.
  destruct Hids as (_ & Hec & _).
  set (eid := _event_counter (self w) + 1).
  assert (Ho' : owners (with_burst env w imgs d)
                = (owners (db w) ++ ((λ _, eid) <$> imgs))%list).
  { unfold owners, with_burst. cbn [images with_images]. fold eid.
    rewrite fmap_app. fold (owners d). rewrite Ho. f_equal.
    rewrite <- list_fmap_compose. by apply list_fmap_ext. }
  assert (Hb' : bursts (with_burst env w imgs d)
                = (bursts (db w) ++ [(eid, length imgs)])%list).
  { unfold bursts, with_burst. cbn [events with_events with_images].
    rewrite fmap_app. fold (bursts d). by rewrite Hb. }
  unfold bursts_ok. rewrite Ho', Hb'. split.
  - apply Forall_app. split.
    + eapply Forall_impl; [exact Hown|]. intros o Hin. simpl in *.
      rewrite fmap_app. apply elem_of_app. by left.
    + apply Forall_fmap, Forall_forall. intros img _. simpl.
      rewrite fmap_app. apply elem_of_app. right. simpl. left.
  - apply Forall_app. split.
    + rewrite Forall_forall in Hcount. apply Forall_forall. intros b Hin.
      rewrite filter_app, length_app, <- (Hcount b Hin).
      rewrite (filter_none _ (_ <$> imgs)); [simpl; lia|].
      apply Forall_fmap, Forall_forall. intros img _. simpl.
      assert (b.1 ∈ event_id <$> events (db w)).
      { rewrite <- bursts_ids. by apply list_elem_of_fmap_2. }
      rewrite Forall_forall in Hec. specialize (Hec _ H0). subst eid. lia.
    + constructor; [|constructor]. simpl.
      rewrite filter_app, length_app, (filter_none _ (owners (db w))).
      * rewrite filter_all; [by rewrite length_fmap|].
        apply Forall_fmap, Forall_forall. by intros img _.
      * eapply Forall_impl; [exact Hbound|]. intros o Ho1. simpl in *. subst eid. lia.
Qed.

Lemma capture_tick_consistent env w :
  consistent w → consistent (step w (CaptureTick env)).
Proof.
  intros [Hids Hb]. split; [by apply capture_tick_ids_ok|].
  change (step w (CaptureTick env)) with (capture_once env w).1.
  rewrite capture_once_committed by (done || by apply owners_bound).
  cbn [fst]. unfold capture_committed.
  assert (Hr : owners (with_reading env w) = owners (db w) ∧
               bursts (with_reading env w) = bursts (db w)).
  { unfold with_reading. destruct (sensor (self w)); [|done].
    by destruct (Sensors.read _ _ _ _). }
  destruct Hr as [Hro Hrb].
  destruct (sensor_result env w); [done|].
  destruct (burst env w).2 as [e|imgs]; cbn [db with_fs with_db].
  - by apply (bursts_ok_same (db w)).
  - by apply bursts_ok_with_burst.
Qed.

Lemma step_consistent t w : consistent w → consistent (step w t).
Proof.
  intros Hc. destruct t as [env|srv|srv|now|boot] eqn:Ht;
    [by apply capture_tick_consistent|..];
    (destruct Hc as [Hids Hb]; split; [by apply step_ids_ok|];
     apply (bursts_ok_same (db w)); [by apply quiet_tick_owners
                                    |by apply quiet_tick_shape|done]).
Qed.

Lemma run_consistent ticks : ∀ w, consistent w → consistent (run ticks w).
Proof.
  induction ticks as [|t ticks IH]; intros w Hc; [done|].
  rewrite run_cons. by apply IH, step_consistent.
Qed.

(** A first start on a store without events, images and readings. *)
Lemma startup_consistent c boot d f w :
  startup c boot d f = inr w →
  events d = [] → images d = [] → readings d = [] → consistent w.
Proof.
  intros Hs He Hi Hr.
  destruct (startup_counters _ _ _ _ _ Hs) as (Hec & Hrc & He' & Hr').
  assert (Hi' : images (db w) = images d).
  { revert Hs. unfold startup, _ensure_crate.
    destruct (Config.crate c) as [cr|]; [|done].
    destruct (Config.id cr), (Config.label cr), (Config.started_at cr); try done.
    unfold insert_crate. destruct (decide _); destruct (_init_camera c); try done;
      by intros [= <-]. }
  split.
  - unfold ids_ok. rewrite He', Hr', He, Hr. simpl. repeat split; constructor.
  - unfold bursts_ok, owners, bursts. rewrite Hi', He', Hi, He. simpl.
    split; constructor.
Qed.

End whole_bursts.

Section interrupted_bursts.
Context `{Runtime}.

Lemma capture_killed_spec env k w :
  capture_killed env k w =
    let w1 := with_counters w (_event_counter (self w) + 1)
                (_reading_counter (self w)) in
    match capture_reading env (crate_id (self w)) w1 with
    | (w2, inl e) => (w2, inl e)
    | (w2, inr _) =>
        capture_images_killed env (_event_counter (self w) + 1) (crate_id (self w))
          (utcnow env) k w2
    end.
Proof. reflexivity. Qed.

Lemma capture_images_killed_spec env eid cid cat k w :
  capture_images_killed env eid cid cat k w =
    let out := dispatch_capture_burst (camera (self w)) (scene env) eid
                 (Config.image_dir (config (self w)))
                 (Config.burst_size (config (self w))) (fs w) in
    match out.2 with
    | inl e => (with_fs w out.1, inl e)
    | inr imgs =>
        insert_images eid (take k imgs)
          (with_db (with_fs w out.1)
             (insert_event (db w) (event_record w eid cid cat imgs)))
    end.
Proof.
  unfold capture_images_killed, bind, gets, camera_capture_burst. simpl.
  destruct (dispatch_capture_burst _ _ _ _ _ _) as [f [e|imgs]]; done.
Qed.

Lemma with_prefix_all env w imgs d :
  with_prefix env w imgs (length imgs) d = with_burst env w imgs d.
Proof. unfold with_prefix, with_burst. by rewrite firstn_all. Qed.

Lemma capture_cut_all env w imgs :
  (burst env w).2 = inr imgs →
  capture_cut env (length imgs) w = capture_committed env w.
Proof.
  intros Hb. unfold capture_cut, capture_committed. rewrite Hb.
  by rewrite with_prefix_all.
Qed.

(** In a store whose identifiers are below the counters the inserts of a
    killed iteration are accepted, up to the kill. *)
Lemma capture_killed_cut env k w :
  ids_ok w → Forall (λ o, o ≤ _event_counter (self w)) (owners (db w)) →
  (capture_killed env k w).1 = capture_cut env k w.
Proof.
  intros (_ & _ & _ & Hrc) Hown.
  rewrite capture_killed_spec. cbv zeta. rewrite capture_reading_spec.
  unfold capture_cut, sensor_result, with_reading, next_reading_counter, burst.
  cbn [self with_counters sensor _reading_counter _event_counter crate_id db].
  set (eid := _event_counter (self w) + 1).
  set (rid := _reading_counter (self w) + 1).
  assert (Hcam : ∀ w2,
    config (self w2) = config (self w) → camera (self w2) = camera (self w) →
    crate_id (self w2) = crate_id (self w) →
    fs w2 = fs w → events (db w2) = events (db w) → images (db w2) = images (db w) →
    (capture_images_killed env eid (crate_id (self w)) (utcnow env) k w2).1 =
      let out := dispatch_capture_burst (camera (self w)) (scene env) eid
                   (Config.image_dir (config (self w)))
                   (Config.burst_size (config (self w))) (fs w) in
      match out.2 with
      | inl e => with_fs w2 out.1
      | inr imgs => with_fs (with_db w2 (with_prefix env w imgs k (db w2))) out.1
      end).
  { intros w2 Hcfg Hcamera Hcrate Hfs Hev Him.
    rewrite capture_images_killed_spec. cbv zeta. rewrite Hcfg, Hcamera, Hfs.
    destruct (dispatch_capture_burst _ _ _ _ _ _) as [f' [e|imgs]] eqn:Hout;
      cbn [fst snd]; [done|].
    destruct (dispatch_artifacts (camera (self w)) (scene env) eid
                (Config.image_dir (config (self w)))
                (Config.burst_size (config (self w))) (fs w) imgs) as [Hsub _].
    { by rewrite Hout. }
    rewrite insert_images_fresh.
    - unfold with_prefix, event_record. fold eid. rewrite Hcfg.
      destruct w2 as [s2 d2 f2]. done.
    - rewrite fmap_take. eapply sublist_seq_NoDup.
      etrans; [apply sublist_take|exact Hsub].
    - cbn [db with_db with_fs images insert_event with_events]. rewrite Him.
      intros r Hr Heid. rewrite Forall_forall in Hown.
      assert (event_local_id r ≤ _event_counter (self w)).
      { apply Hown. unfold owners. by apply list_elem_of_fmap_2. }
      subst eid. lia. }
  destruct (sensor (self w)) as [s|] eqn:Hsensor.
  - cbv zeta. destruct (Sensors.read s _ _ _) as [e|reading] eqn:Hread; [done|].
    unfold insert_sensor_reading. rewrite decide_False.
    2:{ destruct (read_reading_id _ _ _ _ _ Hread) as [Hrid _].
        cbn [reading_id reading_record]. rewrite Hrid. intros Hin.
        rewrite Forall_forall in Hrc. apply Hrc in Hin. subst rid. lia. }
    rewrite Hcam by done. cbv zeta.
    destruct (dispatch_capture_burst _ _ _ _ _ _) as [f' [e|imgs]]; done.
  - rewrite Hcam by done. cbv zeta.
    destruct (dispatch_capture_burst _ _ _ _ _ _) as [f' [e|imgs]]; done.
Qed.

Lemma bursts_ok_within d : bursts_ok d → bursts_within d.
Proof.
  intros [Hown Hcount]. split; [done|].
  eapply Forall_impl; [exact Hcount|]. intros b Hb. simpl in *. lia.
Qed.

Lemma consistent_sound w : consistent w → sound w.
Proof. intros [? ?]. split; [done|by apply bursts_ok_within]. Qed.

Lemma bursts_within_same d d' :
  owners d' = owners d → bursts d' = bursts d → bursts_within d → bursts_within d'.
Proof. unfold bursts_within. by intros -> ->. Qed.

Lemma owners_below w :
  ids_ok w → Forall (λ o, o ∈ (bursts (db w)).*1) (owners (db w)) →
  Forall (λ o, o ≤ _event_counter (self w)) (owners (db w)).
Proof.
  intros (_ & Hec & _) Hown. eapply Forall_impl; [exact Hown|].
  intros o Ho. simpl in Ho. unfold bursts in Ho. rewrite <- list_fmap_compose in Ho.
  rewrite Forall_forall in Hec. by apply Hec.
Qed.

Lemma owners_with_prefix env w imgs k d :
  owners d = owners (db w) →
  owners (with_prefix env w imgs k d)
  = (owners (db w) ++ ((λ _, _event_counter (self w) + 1) <$> take k imgs))%list.
Proof.
  intros Ho. unfold owners, with_prefix. cbn [images with_images].
  rewrite fmap_app. fold (owners d). rewrite Ho. f_equal.
  rewrite <- list_fmap_compose. by apply list_fmap_ext.
Qed.

Lemma bursts_with_prefix env w imgs k d :
  bursts d = bursts (db w) →
  bursts (with_prefix env w imgs k d)
  = (bursts (db w) ++ [(_event_counter (self w) + 1, length imgs)])%list.
Proof.
  intros Hb. unfold bursts, with_prefix. cbn [events with_events with_images].
  rewrite fmap_app. fold (bursts d). by rewrite Hb.
Qed.

(** The rows of the new event among the owners: none before the burst, the
    inserted ones after. *)
Lemma new_owner_count env w imgs k d :
  owners d = owners (db w) →
  Forall (λ o, o ≤ _event_counter (self w)) (owners (db w)) →
  length (filter (λ o, o = _event_counter (self w) + 1)
            (owners (with_prefix env w imgs k d)))
  = length (take k imgs).
Proof.
  intros Ho Hbound. rewrite (owners_with_prefix _ _ _ _ _ Ho).
  rewrite filter_app, length_app, (filter_none _ (owners (db w))).
  - rewrite filter_all; [by rewrite length_fmap|].
    apply Forall_fmap, Forall_forall. by intros img _.
  - eapply Forall_impl; [exact Hbound|]. intros o Ho1. simpl in *. lia.
Qed.

Lemma bursts_within_with_prefix env w imgs k d :
  owners d = owners (db w) → bursts d = bursts (db w) →
  ids_ok w → bursts_within (db w) → bursts_within (with_prefix env w imgs k d).
Proof.
  intros Ho Hb Hids [Hown Hcount].
  pose proof (owners_below w Hids Hown) as Hbound.
  destruct Hids as (_ & Hec & _).
  set (eid := _event_counter (self w) + 1).
  split.
  - rewrite (owners_with_prefix _ _ _ _ _ Ho), (bursts_with_prefix _ _ _ _ _ Hb).
    fold eid. apply Forall_app. split.
    + eapply Forall_impl; [exact Hown|]. intros o Hin. simpl in *.
      rewrite fmap_app. apply elem_of_app. by left.
    + apply Forall_fmap, Forall_forall. intros img _. simpl.
      rewrite fmap_app. apply elem_of_app. right. simpl. left.
  - rewrite (bursts_with_prefix _ _ _ _ _ Hb). fold eid. apply Forall_app. split.
    + rewrite Forall_forall in Hcount. apply Forall_forall. intros b Hin.
      rewrite (owners_with_prefix _ _ _ _ _ Ho). fold eid.
      rewrite filter_app, length_app.
      rewrite (filter_none _ (_ <$> take k imgs)); [simpl; specialize (Hcount b Hin); simpl in Hcount; lia|].
      apply Forall_fmap, Forall_forall. intros img _. simpl.
      assert (Hb1 : b.1 ∈ event_id <$> events (db w)).
      { rewrite <- bursts_ids. by apply list_elem_of_fmap_2. }
      rewrite Forall_forall in Hec. specialize (Hec _ Hb1). subst eid. lia.
    + constructor; [|constructor]. simpl. unfold eid.
      rewrite (new_owner_count _ _ _ _ _ Ho Hbound), length_take. lia.
Qed.

Lemma with_reading_shape env w :
  owners (with_reading env w) = owners (db w) ∧
  bursts (with_reading env w) = bursts (db w).
Proof.
  unfold with_reading. destruct (sensor (self w)); [|done].
  by destruct (Sensors.read _ _ _ _).
Qed.

Lemma bursts_within_cut env k w :
  ids_ok w → bursts_within (db w) → bursts_within (db (capture_cut env k w)).
Proof.
  intros Hids Hb. unfold capture_cut.
  destruct (with_reading_shape env w) as [Hro Hrb].
  destruct (sensor_result env w); [done|].
  destruct (burst env w).2 as [e|imgs]; cbn [db with_fs with_db].
  - by apply (bursts_within_same (db w)).
  - by apply bursts_within_with_prefix.
Qed.

(** A kill changes the image rows only: the device, the events and the
    readings are those of the iteration that runs to its end. *)
Lemma capture_cut_ids env k w :
  self (capture_cut env k w) = self (capture_committed env w) ∧
  events (db (capture_cut env k w)) = events (db (capture_committed env w)) ∧
  readings (db (capture_cut env k w)) = readings (db (capture_committed env w)).
Proof.
  unfold capture_cut, capture_committed. destruct (sensor_result env w); [done|].
  by destruct (burst env w).2.
Qed.

Lemma ids_ok_cut env k w : sound w → ids_ok (capture_cut env k w).
Proof.
  intros [Hids [Hown _]].
  assert (Htick : ids_ok (capture_committed env w)).
  { pose proof (capture_tick_ids_ok env w Hids) as Hok.
    change (step w (CaptureTick env)) with (capture_once env w).1 in Hok.
    by rewrite (capture_once_committed env w Hids (owners_below w Hids Hown)) in Hok. }
  destruct (capture_cut_ids env k w) as (Hs & He & Hr).
  unfold ids_ok. by rewrite Hs, He, Hr.
Qed.

Lemma cut_sound env k w : sound w → sound (capture_cut env k w).
Proof.
  intros Hs. split; [by apply ids_ok_cut|].
  destruct Hs as [Hids Hb]. by apply bursts_within_cut.
Qed.

Lemma step_sound t w : sound w → sound (step w t).
Proof.
  intros Hs. destruct t as [env|srv|srv|now|boot] eqn:Ht.
  - destruct Hs as [Hids [Hown Hcount]].
    split; [by apply capture_tick_ids_ok|].
    change (step w (CaptureTick env)) with (capture_once env w).1.
    rewrite (capture_once_committed env w Hids (owners_below w Hids Hown)).
    cbn [fst]. destruct (burst env w).2 as [e|imgs] eqn:Hb.
    + unfold capture_committed. rewrite Hb.
      destruct (with_reading_shape env w) as [Hro Hrb].
      destruct (sensor_result env w); [done|]. cbn [db with_fs with_db].
      by apply (bursts_within_same (db w)).
    + rewrite <- (capture_cut_all env w imgs Hb). by apply bursts_within_cut.
  - destruct Hs as [Hids Hb]. split; [by apply step_ids_ok|].
    apply (bursts_within_same (db w)); [by apply quiet_tick_owners
                                       |by apply quiet_tick_shape|done].
  - destruct Hs as [Hids Hb]. split; [by apply step_ids_ok|].
    apply (bursts_within_same (db w)); [by apply quiet_tick_owners
                                       |by apply quiet_tick_shape|done].
  - destruct Hs as [Hids Hb]. split; [by apply step_ids_ok|].
    apply (bursts_within_same (db w)); [by apply quiet_tick_owners
                                       |by apply quiet_tick_shape|done].
  - destruct Hs as [Hids Hb]. split; [by apply step_ids_ok|].
    apply (bursts_within_same (db w)); [by apply quiet_tick_owners
                                       |by apply quiet_tick_shape|done].
Qed.

Lemma happen_killed env k boot w :
  sound w →
  happen w (KilledInBurst env k boot) = step (capture_cut env k w) (Restart boot).
Proof.
  intros [Hids [Hown _]]. cbn [happen]. unfold iteration.
  by rewrite (capture_killed_cut env k w Hids (owners_below w Hids Hown)).
Qed.

Lemma happen_sound h w : sound w → sound (happen w h).
Proof.
  intros Hs. destruct h as [t|env k boot]; [by apply step_sound|].
  rewrite happen_killed by done. by apply step_sound, cut_sound.
Qed.

Lemma history_cons h hs w : history (h :: hs) w = history hs (happen w h).
Proof. reflexivity. Qed.

Lemma history_sound hs : ∀ w, sound w → sound (history hs w).
Proof.
  induction hs as [|h hs IH]; intros w Hs; [done|].
  rewrite history_cons. by apply IH, happen_sound.
Qed.

Lemma history_ticks ticks : ∀ w, history (Ticked <$> ticks) w = run ticks w.
Proof. induction ticks as [|t ticks IH]; intros w; [done|]. simpl. apply IH. Qed.

(** The rows a kill leaves for the event of the burst. *)
Lemma killed_rows env k boot w imgs :
  sound w → sensor_result env w = inr tt → (burst env w).2 = inr imgs →
  let w' := happen w (KilledInBurst env k boot) in
  bursts (db w')
  = (bursts (db w) ++ [(_event_counter (self w) + 1, length imgs)])%list ∧
  length (filter (λ o, o = _event_counter (self w) + 1) (owners (db w')))
  = length (take k imgs).
Proof.
  intros Hs Hsensor Hb w'. subst w'. rewrite happen_killed by done.
  destruct Hs as [Hids [Hown _]].
  rewrite (quiet_tick_owners (Restart boot)) by done.
  destruct (quiet_tick_shape (Restart boot) (capture_cut env k w) I) as [_ ->].
  unfold capture_cut. rewrite Hsensor, Hb. cbn [db with_fs with_db].
  destruct (with_reading_shape env w) as [Hro Hrb]. split.
  - by apply bursts_with_prefix.
  - apply new_owner_count; [done|by apply owners_below].
Qed.

(** A stored event keeps its rows through later ticks: bursts that come
    after it belong to other events. *)
Lemma step_keeps_event t w x n :
  sound w → (x, n) ∈ bursts (db w) →
  (x, n) ∈ bursts (db (step w t)) ∧
  length (filter (λ o, o = x) (owners (db (step w t))))
  = length (filter (λ o, o = x) (owners (db w))).
Proof.
  intros [Hids [Hown Hcount]] Hin.
  assert (Hquiet : match t with CaptureTick _ => False | _ => True end →
            (x, n) ∈ bursts (db (step w t)) ∧
            length (filter (λ o, o = x) (owners (db (step w t))))
            = length (filter (λ o, o = x) (owners (db w)))).
  { intros Hq. rewrite (quiet_tick_owners t w Hq).
    destruct (quiet_tick_shape t w Hq) as [_ ->]. done. }
  destruct t as [env|srv|srv|now|boot]; [|by apply Hquiet..].
  assert (Hx : x ≤ _event_counter (self w)).
  { destruct Hids as (_ & Hec & _). rewrite Forall_forall in Hec. apply Hec.
    rewrite <- bursts_ids. by apply (list_elem_of_fmap_2 fst _ (x, n)). }
  change (step w (CaptureTick env)) with (capture_once env w).1.
  rewrite (capture_once_committed env w Hids (owners_below w Hids Hown)).
  cbn [fst]. unfold capture_committed.
  destruct (with_reading_shape env w) as [Hro Hrb].
  destruct (sensor_result env w); [done|].
  destruct (burst env w).2 as [e|imgs]; cbn [db with_fs with_db].
  - by rewrite Hro, Hrb.
  - rewrite <- with_prefix_all.
    rewrite (owners_with_prefix _ _ _ _ _ Hro), (bursts_with_prefix _ _ _ _ _ Hrb).
    split; [apply elem_of_app; by left|].
    rewrite filter_app, length_app, (filter_none _ (_ <$> _)); [simpl; lia|].
    apply Forall_fmap, Forall_forall. intros img _. simpl. lia.
Qed.

Lemma run_keeps_event later x n : ∀ w,
  sound w → (x, n) ∈ bursts (db w) →
  (x, n) ∈ bursts (db (run later w)) ∧
  length (filter (λ o, o = x) (owners (db (run later w))))
  = length (filter (λ o, o = x) (owners (db w))).
Proof.
  induction later as [|t later IH]; intros w Hs Hin; [done|].
  rewrite run_cons. destruct (step_keeps_event t w x n Hs Hin) as [Hin' Hlen].
  destruct (IH (step w t) (step_sound t w Hs) Hin') as [Hin'' Hlen'].
  split; [done|]. by rewrite Hlen'.
Qed.

(** X15. Through everything that happens to a device (iterations of the
    four loops, restarts between them, and kills of the process in the
    image inserts of a burst followed by a new start) every image row
    belongs to a stored event, no event has more image rows than its
    [burst_size], and no image row belongs to an event above the event
    counter. While no process is killed, every event has exactly
    [burst_size] image rows. A kill after [k] of the inserts of a burst of
    [n] images leaves an event with [burst_size = n] and [k] image rows,
    and no later tick inserts the rows that are missing. *)
Theorem bursts_stay_whole (hs : list Happening) (w : World) :
  sound w →
  let w' := history hs w in
  let d := db w' in
  sound w' ∧
  (∀ r, r ∈ images d → ∃ e, e ∈ events d ∧ event_id e = event_local_id r) ∧
  (∀ e, e ∈ events d →
     (length (filter (λ r, event_local_id r = event_id e) (images d))
      ≤ burst_size e)%nat) ∧
  (∀ r, r ∈ images d → event_local_id r ≤ _event_counter (self w')) ∧
  (∀ ticks, hs = Ticked <$> ticks → consistent w →
     w' = run ticks w ∧
     ∀ e, e ∈ events d →
       burst_size e
       = length (filter (λ r, event_local_id r = event_id e) (images d))) ∧
  (∀ env k boot imgs later,
     sensor_result env w' = inr tt → (burst env w').2 = inr imgs →
     let eid := _event_counter (self w') + 1 in
     let d2 := db (history (KilledInBurst env k boot :: (Ticked <$> later)) w') in
     ∃ e, e ∈ events d2 ∧ event_id e = eid ∧ burst_size e = length imgs ∧
          length (filter (λ r, event_local_id r = eid) (images d2))
          = Nat.min k (length imgs)).
Proof.
  intros Hs w' d. pose proof (history_sound hs w Hs) as Hs'. fold w' in Hs'.
  split; [done|]. split; [|split; [|split; [|split]]].
  - destruct Hs' as [Hids [Hown Hcount]]. fold d in Hown.
    intros r Hr. rewrite Forall_forall in Hown.
    assert (Hin : event_local_id r ∈ (bursts d).*1).
    { apply Hown. unfold owners. by apply list_elem_of_fmap_2. }
    rewrite bursts_ids in Hin. apply list_elem_of_fmap in Hin as (e & -> & He).
    by exists e.
  - destruct Hs' as [Hids [Hown Hcount]]. fold d in Hcount.
    intros e He. rewrite Forall_forall in Hcount.
    rewrite filter_owner_length.
    apply (Hcount (event_id e, burst_size e)). unfold bursts.
    by apply (list_elem_of_fmap_2 (λ e, (event_id e, burst_size e))).
  - destruct Hs' as [Hids [Hown Hcount]].
    intros r Hr. pose proof (owners_below _ Hids Hown) as Hb.
    rewrite Forall_forall in Hb. apply Hb. unfold owners.
    by apply list_elem_of_fmap_2.
  - clear Hs'. intros ticks -> Hc. subst d w'. rewrite history_ticks.
    split; [done|]. destruct (run_consistent ticks w Hc) as [_ [_ Heq]].
    intros e He. rewrite Forall_forall in Heq. rewrite filter_owner_length.
    apply (Heq (event_id e, burst_size e)). unfold bursts.
    by apply (list_elem_of_fmap_2 (λ e, (event_id e, burst_size e))).
  - intros env k boot imgs later Hsensor Hb eid d2. subst d2.
    rewrite history_cons, history_ticks.
    destruct (killed_rows env k boot w' imgs Hs' Hsensor Hb) as [Hbursts Hrows].
    fold eid in Hbursts, Hrows.
    pose proof (happen_sound (KilledInBurst env k boot) w' Hs') as Hs2.
    set (w2 := happen w' (KilledInBurst env k boot)) in *.
    destruct (run_keeps_event later eid (length imgs) w2 Hs2) as [Hin Hlen].
    { rewrite Hbursts. apply elem_of_app. right. left. }
    unfold bursts in Hin. apply list_elem_of_fmap in Hin as (e & Heq & He).
    injection Heq as Hid Hsize. exists e. split; [done|]. split; [done|].
    split; [done|]. rewrite filter_owner_length. fold (owners (db (run later w2))).
    rewrite Hlen, Hrows. apply length_take.
Qed.
End interrupted_bursts.

Section metadata_before_binary.
Context `{Runtime}.

Lemma metadata_first_set_flags r m u x c :
  (u = true ∨ c = true → m = true) → metadata_first (set_flags r m u x c).
Proof. done. Qed.

Lemma sync_tick_metadata_first srv w :
  store_ok (db w) → Forall metadata_first (images (db w)) →
  Forall metadata_first (images (db (step w (SyncTick srv)))).
Proof.
  intros Hok Hall. simpl. unfold iteration.
  rewrite sync_once_spec, sync_images_unfold.
  destruct (sync_events_effect srv w) as (_ & _ & _ & _ & _ & Hdb1).
  set (w1 := (sync_events srv w).1) in *.
  destruct (sync_readings_effect srv w1) as (_ & _ & _ & _ & Hi2 & _).
  set (w2 := (sync_readings srv w1).1) in *.
  assert (Hall1 : Forall metadata_first (images (db w1))).
  { destruct Hdb1 as [->| ->]; [done|]. simpl. apply Forall_fmap.
    eapply Forall_impl; [exact Hall|]. intros r Hr. simpl.
    destruct (decide _); [|done]. by apply metadata_first_set_flags. }
  assert (Hok1 : store_ok (db w1)).
  { destruct Hdb1 as [->| ->]; [done|].
    apply (store_ok_pointwise (db w)); [done|]. intros id. simpl.
    rewrite list_lookup_fmap. destruct (images (db w) !! id) as [r|]; constructor.
    destruct (decide _); done. }
  assert (Hok2 : store_ok (db w2)) by (by apply (store_ok_same_images (db w1))).
  set (l := get_unsynced_images (db w2) 3).
  destruct (sync_images_loop srv l w2 Hok2 (NoDup_unsynced_images _ _))
    as (_ & Hother & Hbatch).
  { intros id r Hin. apply unsynced_images_sound in Hin as [Hr (_ & Hu & Hc)]. done. }
  apply Forall_lookup. intros id r' Hr'.
  destruct (decide (id ∈ l.*1)) as [Hin|Hnot].
  - apply list_elem_of_fmap in Hin as ([id0 r] & -> & Hin). simpl in Hr'.
    rewrite (Hbatch _ _ Hin) in Hr'. injection Hr' as <-.
    apply unsynced_images_sound in Hin as [_ (Hm & _ & _)].
    destruct (upload_ok _ _ _ _); by apply metadata_first_set_flags.
  - rewrite (Hother id Hnot), Hi2 in Hr'.
    rewrite Forall_lookup in Hall1. by apply (Hall1 id).
Qed.

Lemma fresh_rows_unsent (new : list CapturedImageRecord) :
  (new = [] ∨ ∃ (imgs : list Camera.CapturedImage) (k : nat) eid,
                new = image_record eid <$> take k imgs) →
  Forall metadata_first new.
Proof.
  intros [->|(imgs & k & eid & ->)]; [constructor|].
  apply Forall_fmap, Forall_forall. intros img _. simpl. by intros [?|?].
Qed.

Lemma step_metadata_first t w :
  store_ok (db w) → Forall metadata_first (images (db w)) →
  Forall metadata_first (images (db (step w t))).
Proof.
  intros Hok Hall. destruct t as [env|srv|srv|now|boot].
  - change (step w (CaptureTick env)) with (capture_once env w).1.
    destruct (capture_once_effect env w)
      as (_ & _ & _ & _ & _ & _ & _ & _ & _ & _ & _ & (new & -> & _ & Hnew) & _).
    apply Forall_app. split; [done|]. apply fresh_rows_unsent.
    destruct Hnew as [->|(imgs & k & _ & _ & ->)]; [by left|right; eauto].
  - destruct (heartbeat_tick_effect srv w) as (_ & _ & _ & _ & _ & ->). done.
  - by apply sync_tick_metadata_first.
  - destruct (cleanup_tick_effect now w) as (_ & _ & _ & _ & _ & _ & Hpt).
    apply Forall_lookup. intros id r' Hr'. rewrite Forall_lookup in Hall.
    destruct (Hpt id) as [Heq|(r & Hr & Hd)].
    + rewrite Heq in Hr'. by apply (Hall id).
    + rewrite Hd in Hr'. injection Hr' as <-. apply (Hall id) in Hr. exact Hr.
  - change (step w (Restart boot)) with (restart boot w).
    destruct (restart_effect boot w) as (_ & _ & _ & -> & _). done.
Qed.

(** X18. From an empty image table on, an image row is marked uploaded
    or corrupted only when its metadata is marked uploaded, and a row whose
    metadata is not uploaded is in no batch of the binary upload. *)
Theorem no_binary_before_metadata (ticks : list Tick) (w : World)
    (id : nat) (r : CapturedImageRecord) :
  images (db w) = [] →
  images (db (run ticks w)) !! id = Some r →
  (uploaded r = true → metadata_uploaded r = true) ∧
  (corrupted r = true → metadata_uploaded r = true) ∧
  (metadata_uploaded r = false → ∀ limit x, (id, x) ∉ get_unsynced_images (db (run ticks w)) limit).
Proof.
  intros Hempty Hr.
  assert (Hinv : ∀ ticks w, store_ok (db w) → Forall metadata_first (images (db w)) →
            Forall metadata_first (images (db (run ticks w)))).
  { clear. intros ticks. induction ticks as [|t ticks IH]; intros w Hok Hall; [done|].
    rewrite run_cons. apply IH; [by apply step_store_ok|by apply step_metadata_first]. }
  assert (Hall : Forall metadata_first (images (db (run ticks w)))).
  { apply Hinv; [by apply (store_ok_same_images Store.empty), store_ok_empty|].
    rewrite Hempty. constructor. }
  rewrite Forall_lookup in Hall. specialize (Hall id r Hr).
  split; [intros; apply Hall; by left|]. split; [intros; apply Hall; by right|].
  intros Hm limit x Hin. apply unsynced_images_sound in Hin as [Hx (Hmx & _)].
  congruence.
Qed.
End metadata_before_binary.

Section file_names.
Context `{Runtime}.




End file_names.

Section files_of_rows.
Context `{Runtime}.



End files_of_rows.

Section sensors.
Context `{Runtime}.

(** X10. When the DHT22 read gives no humidity or no temperature,
    [read] raises [RuntimeError] and the tick ends there: the camera is not
    run, nothing is stored or written, and the only change is that both
    counters have advanced. *)
Theorem failed_sensor_read_skips_burst (env : CaptureEnv) (w : World)
    (d : Sensors.DHT22Sensor) :
  sensor (self w) = Some (Sensors.DHT22 d) →
  (Sensors.read_retry (air env)).1 = None ∨ (Sensors.read_retry (air env)).2 = None →
  (capture_once env w).2 = inl RuntimeError ∧
  step w (CaptureTick env) =
    with_counters w (_event_counter (self w) + 1) (_reading_counter (self w) + 1).
Proof.
  intros Hs Hfail.
  change (step w (CaptureTick env)) with (capture_once env w).1.
  rewrite capture_once_spec. cbv zeta. rewrite capture_reading_spec.
  cbn [self with_counters sensor _reading_counter _event_counter crate_id db].
  rewrite Hs. cbv zeta. cbn [Sensors.read]. unfold Sensors.dht22_read.
  destruct (Sensors.read_retry (air env)) as [[h|] [t|]]; simpl in Hfail;
    try (by destruct Hfail); done.
Qed.

Lemma init_sensor_disabled c boot :
  Config.sensor_enabled c = false → _init_sensor c boot = None.
Proof. unfold _init_sensor. by intros ->. Qed.

Lemma restart_sensor boot w :
  restart boot w = w ∨
  sensor (self (restart boot w)) = _init_sensor (config (self w)) boot.
Proof.
  unfold restart, startup. destruct (_ensure_crate _ _) as [e|[d1 cid]]; [by left|].
  destruct (_init_camera _); [by left|by right].
Qed.

Lemma step_sensor_off t w :
  Config.sensor_enabled (config (self w)) = false → sensor (self w) = None →
  sensor (self (step w t)) = None ∧
  readings (db (step w t)) = readings (db w) ∨
  sensor (self (step w t)) = None ∧
  reading_id <$> readings (db (step w t)) = reading_id <$> readings (db w) ∧
  length (readings (db (step w t))) = length (readings (db w)).
Proof.
  intros Hoff Hnone. destruct t as [env|srv|srv|now|boot].
  - left. change (step w (CaptureTick env)) with (capture_once env w).1.
    destruct (capture_once_effect env w)
      as (_ & _ & _ & Hsen & _ & _ & _ & _ & _ & _ & Hrd & _).
    split; [by rewrite Hsen|].
    destruct Hrd as [?|(reading & _ & [s Hs] & _)]; [done|congruence].
  - left. destruct (heartbeat_tick_effect srv w) as (Hs & _ & _ & _ & Hr & _).
    by rewrite Hs, Hr.
  - right. destruct (sync_tick_effect srv w) as (Hs & _ & _ & _ & _ & Hr & _).
    split; [by rewrite Hs|]. split; [done|].
    by rewrite <- (length_fmap reading_id), Hr, length_fmap.
  - left. destruct (cleanup_tick_effect now w) as (Hs & _ & _ & _ & Hr & _).
    by rewrite Hs, Hr.
  - left. change (step w (Restart boot)) with (restart boot w).
    destruct (restart_effect boot w) as (_ & _ & Hr & _). split; [|done].
    destruct (restart_sensor boot w) as [->| ->]; [done|].
    by apply init_sensor_disabled.
Qed.

(** X11. A device whose configuration has [sensor_enabled] false, and
    which has no sensor, stays without one through every run of ticks,
    restarts included: no reading identifier is allocated and the readings
    table keeps the number and the identifiers of its rows. *)
Theorem disabled_sensor_stores_no_reading (ticks : list Tick) (w : World) :
  Config.sensor_enabled (config (self w)) = false → sensor (self w) = None →
  sensor (self (run ticks w)) = None ∧
  reading_id <$> readings (db (run ticks w)) = reading_id <$> readings (db w) ∧
  length (readings (db (run ticks w))) = length (readings (db w)) ∧
  allocated_readings ticks w = [].
Proof.
  revert w. induction ticks as [|t ticks IH]; intros w Hoff Hnone; [done|].
  rewrite run_cons.
  assert (Hstep : sensor (self (step w t)) = None ∧
            reading_id <$> readings (db (step w t)) = reading_id <$> readings (db w) ∧
            length (readings (db (step w t))) = length (readings (db w))).
  { destruct (step_sensor_off t w Hoff Hnone) as [[? ->]|(? & ? & ?)]; done. }
  destruct Hstep as (Hs & Hids & Hlen).
  destruct (IH (step w t)) as (Hs' & Hids' & Hlen' & Hal); [by rewrite step_config|done|].
  split; [done|]. split; [congruence|]. split; [congruence|].
  cbn [allocated_readings]. rewrite Hnone. by destruct t.
Qed.
End sensors.

Section start.
Context `{Runtime}.

Lemma ensure_crate_spec c d :
  _ensure_crate c d =
    match crate_of c with
    | Some row => inr (insert_crate d row)
    | None => inl ValueError
    end.
Proof.
  unfold _ensure_crate, crate_of. destruct (Config.crate c) as [cr|]; [|done].
  by destruct (Config.id cr), (Config.label cr), (Config.started_at cr).
Qed.





(** X13. Starting is idempotent on the store: a start on the store and
    the disk that a successful start has left gives the same device again.
    The crate row of the configuration is in the store afterwards, appended
    at most once, and no crate row that was there is lost. *)
Theorem second_start_changes_nothing (c : Config.Config) (boot : Boot)
    (d : Database) (f : FS) (w : World) :
  startup c boot d f = inr w →
  startup c boot (db w) (fs w) = inr w ∧
  (∃ row, crate_of c = Some row ∧ crate_id (self w) = crate_pk row ∧
     crate_pk row ∈ crate_pk <$> crates (db w) ∧
     (crates (db w) = crates d ∨ crates (db w) = (crates d ++ [row])%list)) ∧
  (∀ row, row ∈ crates d → row ∈ crates (db w)).
Proof.
  unfold startup. rewrite !ensure_crate_spec.
  destruct (crate_of c) as [row|] eqn:Hrow; [|done].
  destruct (_init_camera c) as [e|cam] eqn:Hcam.
  { by destruct (insert_crate d row). }
  unfold insert_crate at 1. destruct (decide (crate_pk row ∈ crate_pk <$> crates d))
    as [Hin|Hnin]; intros [= <-]; cbn [db fs self crate_id].
  - split.
    + unfold insert_crate. by rewrite decide_True.
    + split; [|done]. exists row. split; [done|]. split; [done|]. split; [done|by left].
  - assert (Hnow : crate_pk row ∈ crate_pk <$> crates (with_crates d (crates d ++ [row]))).
    { simpl. rewrite fmap_app. apply elem_of_app. right. simpl. left. }
    split.
    + unfold insert_crate. by rewrite decide_True.
    + split.
      * exists row. split; [done|]. split; [done|]. split; [done|by right].
      * intros r Hr. simpl. apply elem_of_app. by left.
Qed.
End start.

Section watermark.
Context `{Runtime}.

Lemma heartbeat_stores srv w status fields v :
  heartbeat_reply srv (Config.device_id (config (self w)))
    (_get_max_id (db w) capture_events_local)
    = Client.Response status (Some (JObj fields)) →
  ¬ (400 ≤ status < 600) →
  Client.dict_get fields Client.watermark_key = Some v → v ≠ JNull →
  step w (HeartbeatTick srv)
    = with_db w (set_state_value (db w) Client.watermark_key (py_str v)).
Proof.
  intros Hreply Hst Hf Hv. simpl. unfold iteration. rewrite heartbeat_once_spec.
  by rewrite Hreply, (send_heartbeat_success _ _ _ Hst Hf Hv).
Qed.

(** X23. The watermark survives its storage as text: when a heartbeat
    reply carries the integer [z], and [int(str(z))] is [z], the next cleanup
    tick works with [z]. Rows of events above [z] are left unchanged; every
    candidate belongs to an event of at most [z] and, unless its file cannot
    be removed, is marked deleted and its file is gone. *)
Theorem watermark_read_back (srv : Server) (w : World) (now z : Z)
    (status : Z) (fields : list (string * json)) :
  py_int (py_str (JInt z)) = Some z →
  heartbeat_reply srv (Config.device_id (config (self w)))
    (_get_max_id (db w) capture_events_local)
    = Client.Response status (Some (JObj fields)) →
  ¬ (400 ≤ status < 600) →
  Client.dict_get fields Client.watermark_key = Some (JInt z) →
  let w2 := step (step w (HeartbeatTick srv)) (CleanupTick now) in
  (∀ id r, images (db w) !! id = Some r → z < event_local_id r →
           images (db w2) !! id = Some r) ∧
  (∀ id r,
     (id, r) ∈ get_cleanup_candidates (db w) z
                 (Config.retention_days (config (self w))) 20 now →
     event_local_id r ≤ z ∧
     (¬ stuck (fs w) (local_path r) →
        images (db w2) !! id = Some (set_deleted r) ∧
        files (fs w2) !! local_path r = None)).
Proof.
  intros Hround Hreply Hst Hf w2. subst w2.
  rewrite (heartbeat_stores _ _ _ _ _ Hreply Hst Hf) by done.
  set (w1 := with_db w _).
  assert (Hk : get_state_value (db w1) Client.watermark_key = Some (py_str (JInt z))).
  { unfold get_state_value. simpl. apply lookup_insert_eq. }
  simpl. unfold iteration. rewrite (cleanup_once_present _ _ _ _ Hk Hround).
  change (images (db w1)) with (images (db w)).
  assert (Hl : get_cleanup_candidates (db w1) z
                 (Config.retention_days (config (self w1))) 20 now
             = get_cleanup_candidates (db w) z
                 (Config.retention_days (config (self w))) 20 now) by done.
  rewrite Hl. set (l := get_cleanup_candidates _ _ _ _ _).
  assert (Hsound : ∀ id r, (id, r) ∈ l →
            images (db w) !! id = Some r ∧
            cleanup_eligible z (Config.retention_days (config (self w))) now r).
  { intros id r. apply candidates_sound. }
  destruct (cleanup_loop_spec l w1 (NoDup_candidates _ _ _ _ _)
              (λ id r Hin, proj1 (Hsound id r Hin)) _ eq_refl)
    as (_ & _ & _ & _ & _ & _ & _ & Hother & _ & Hcand).
  split.
  - intros id r Hr Hgt. rewrite Hother; [done|].
    intros (x & Hid & Hin)%list_elem_of_fmap. destruct x as [id' r']. simpl in Hid.
    subst id'. destruct (Hsound id r' Hin) as [Hr' (_ & Hle & _)].
    rewrite Hr in Hr'. simplify_eq. lia.
  - intros id r Hin. destruct (Hsound id r Hin) as [_ (_ & Hle & _)].
    split; [done|]. intros Hfree. by apply (Hcand id r Hin).
Qed.

(** X24. The heartbeat stores whatever [str] makes of the watermark it
    receives. When that text is no integer literal, a cleanup tick on the
    resulting store, at any time, raises [ValueError] and changes
    nothing. *)
Theorem unreadable_watermark_stops_cleanup (srv : Server) (w : World)
    (status : Z) (fields : list (string * json)) (v : json) :
  heartbeat_reply srv (Config.device_id (config (self w)))
    (_get_max_id (db w) capture_events_local)
    = Client.Response status (Some (JObj fields)) →
  ¬ (400 ≤ status < 600) →
  Client.dict_get fields Client.watermark_key = Some v → v ≠ JNull →
  py_int (py_str v) = None →
  let w1 := step w (HeartbeatTick srv) in
  get_state_value (db w1) Client.watermark_key = Some (py_str v) ∧
  (∀ now, (cleanup_once now w1).2 = inl ValueError ∧
          step w1 (CleanupTick now) = w1).
Proof.
  intros Hreply Hst Hf Hv Hbad w1. subst w1.
  rewrite (heartbeat_stores _ _ _ _ _ Hreply Hst Hf Hv).
  set (w1 := with_db w _).
  assert (Hk : get_state_value (db w1) Client.watermark_key = Some (py_str v)).
  { unfold get_state_value. simpl. apply lookup_insert_eq. }
  split; [done|]. intros now. simpl. unfold iteration.
  by rewrite (cleanup_once_unreadable _ _ _ Hk Hbad).
Qed.
End watermark.

Section batches.
Context `{Runtime}.

(** X25. One cleanup tick works on at most 20 rows, each recorded as
    having its file: only these rows and the files at their paths can change,
    and events, readings, the sync state and the device object stay as they
    are. *)
Theorem cleanup_batch_is_bounded (now : Z) (w : World) :
  let w' := step w (CleanupTick now) in
  ∃ batch : list (nat * CapturedImageRecord),
    (length batch ≤ 20)%nat ∧
    (∀ id r, (id, r) ∈ batch →
       images (db w) !! id = Some r ∧ local_exists r = true) ∧
    (∀ id, images (db w') !! id ≠ images (db w) !! id → id ∈ batch.*1) ∧
    (∀ p, files (fs w') !! p ≠ files (fs w) !! p → p ∈ local_path <$> batch.*2) ∧
    events (db w') = events (db w) ∧ readings (db w') = readings (db w) ∧
    state (db w') = state (db w) ∧ self w' = self w.
Proof.
  simpl. unfold iteration.
  destruct (get_state_value (db w) Client.watermark_key) as [s|] eqn:Hk.
  2:{ rewrite (cleanup_once_absent _ _ Hk). exists []. simpl.
      split; [lia|]. split; [by intros ? ? ?%elem_of_nil|]. done. }
  destruct (py_int s) as [safe|] eqn:Hp.
  2:{ rewrite (cleanup_once_unreadable _ _ _ Hk Hp). exists []. simpl.
      split; [lia|]. split; [by intros ? ? ?%elem_of_nil|]. done. }
  rewrite (cleanup_once_present _ _ _ _ Hk Hp).
  set (l := get_cleanup_candidates _ _ _ _ _).
  assert (Hsound : ∀ id r, (id, r) ∈ l →
            images (db w) !! id = Some r ∧
            cleanup_eligible safe (Config.retention_days (config (self w))) now r).
  { intros id r. apply candidates_sound. }
  destruct (cleanup_loop_spec l w (NoDup_candidates _ _ _ _ _)
              (λ id r Hin, proj1 (Hsound id r Hin)) _ eq_refl)
    as (_ & Hs & _ & _ & He & Hr & Hst & Hother & Hfiles & _).
  exists l. split.
  { unfold l, get_cleanup_candidates. rewrite length_take. lia. }
  split.
  { intros id r Hin. destruct (Hsound id r Hin) as [? (? & _)]. done. }
  split.
  { intros id Hne. destruct (decide (id ∈ l.*1)); [done|]. destruct Hne. by apply Hother. }
  split; [|done].
  intros p Hne. destruct (Hfiles p) as [?|(_ & _ & id & r & Hin & <-)]; [done|].
  apply list_elem_of_fmap. exists r. split; [done|].
  apply list_elem_of_fmap. by exists (id, r).
Qed.

(** X21. When every metadata call fails, a sync tick is its image phase
    alone: events and readings are left as they are, and each of the images
    that wait for the binary upload, up to three, is still attempted and
    marked uploaded or corrupted by the outcome. *)
Theorem metadata_failure_leaves_uploads_running (srv : Server) (w : World) :
  (∀ payload, metadata_reply srv payload = Client.Unreachable ∨
              rejected (metadata_reply srv payload)) →
  step w (SyncTick srv) = (sync_images srv w).1 ∧
  events (db (step w (SyncTick srv))) = events (db w) ∧
  readings (db (step w (SyncTick srv))) = readings (db w) ∧
  ∀ id r, (id, r) ∈ get_unsynced_images (db w) 3 → store_ok (db w) →
    images (db (step w (SyncTick srv))) !! id =
      Some (if upload_ok srv (Config.device_id (config (self w))) (fs w) r
            then set_uploaded r else set_corrupted r).
Proof.
  intros Hfail.
  assert (Hstep : step w (SyncTick srv) = (sync_images srv w).1).
  { simpl. unfold iteration. rewrite sync_once_spec.
    assert (He : sync_events srv w = (w, inr tt)).
    { rewrite sync_events_spec. cbv zeta. destruct (get_unsynced_events _ _); [done|].
      by rewrite (upload_metadata_failed _ (Hfail _)). }
    rewrite He. cbn [fst].
    assert (Hr : sync_readings srv w = (w, inr tt)).
    { rewrite sync_readings_spec. cbv zeta. destruct (get_sensor_readings _ _ _); [done|].
      by rewrite (upload_metadata_failed _ (Hfail _)). }
    by rewrite Hr. }
  rewrite Hstep. split; [done|]. rewrite sync_images_unfold.
  destruct (sync_images_frame srv (get_unsynced_images (db w) 3) w)
    as (_ & _ & _ & _ & He & Hr & _).
  split; [done|]. split; [done|].
  intros id r Hin Hok.
  destruct (sync_images_loop srv (get_unsynced_images (db w) 3) w Hok
              (NoDup_unsynced_images _ _)) as (_ & _ & Hbatch).
  { intros id' r' Hin'. apply unsynced_images_sound in Hin' as [? (_ & ? & ?)]. done. }
  by apply Hbatch.
Qed.
End batches.

Section queues.
Context `{Runtime}.

(** Marking the first [n] rows of a queue, by identifier, takes exactly
    these rows out of it. *)
Lemma queue_drop {A} (ident : A → Z) (waits : A → Prop) `{!∀ x, Decision (waits x)}
    (mark : A → A) (ids : list Z) (l : list A) : ∀ n,
  (∀ x, ¬ waits (mark x)) → NoDup l →
  (∀ x, x ∈ l → ident x ∈ ids ↔ x ∈ take n (filter waits l)) →
  filter waits ((λ x, if decide (ident x ∈ ids) then mark x else x) <$> l)
  = drop n (filter waits l).
Proof.
  intros n Hmark. revert n. induction l as [|x l IH]; intros n Hnd Hids.
  - by destruct n.
  - apply NoDup_cons in Hnd as [Hx Hnd]. rewrite fmap_cons, filter_cons.
    destruct (decide (waits x)) as [Hw|Hw].
    + rewrite (filter_cons_True waits x l Hw) in Hids |- *. destruct n as [|n].
      * assert (ident x ∉ ids) as Hno.
        { intros Hin. apply (Hids x) in Hin; [|left]. by apply elem_of_nil in Hin. }
        rewrite (decide_False (P := ident x ∈ ids)) by done.
        rewrite decide_True by done.
        rewrite (IH 0%nat); [done|done|].
        intros y Hy. rewrite (Hids y) by (by right). done.
      * assert (ident x ∈ ids) as Hyes.
        { apply (Hids x); [left|]. simpl. left. }
        rewrite (decide_True (P := ident x ∈ ids)) by done.
        rewrite decide_False by apply Hmark.
        simpl. apply IH; [done|]. intros y Hy. rewrite (Hids y) by (by right).
        simpl. rewrite elem_of_cons. split; [|by right].
        intros [->|?]; [done|done].
    + rewrite (filter_cons_False waits x l Hw) in Hids |- *.
      rewrite decide_False.
      * apply IH; [done|]. intros y Hy. apply Hids. by right.
      * destruct (decide _); [apply Hmark|done].
Qed.

Lemma queue_batch_ids {A} (ident : A → Z) (l batch : list A) :
  NoDup (ident <$> l) → batch ⊆ l →
  ∀ x, x ∈ l → ident x ∈ ident <$> batch ↔ x ∈ batch.
Proof.
  intros Hnd Hsub x Hx. split; [|apply list_elem_of_fmap_2].
  intros (y & Heq & Hy)%list_elem_of_fmap.
  assert (x = y) as ->; [|done].
  apply list_elem_of_lookup in Hx as [i Hi].
  apply Hsub, list_elem_of_lookup in Hy as [j Hj].
  assert (i = j) as ->; [|congruence].
  eapply (NoDup_lookup _ _ _ (ident x) Hnd).
  - by rewrite list_lookup_fmap, Hi.
  - rewrite list_lookup_fmap, Hj. simpl. by rewrite Heq.
Qed.

Lemma sync_tick_readings_after srv w :
  readings (db (step w (SyncTick srv))) = readings (db (sync_readings srv (sync_events srv w).1).1).
Proof.
  simpl. unfold iteration. rewrite sync_once_spec, sync_images_unfold.
  by destruct (sync_images_frame srv
                 (get_unsynced_images (db (sync_readings srv (sync_events srv w).1).1) 3)
                 (sync_readings srv (sync_events srv w).1).1)
    as (_ & _ & _ & _ & _ & -> & _).
Qed.

(** X19. The event batch of a sync tick is the five oldest events that
    wait for their metadata upload. When the server accepts the batch,
    exactly these leave the queue, so the next batch starts at the sixth;
    when the call fails, the queue is as before. *)
Theorem accepted_events_leave_the_queue (srv : Server) (w : World) :
  NoDup (event_id <$> events (db w)) →
  let batch := get_unsynced_events (db w) 5 in
  let reply := metadata_reply srv
                 (event_meta (Config.device_id (config (self w))) (db w) <$> batch) in
  let w' := step w (SyncTick srv) in
  batch = take 5 (event_queue (db w)) ∧
  (accepted reply →
     event_queue (db w') = drop 5 (event_queue (db w)) ∧
     (∀ limit, get_unsynced_events (db w') limit
               = take limit (drop 5 (event_queue (db w)))) ∧
     length (event_queue (db w')) = (length (event_queue (db w)) - 5)%nat) ∧
  (reply = Client.Unreachable ∨ rejected reply →
     event_queue (db w') = event_queue (db w)).
Proof.
  intros Hnd batch reply w'. split; [done|].
  destruct (sync_tick_after_events srv w) as [Hev _]. fold w' in Hev.
  assert (Hspec := sync_events_spec srv w). cbv zeta in Hspec.
  fold batch in Hspec. fold reply in Hspec.
  assert (Hq : ∀ d, events d = events (db w') → event_queue d = event_queue (db w'))
    by (intros d Hd; unfold event_queue; by rewrite Hd).
  split.
  - intros Hacc. rewrite (upload_metadata_accepted _ Hacc) in Hspec.
    assert (Hdrop : event_queue (db w') = drop 5 (event_queue (db w))).
    { assert (Hw1 : events (db (sync_events srv w).1)
                    = events (mark_events (event_id <$> batch) (db w))).
      { rewrite Hspec. destruct batch; [by rewrite mark_events_nil|done]. }
      unfold event_queue at 1. rewrite Hev, Hw1. cbn [events mark_events].
      apply queue_drop; [done|by eapply NoDup_fmap_1|].
      intros e He. apply (queue_batch_ids event_id (events (db w))); [done| |done].
      intros x Hx. apply subseteq_take in Hx. by apply list_elem_of_filter in Hx as [_ ?]. }
    split; [done|]. split.
    + intros limit. unfold get_unsynced_events. fold (event_queue (db w')).
      by rewrite Hdrop.
    + by rewrite Hdrop, length_drop.
  - intros Hfail. rewrite (upload_metadata_failed _ Hfail) in Hspec.
    unfold event_queue. rewrite Hev, Hspec. by destruct batch.
Qed.

(** X20. The reading batch of a sync tick is the ten oldest readings
    that wait for their upload. When the server accepts the batch, exactly
    these leave the queue; when the call fails, the queue is as before. *)
Theorem accepted_readings_leave_the_queue (srv : Server) (w : World) :
  NoDup (reading_id <$> readings (db w)) →
  let batch := get_sensor_readings (db w) false 10 in
  let reply := metadata_reply srv
                 (reading_meta (Config.device_id (config (self w))) <$> batch) in
  let w' := step w (SyncTick srv) in
  batch = take 10 (reading_queue (db w)) ∧
  (accepted reply →
     reading_queue (db w') = drop 10 (reading_queue (db w)) ∧
     length (reading_queue (db w')) = (length (reading_queue (db w)) - 10)%nat) ∧
  (reply = Client.Unreachable ∨ rejected reply →
     reading_queue (db w') = reading_queue (db w)).
Proof.
  intros Hnd batch reply w'. split; [done|].
  assert (Hrd := sync_tick_readings_after srv w). fold w' in Hrd.
  destruct (sync_events_effect srv w) as (Hs1 & _ & _ & Hr1 & _).
  set (w1 := (sync_events srv w).1) in *.
  assert (Hb : get_sensor_readings (db w1) false 10 = batch).
  { unfold batch, get_sensor_readings. by rewrite Hr1. }
  assert (Hspec := sync_readings_spec srv w1). cbv zeta in Hspec.
  rewrite Hb, Hs1 in Hspec. fold reply in Hspec.
  split.
  - intros Hacc. rewrite (upload_metadata_accepted _ Hacc) in Hspec.
    assert (Hdrop : reading_queue (db w') = drop 10 (reading_queue (db w))).
    { assert (Hw2 : readings (db (sync_readings srv w1).1)
                    = readings (mark_readings (reading_id <$> batch) (db w1))).
      { rewrite Hspec. destruct batch; [by rewrite mark_readings_nil|done]. }
      unfold reading_queue at 1. rewrite Hrd, Hw2.
      cbn [readings mark_readings with_readings]. rewrite Hr1.
      apply queue_drop; [done|by eapply NoDup_fmap_1|].
      intros e He. apply (queue_batch_ids reading_id (readings (db w))); [done| |done].
      intros x Hx. apply subseteq_take in Hx. by apply list_elem_of_filter in Hx as [_ ?]. }
    split; [done|]. by rewrite Hdrop, length_drop.
  - intros Hfail. rewrite (upload_metadata_failed _ Hfail) in Hspec.
    unfold reading_queue. rewrite Hrd, Hspec. destruct batch; cbn [fst]; by rewrite Hr1.
Qed.
End queues.

Section cameras.
Context `{Runtime}.

(** X7. When [libcamera-still] exits without error,
    [RpiCamera.capture_burst] returns one artifact for every index below the
    burst size whose file exists after the run, in increasing order, with the
    size and the digest of that file. A missing file is skipped without an
    error, so the burst has at most [n] artifacts, and [n] exactly when every
    file is there. *)
Theorem rpi_burst_returns_the_files_found (cam : Camera.RpiCamera)
    (sc : Camera.Scene) (eid : Z) (dir : string) (n : Z) (f : FS)
    (written : list (string * bytes)) :
  Camera.tool sc = Camera.ToolRan written →
  let f1 := Camera.write_all f written in
  let found := filter (λ i, os_path_exists f1 (frame_path dir eid i))
                 (seq 0 (Z.to_nat n)) in
  Camera.rpi_capture_burst cam sc eid dir n f
    = (f1, inr (rpi_image cam sc eid dir f1 <$> found)) ∧
  (length found ≤ Z.to_nat n)%nat ∧
  (length found = Z.to_nat n ↔
     ∀ i, (i < Z.to_nat n)%nat → is_Some (files f1 !! frame_path dir eid i)) ∧
  (∀ i, i ∈ found →
     (i < Z.to_nat n)%nat ∧
     ∃ data, files f1 !! frame_path dir eid i = Some data ∧
       Camera.size_bytes (rpi_image cam sc eid dir f1 i) = length data ∧
       Camera.sha256_hex (rpi_image cam sc eid dir f1 i) = sha256_hexdigest data).
Proof.
  intros Htool f1 found. split; [|split; [|split]].
  - unfold Camera.rpi_capture_burst. rewrite Htool. fold f1.
    by rewrite rpi_loop_all.
  - unfold found. etrans; [apply length_filter|]. by rewrite length_seq.
  - unfold found. split.
    + intros Hlen i Hi.
      destruct (files f1 !! frame_path dir eid i) as [data|] eqn:Hd; [eauto|].
      exfalso.
      assert (Hlt : (length (filter (λ i, os_path_exists f1 (frame_path dir eid i))
                               (seq 0 (Z.to_nat n))) < length (seq 0 (Z.to_nat n)))%nat).
      { apply (length_filter_lt _ _ i); [apply elem_of_seq; lia|].
        unfold os_path_exists. rewrite Hd. intros Hex.
        apply bool_decide_unpack in Hex. by destruct Hex. }
      rewrite length_seq in Hlt. lia.
    + intros Hall. rewrite filter_all; [by rewrite length_seq|].
      apply Forall_forall. intros i Hi%elem_of_seq. unfold os_path_exists.
      apply bool_decide_pack, Hall. lia.
  - intros i Hi. apply list_elem_of_filter in Hi as [Hex Hi%elem_of_seq].
    split; [lia|]. unfold os_path_exists in Hex. apply bool_decide_unpack in Hex.
    destruct Hex as [data Hd]. exists data. split; [done|].
    unfold rpi_image, found_bytes. simpl. by rewrite Hd.
Qed.

End cameras.

Section bursts_that_fail.
Context `{Runtime}.

Lemma seq_split_at (k n : nat) :
  (k < n)%nat → seq 0 n = (seq 0 k ++ k :: seq (S k) (n - S k))%list.
Proof.
  intros Hk. replace n with (k + S (n - S k))%nat at 1 by lia.
  rewrite seq_app. simpl. done.
Qed.

(** X8. When the mock camera fails to save frame [k] of a burst, the
    capture tick fails with that error and stores no event and no image row,
    but the files of the frames before [k], saved by then, stay on disk; no
    other path changes. *)
Theorem failed_burst_leaves_its_files (env : CaptureEnv) (w : World)
    (cam : Camera.MockCamera) (k : nat) :
  let eid := _event_counter (self w) + 1 in
  let dir := Config.image_dir (config (self w)) in
  let w' := step w (CaptureTick env) in
  consistent w → sensor_result env w = inr tt →
  camera (self w) = Mock cam →
  (k < Z.to_nat (Config.burst_size (config (self w))))%nat →
  (∀ i, (i < k)%nat → is_Some (Camera.jpeg (scene env) i)) →
  Camera.jpeg (scene env) k = None →
  (capture_once env w).2 = inl OSError ∧
  events (db w') = events (db w) ∧ images (db w') = images (db w) ∧
  fs w' = foldl (save_frame (scene env) eid dir) (fs w) (seq 0 k) ∧
  (∀ i, (i < k)%nat → is_Some (files (fs w') !! frame_path dir eid i)) ∧
  (∀ p, (∀ i, (i < k)%nat → p ≠ frame_path dir eid i) →
        files (fs w') !! p = files (fs w) !! p).
Proof.
  intros eid dir w' [Hids Hb] Hsensor Hcam Hk Hpre Hfail.
  assert (Hburst : burst env w
            = (foldl (save_frame (scene env) eid dir) (fs w) (seq 0 k), inl OSError)).
  { unfold burst. rewrite Hcam. cbn [dispatch_capture_burst Camera.capture_burst
      Camera.mock_backend]. unfold Camera.mock_capture_burst.
    rewrite (seq_split_at k _ Hk). apply mock_loop_stops; [|done].
    apply Forall_forall. intros i Hi%elem_of_seq. apply Hpre. lia. }
  assert (Hrun := capture_once_committed env w Hids (owners_bound w Hids Hb)).
  subst w'. change (step w (CaptureTick env)) with (capture_once env w).1.
  rewrite Hrun. cbn [fst snd]. unfold capture_committed, camera_result.
  rewrite Hsensor, Hburst. cbn [fst snd fs db with_fs with_db].
  assert (Hr : events (with_reading env w) = events (db w) ∧
               images (with_reading env w) = images (db w)).
  { unfold with_reading. destruct (sensor (self w)); [|done].
    by destruct (Sensors.read _ _ _ _). }
  destruct Hr as [-> ->]. do 4 (split; [done|]). split.
  - intros i Hi. apply foldl_save_present. apply elem_of_seq. lia.
  - intros p Hp.
    destruct (foldl_save_lookup (scene env) eid dir (seq 0 k) (fs w) p)
      as [?|(i & Hi%elem_of_seq & -> & _)]; [done|].
    destruct (Hp i); [lia|done].
Qed.

(** X9. With a burst size of zero or less the camera returns no
    artifact and the tick succeeds: an event row with [burst_size = 0] is
    stored under the next identifier, no image row is added, and the mock
    camera writes no file. *)
Theorem empty_burst_is_recorded (env : CaptureEnv) (w : World) :
  let w' := step w (CaptureTick env) in
  consistent w → sensor_result env w = inr tt →
  Config.burst_size (config (self w)) ≤ 0 →
  (∀ cam, camera (self w) = Rpi cam →
     ∃ written, Camera.tool (scene env) = Camera.ToolRan written) →
  (burst env w).2 = inr [] ∧
  (capture_once env w).2 = inr tt ∧
  (∃ ev, events (db w') = (events (db w) ++ [ev])%list ∧
         event_id ev = _event_counter (self w) + 1 ∧ burst_size ev = 0%nat) ∧
  images (db w') = images (db w) ∧
  (∀ cam, camera (self w) = Mock cam → fs w' = fs w).
Proof.
  intros w' [Hids Hb] Hsensor Hsize Htool.
  assert (Hzero : Z.to_nat (Config.burst_size (config (self w))) = 0%nat) by lia.
  assert (Hburst : (burst env w).2 = inr [] ∧
            (∀ cam, camera (self w) = Mock cam → (burst env w).1 = fs w)).
  { unfold burst. destruct (camera (self w)) as [cam|cam] eqn:Hcam.
    - cbn [dispatch_capture_burst Camera.capture_burst Camera.mock_backend].
      unfold Camera.mock_capture_burst. rewrite Hzero. done.
    - destruct (Htool cam eq_refl) as [written Ht].
      cbn [dispatch_capture_burst Camera.capture_burst Camera.rpi_backend].
      unfold Camera.rpi_capture_burst. rewrite Ht, Hzero. done. }
  destruct Hburst as [Hout Hfs]. split; [done|].
  assert (Hrun := capture_once_committed env w Hids (owners_bound w Hids Hb)).
  subst w'. change (step w (CaptureTick env)) with (capture_once env w).1.
  rewrite Hrun. cbn [fst snd]. unfold capture_committed, camera_result.
  rewrite Hsensor, Hout. cbn [fst snd fs db with_fs with_db].
  assert (Hr : events (with_reading env w) = events (db w) ∧
               images (with_reading env w) = images (db w)).
  { unfold with_reading. destruct (sensor (self w)); [|done].
    by destruct (Sensors.read _ _ _ _). }
  destruct Hr as [Hre Hri].
  split; [done|]. split; [|split].
  - eexists. unfold with_burst. cbn [events with_events with_images].
    rewrite Hre. split; [done|]. done.
  - unfold with_burst. cbn [images with_images]. by rewrite Hri, app_nil_r.
  - done.
Qed.
End bursts_that_fail.

Section heartbeat_request.
Context `{Runtime}.

Lemma foldl_max_sorted rest : ∀ x,
  StronglySorted Z.lt (x :: rest) → foldl Z.max x rest = default x (last rest).
Proof.
  induction rest as [|y rest IH]; intros x Hs; [done|].
  apply StronglySorted_inv in Hs as [Hs Hall].
  apply Forall_cons in Hall as [Hxy _]. simpl foldl.
  rewrite Z.max_r by lia. rewrite (IH y Hs).
  destruct rest as [|z rest]; [done|].
  change (last (y :: z :: rest)) with (last (z :: rest)).
  destruct (last (z :: rest)) eqn:E; [done|]. by apply last_None in E.
Qed.

Lemma sql_max_sorted (l : list Z) :
  StronglySorted Z.lt l → sql_max l = last l.
Proof.
  destruct l as [|x rest]; [done|]. intros Hs. unfold sql_max.
  rewrite (foldl_max_sorted rest x Hs).
  destruct rest as [|y rest]; [done|].
  change (last (x :: y :: rest)) with (last (y :: rest)).
  destruct (last (y :: rest)) eqn:E; [done|]. by apply last_None in E.
Qed.

(** X22. The [last_event_id] that the heartbeat sends,
    [_get_max_id('capture_events_local', 'event_id')], is the identifier of
    the newest stored event, 0 when there is none, and no stored event has a
    larger one. The tick depends on the server only through the reply to that
    request, and neither a sync nor a heartbeat tick changes the value. *)
Theorem heartbeat_reports_newest_event (srv srv' : Server) (w : World) :
  ids_ok w →
  let device := Config.device_id (config (self w)) in
  let newest := default 0 (last (event_id <$> events (db w))) in
  _get_max_id (db w) capture_events_local = newest ∧
  (∀ e, e ∈ events (db w) → event_id e ≤ newest) ∧
  (heartbeat_reply srv device newest = heartbeat_reply srv' device newest →
   step w (HeartbeatTick srv) = step w (HeartbeatTick srv')) ∧
  _get_max_id (db (step w (SyncTick srv))) capture_events_local = newest ∧
  _get_max_id (db (step w (HeartbeatTick srv))) capture_events_local = newest.
Proof.
  intros (Hsorted & _) device newest.
  assert (Hmax : ∀ d, event_id <$> events d = event_id <$> events (db w) →
            _get_max_id d capture_events_local = newest).
  { intros d Hd. unfold _get_max_id. cbn [column]. rewrite Hd.
    by rewrite (sql_max_sorted _ Hsorted). }
  split; [by apply Hmax|]. split; [|split; [|split]].
  - intros e He. rewrite <- (Hmax (db w) eq_refl).
    pose proof (get_max_id_ge (db w) capture_events_local) as Hge.
    rewrite Forall_forall in Hge. apply Hge. simpl. by apply list_elem_of_fmap_2.
  - intros Heq. simpl. unfold iteration. rewrite !heartbeat_once_spec.
    rewrite (Hmax (db w) eq_refl). fold device. by rewrite Heq.
  - apply Hmax. by destruct (sync_tick_effect srv w) as (_ & _ & _ & _ & ? & _).
  - apply Hmax. destruct (heartbeat_tick_effect srv w) as (_ & _ & _ & He & _).
    by rewrite He.
Qed.
End heartbeat_request.

Section disk.
Context `{Runtime}.





End disk.

(** ** The properties on the concrete device *)

Section on_the_device.
#[local] Existing Instance Demo.runtime.

Lemma store_ok_pending : store_ok (db Demo.pending).
Proof.
  split.
  - apply (bool_decide_unpack _). by vm_compute.
  - intros r Hin Hc. vm_compute in Hin.
    repeat (apply elem_of_cons in Hin as [->|Hin]; [done|]).
    by apply elem_of_nil in Hin.
Qed.

Lemma accepted_ok body : accepted (Demo.ok body).
Proof. exists 200, body. split; [done|lia]. Qed.

Lemma ids_ok_booted b : ids_ok (Demo.booted b).
Proof. destruct b; vm_compute; repeat constructor. Qed.

(** C1 on the device: watermark 1, events 1 and 2 captured; the cleanup
    tick leaves the first image of event 2 as it is. *)
Lemma cleanup_respects_watermark_witness :
  get_state_value (db Demo.acked) Client.watermark_key = Some "1" ∧
  py_int "1" = Some 1 ∧
  1 < event_local_id (Demo.row Demo.acked 2) ∧
  images (db (step Demo.acked (CleanupTick 300))) !! 2%nat
    = Some (Demo.row Demo.acked 2).
Proof.
  split; [by vm_compute|]. split; [by vm_compute|]. split; [by vm_compute|].
  destruct (cleanup_respects_watermark 300 Demo.acked) as (_ & _ & Hw).
  destruct (Hw "1" 1) as (Hrows & _); [by vm_compute..|].
  apply Hrows; by vm_compute.
Defined.

(** C9 on the device: the file of the first image of event 1 cannot be
    unlinked; its row stays, the row of the second image is marked
    deleted. *)
Lemma cleanup_candidate_outcome_witness :
  images (db (step Demo.acked_locked (CleanupTick 300))) !! 0%nat
    = Some (Demo.row Demo.acked_locked 0) ∧
  images (db (step Demo.acked_locked (CleanupTick 300))) !! 1%nat
    = Some (set_deleted (Demo.row Demo.acked_locked 1)).
Proof.
  assert (Hc := cleanup_candidate_outcome 300 Demo.acked_locked "1" 1).
  cbv zeta in Hc. split; (specialize (Hc ltac:(by vm_compute) ltac:(by vm_compute))).
  - destruct (Hc 0%nat (Demo.row Demo.acked_locked 0)) as (_ & _ & _ & Hstuck).
    { vm_compute. left. }
    apply Hstuck; apply (bool_decide_unpack _); by vm_compute.
  - destruct (Hc 1%nat (Demo.row Demo.acked_locked 1)) as (_ & _ & Hfree & _).
    { vm_compute. right. left. }
    apply Hfree; apply (bool_decide_unpack _); by vm_compute.
Defined.

(** C7 as stated fails: the reply is malformed, its watermark is the text
    "soon" where an integer belongs; the tick does not leave the stored
    watermark "1" as it was but replaces it, and the new value cannot be
    read as an integer. *)
Lemma malformed_watermark_replaces_stored :
  heartbeat_reply Demo.vague "device-001" 2
    = Client.Response 200 (Some (JObj [(Client.watermark_key, JStr "soon")])) ∧
  get_state_value (db Demo.acked) Client.watermark_key = Some "1" ∧
  get_state_value (db (step Demo.acked (HeartbeatTick Demo.vague)))
    Client.watermark_key = Some "soon" ∧
  py_int "1" = Some 1 ∧ py_int "soon" = None.
Proof. by vm_compute. Qed.

(** C7 on the device, as the code has it: an unreachable server leaves the
    world as it is; a reply with watermark 5 is stored as "5". *)
Lemma heartbeat_keeps_or_stores_watermark_witness :
  step Demo.acked (HeartbeatTick Demo.offline) = Demo.acked ∧
  get_state_value (db (step Demo.acked (HeartbeatTick (Demo.online 5))))
    Client.watermark_key = Some "5".
Proof.
  split.
  - destruct (heartbeat_keeps_or_stores_watermark Demo.offline Demo.acked)
      as (Hfail & _).
    apply Hfail. constructor.
  - destruct (heartbeat_keeps_or_stores_watermark (Demo.online 5) Demo.acked)
      as (_ & Hstore & _).
    destruct (Hstore 200 [(Client.watermark_key, JInt 5)] (JInt 5))
      as [_ Hs]; [by vm_compute|lia|by vm_compute|done|].
    exact Hs.
Defined.

(** C2 on the device: an image whose upload failed stays corrupted and
    not uploaded through a later sync with a server that accepts
    everything. *)
Lemma corrupted_is_terminal_witness :
  corrupted (Demo.row (run [CaptureTick (Demo.good 100); SyncTick Demo.flaky]
                         (Demo.booted false)) 0) = true ∧
  ∃ r', images (db (run [SyncTick (Demo.online 1)]
                      (run [CaptureTick (Demo.good 100); SyncTick Demo.flaky]
                         (Demo.booted false)))) !! 0%nat = Some r' ∧
        corrupted r' = true ∧ uploaded r' = false.
Proof.
  split; [by vm_compute|].
  destruct (corrupted_is_terminal
              [CaptureTick (Demo.good 100); SyncTick Demo.flaky]
              [SyncTick (Demo.online 1)] (Demo.booted false) 0
              (Demo.row (run [CaptureTick (Demo.good 100); SyncTick Demo.flaky]
                           (Demo.booted false)) 0))
    as (_ & r' & Hr' & Hc' & Hu' & _); [by vm_compute..|].
  exists r'. split; [exact Hr'|]. split; [exact Hc'|exact Hu'].
Defined.

(** C3 as stated fails: the PUT of the first image raises (the server is
    unreachable, a transport failure) and the row, not corrupted before
    the tick, is corrupted after it. *)
Lemma transport_failure_marks_corrupted :
  image_reply Demo.flaky "device-001" 1 0 "sha256:2" Demo.frame
    = Client.Unreachable ∧
  corrupted <$> images (db Demo.captured) !! 0%nat = Some false ∧
  corrupted <$> images (db (step Demo.captured (SyncTick Demo.flaky))) !! 0%nat
    = Some true.
Proof. by vm_compute. Qed.

(** C3 on the device, as the code has it. *)
Lemma upload_failure_marks_corrupted_witness :
  images (db (sync_images Demo.flaky Demo.pending).1) !! 0%nat
    = Some (set_corrupted (Demo.row Demo.pending 0)).
Proof.
  destruct (upload_failure_marks_corrupted Demo.flaky Demo.pending 0
              (Demo.row Demo.pending 0) store_ok_pending)
    as (_ & _ & _ & Hfail).
  { vm_compute. left. }
  apply (Hfail Demo.frame); [by vm_compute|by left].
Defined.

(** C4 on the device: an accepted batch marks event 1 and its first
    image. *)
Lemma metadata_batch_all_or_nothing_witness :
  set_event_uploaded (Demo.event Demo.captured 0)
    ∈ events (db (step Demo.captured (SyncTick (Demo.online 1)))) ∧
  events (db (step Demo.captured (SyncTick Demo.offline)))
    = events (db Demo.captured).
Proof.
  split.
  - destruct (metadata_batch_all_or_nothing (Demo.online 1) Demo.captured)
      as (Hacc & _).
    destruct Hacc as (_ & Hev & _); [exact (accepted_ok None)|].
    destruct (Hev (Demo.event Demo.captured 0)) as [Hin _]; [|exact Hin].
    vm_compute. left.
  - destruct (metadata_batch_all_or_nothing Demo.offline Demo.captured)
      as (_ & Hfail).
    destruct Hfail as (_ & He & _); [left; reflexivity|exact He].
Defined.

(** C5 as stated fails: the first tick fails and stores nothing, the
    process restarts, and the next tick is handed identifier 1 again. *)
Lemma allocation_repeats_after_restart :
  allocated_events Demo.fails_then_restarts (Demo.booted false) = [1; 1] ∧
  ¬ StronglySorted Z.lt
      (allocated_events Demo.fails_then_restarts (Demo.booted false)).
Proof.
  split; [by vm_compute|]. vm_compute.
  intros Hs. inversion Hs as [|? ? _ Hall]; subst.
  inversion Hall as [|? ? Hlt _]; subst. discriminate Hlt.
Qed.

(** C5 on the device, as the code has it. *)
Lemma identifiers_increase_witness :
  ids_ok (run Demo.fails_then_restarts (Demo.booted false)) ∧
  StronglySorted Z.lt
    (allocated_events [CaptureTick (Demo.bad 100); CaptureTick (Demo.good 200)]
       (Demo.booted false)).
Proof.
  split.
  - apply (identifiers_increase Demo.fails_then_restarts (Demo.booted false)
             (ids_ok_booted false)).
  - destruct (identifiers_increase
                [CaptureTick (Demo.bad 100); CaptureTick (Demo.good 200)]
                (Demo.booted false) (ids_ok_booted false)) as (_ & Hrun & _).
    destruct Hrun as (Hs & _); [|exact Hs].
    repeat constructor; by intros [].
Defined.

(** On the device the path of a file determines its name. *)
Lemma path_join_apart (dir a b : string) : path_join dir a = path_join dir b → a = b.
Proof. intros Heq. simpl in Heq. by do 2 apply (inj (String.app _)) in Heq. Qed.

(** C6 on the device: the row of the first image has the digest of the
    frame, the file at its path holds the frame when the tick ends, and the
    row keeps the digest through a sync and a cleanup. *)
Lemma checksum_fixed_at_capture_witness :
  sha256_hex (Demo.row Demo.captured 0) = sha256_hexdigest Demo.frame ∧
  files (fs Demo.captured) !! local_path (Demo.row Demo.captured 0)
    = Some Demo.frame ∧
  ∃ r', images (db (run [SyncTick (Demo.online 1); HeartbeatTick (Demo.online 1);
                         CleanupTick 300] Demo.captured)) !! 0%nat = Some r' ∧
        sha256_hex r' = sha256_hexdigest Demo.frame.
Proof.
  destruct (checksum_fixed_at_capture (Demo.good 100) (Demo.booted false)
              [SyncTick (Demo.online 1); HeartbeatTick (Demo.online 1);
               CleanupTick 300] 0 (Demo.row Demo.captured 0))
    as ((data & Hj & _ & _ & Hsha & _ & _ & _ & Hdisk) & r' & Hr' & Hkeep);
    [by vm_compute..|].
  assert (Some data = Some Demo.frame) as [= ->] by (rewrite <- Hj; by vm_compute).
  split; [exact Hsha|]. split; [exact (Hdisk (path_join_apart "images"))|].
  exists r'. split; [exact Hr'|]. by rewrite Hkeep.
Defined.

(** C8 on the device: crate 1 "A", burst size 2. *)
Lemma burst_size_counts_returned_images_witness :
  burst_size <$> events (db Demo.captured) = [2%nat] ∧
  image_index <$> images (db Demo.captured) = [0; 1].
Proof.
  destruct (burst_size_counts_returned_images (Demo.good 100) (Demo.booted false))
    as (imgs & ev & _ & Hev & _ & _ & _ & Him & _ & Hmock); [by vm_compute|].
  destruct (Hmock Camera.new_mock) as (_ & _ & Htwo); [by vm_compute|].
  destruct Htwo as [Hb Hidx]; [by vm_compute|].
  unfold Demo.captured. rewrite Hev, Him. split.
  - rewrite fmap_app, fmap_cons, Hb. by vm_compute.
  - rewrite fmap_app, Hidx. by vm_compute.
Defined.

(** C10 as stated fails: the tick that fails is handed identifier 1 and
    stores no event; after a restart the next tick stores an event with
    identifier 1. *)
Lemma skipped_identifier_used_after_restart :
  _event_counter (self (step (Demo.booted true) (CaptureTick (Demo.bad 100)))) = 1 ∧
  events (db (step (Demo.booted true) (CaptureTick (Demo.bad 100)))) = [] ∧
  reading_id <$> readings (db (step (Demo.booted true) (CaptureTick (Demo.bad 100))))
    = [1] ∧
  event_id <$> events (db (run Demo.fails_then_restarts (Demo.booted true))) = [1].
Proof. by vm_compute. Qed.

(** C10 on the device, as the code has it. *)
Lemma failed_capture_keeps_reading_witness :
  readings (db (step (Demo.booted true) (CaptureTick (Demo.bad 100))))
    = [reading_record Demo.mock_reading] ∧
  events (db (step (Demo.booted true) (CaptureTick (Demo.bad 100)))) = [] ∧
  set_reading_uploaded (reading_record Demo.mock_reading) ∈
    readings (db (step (step (Demo.booted true) (CaptureTick (Demo.bad 100)))
                    (SyncTick (Demo.online 1)))).
Proof.
  destruct (failed_capture_keeps_reading (Demo.bad 100) (Demo.booted true)
              Sensors.MockSensor Demo.mock_reading Demo.disk OSError)
    as (_ & Hr & _ & _ & He & _ & _ & Hup & _).
  { by vm_compute. }
  { by vm_compute. }
  { vm_compute. apply not_elem_of_nil. }
  { by vm_compute. }
  split; [exact Hr|]. split; [exact He|].
  destruct Hup as [_ Hup]; [vm_compute; lia|].
  apply Hup. exact (accepted_ok None).
Defined.

(** *** The further properties on the device *)

Lemma consistent_started c b w :
  startup c b Store.empty Demo.disk = inr w → consistent w.
Proof. intros Hs. by apply (startup_consistent c b Store.empty Demo.disk). Qed.

Lemma consistent_booted b : consistent (Demo.booted b).
Proof. apply (consistent_started (Demo.cfg b) Demo.boot). by destruct b. Qed.

(** X2 on the device: a file with the two required keys, a crate section
    and a key [extra] is loaded as the defaults with the crate section in
    [extra]. *)
Lemma from_yaml_agrees_with_defaults_witness :
  ConfigFile.from_yaml (JObj Demo.document) =
    inr (with_extra
           (ConfigFile.defaults (JStr "device-001") (JStr "https://example.com"))
           [("crate", JObj [("id", JInt 1)])]).
Proof.
  rewrite (from_yaml_agrees_with_defaults Demo.document
             (JStr "device-001") (JStr "https://example.com")).
  - reflexivity.
  - reflexivity.
  - reflexivity.
  - intros k Hk Hreq Hextra. unfold ConfigFile.annotations in Hk.
    repeat (apply elem_of_cons in Hk as [->|Hk];
            [first [reflexivity | done | destruct Hreq; set_solver]|]).
    by apply elem_of_nil in Hk.
Defined.

(** X3 on the device: the crate section is found in [extra], the key
    [extra] of the file is not. *)
Lemma from_yaml_extra_keys_witness :
  Client.dict_get (ConfigFile.extra Demo.loaded) "crate" = Some (JObj [("id", JInt 1)]) ∧
  Client.dict_get (ConfigFile.extra Demo.loaded) "extra" = None.
Proof.
  destruct (from_yaml_extra_keys Demo.document Demo.loaded eq_refl)
    as (_ & Hextra & Hpass & _).
  split; [|exact Hextra]. rewrite Hpass; [reflexivity|]. left.
Defined.

(** X7 on the device: the tool leaves the first of two frames; the burst is
    that one frame. *)
Lemma rpi_burst_returns_the_files_found_witness :
  (Camera.image_index <$>
     default [] (match (Camera.rpi_capture_burst Camera.new_rpi Demo.pi_scene 1
                          "images" 2 Demo.disk).2 with
                 | inr imgs => Some imgs
                 | inl _ => None
                 end)) = [0%nat].
Proof.
  destruct (rpi_burst_returns_the_files_found Camera.new_rpi Demo.pi_scene 1
              "images" 2 Demo.disk [(Demo.first_path, Demo.frame)] eq_refl)
    as (-> & _).
  by vm_compute.
Defined.

(** X8 on the device: the second frame of the first burst cannot be saved;
    the first frame is on disk and no event is stored. *)
Lemma failed_burst_leaves_its_files_witness :
  is_Some (files (fs (step (Demo.booted false) (CaptureTick (Demo.half 100))))
             !! Demo.first_path) ∧
  events (db (step (Demo.booted false) (CaptureTick (Demo.half 100)))) = [].
Proof.
  destruct (failed_burst_leaves_its_files (Demo.half 100) (Demo.booted false)
              Camera.new_mock 1) as (_ & He & _ & _ & Hfiles & _).
  - exact (consistent_booted false).
  - reflexivity.
  - reflexivity.
  - vm_compute. lia.
  - intros i Hi. assert (i = 0%nat) as -> by lia. by eexists.
  - reflexivity.
  - split; [exact (Hfiles 0%nat ltac:(lia))|exact He].
Defined.

(** X9 on the device: a burst size of 0 gives event 1 without images. *)
Lemma empty_burst_is_recorded_witness :
  burst_size <$> events (db (step (Demo.started Demo.cfg_empty Demo.boot)
                               (CaptureTick (Demo.good 100)))) = [0%nat] ∧
  images (db (step (Demo.started Demo.cfg_empty Demo.boot)
                (CaptureTick (Demo.good 100)))) = [].
Proof.
  destruct (empty_burst_is_recorded (Demo.good 100)
              (Demo.started Demo.cfg_empty Demo.boot))
    as (_ & _ & (ev & -> & _ & Hb) & -> & _).
  - by apply (consistent_started Demo.cfg_empty Demo.boot).
  - reflexivity.
  - vm_compute. discriminate.
  - intros cam Hcam. discriminate Hcam.
  - split; [|reflexivity]. rewrite fmap_app, fmap_cons, Hb. reflexivity.
Defined.

(** X10 on the device: the driver reads nothing; the tick fails and only
    the counters move. *)
Lemma failed_sensor_read_skips_burst_witness :
  (capture_once (Demo.good 100) (Demo.started Demo.cfg_dht22 Demo.boot_pi)).2
    = inl RuntimeError ∧
  db (step (Demo.started Demo.cfg_dht22 Demo.boot_pi) (CaptureTick (Demo.good 100)))
    = db (Demo.started Demo.cfg_dht22 Demo.boot_pi).
Proof.
  destruct (failed_sensor_read_skips_burst (Demo.good 100)
              (Demo.started Demo.cfg_dht22 Demo.boot_pi) {| Sensors.pin := 4 |})
    as [Hfail ->].
  - reflexivity.
  - left. reflexivity.
  - split; [exact Hfail|reflexivity].
Defined.

(** X11 on the device: no reading after a capture, a sync and a restart. *)
Lemma disabled_sensor_stores_no_reading_witness :
  length (readings (db (run [CaptureTick (Demo.good 100); SyncTick (Demo.online 1);
                             Restart Demo.boot_pi] (Demo.booted false)))) = 0%nat.
Proof.
  destruct (disabled_sensor_stores_no_reading
              [CaptureTick (Demo.good 100); SyncTick (Demo.online 1);
               Restart Demo.boot_pi] (Demo.booted false))
    as (_ & _ & -> & _); reflexivity.
Defined.

(** X13 on the device: a second start gives the same device. *)
Lemma second_start_changes_nothing_witness :
  startup (Demo.cfg false) Demo.boot (db (Demo.booted false)) (fs (Demo.booted false))
    = inr (Demo.booted false).
Proof.
  apply (second_start_changes_nothing (Demo.cfg false) Demo.boot Store.empty Demo.disk).
  reflexivity.
Defined.


(** X15 on the device: after a first burst the process is killed in the
    second, after one of its two image inserts, and started again; a sync
    later the second event still says two images and has one row. *)
Lemma bursts_stay_whole_witness :
  ∃ e, e ∈ events (db (history (KilledInBurst (Demo.good 200) 1 Demo.boot
                                :: (Ticked <$> [SyncTick (Demo.online 1)]))
                         (history [Ticked (CaptureTick (Demo.good 100))]
                            (Demo.booted false)))) ∧
       event_id e = 2 ∧ burst_size e = 2%nat ∧
       length (filter (λ r, event_local_id r = 2)
                 (images (db (history (KilledInBurst (Demo.good 200) 1 Demo.boot
                                       :: (Ticked <$> [SyncTick (Demo.online 1)]))
                                (history [Ticked (CaptureTick (Demo.good 100))]
                                   (Demo.booted false)))))) = 1%nat.
Proof.
  destruct (bursts_stay_whole [Ticked (CaptureTick (Demo.good 100))]
              (Demo.booted false) (consistent_sound _ (consistent_booted false)))
    as (_ & _ & _ & _ & _ & Hkill).
  cbv zeta in Hkill.
  destruct (Hkill (Demo.good 200) 1%nat Demo.boot
              (default [] (match (burst (Demo.good 200) Demo.captured).2 with
                           | inr imgs => Some imgs
                           | inl _ => None
                           end))
              [SyncTick (Demo.online 1)])
    as (e & He & Hid & Hsize & Hrows); [by vm_compute..|].
  set (eid := _event_counter _ + 1) in Hid, Hrows.
  assert (Heid : eid = 2) by (by vm_compute).
  clearbody eid. rewrite Heid in Hid, Hrows.
  exists e. split; [exact He|]. split; [exact Hid|]. split.
  - etrans; [exact Hsize|]. by vm_compute.
  - etrans; [exact Hrows|]. by vm_compute.
Defined.



(** X18 on the device: the row that a failed upload leaves corrupted has
    its metadata uploaded. *)
Lemma no_binary_before_metadata_witness :
  corrupted (Demo.row (run [CaptureTick (Demo.good 100); SyncTick Demo.flaky]
                         (Demo.booted false)) 0) = true ∧
  metadata_uploaded (Demo.row (run [CaptureTick (Demo.good 100); SyncTick Demo.flaky]
                                 (Demo.booted false)) 0) = true.
Proof.
  split; [reflexivity|].
  destruct (no_binary_before_metadata
              [CaptureTick (Demo.good 100); SyncTick Demo.flaky] (Demo.booted false) 0
              (Demo.row (run [CaptureTick (Demo.good 100); SyncTick Demo.flaky]
                           (Demo.booted false)) 0))
    as (_ & Hc & _); [reflexivity|by vm_compute|].
  apply Hc. reflexivity.
Defined.

Lemma NoDup_events_captured_twice : NoDup (event_id <$> events (db Demo.captured_twice)).
Proof. apply (bool_decide_unpack _). by vm_compute. Qed.

(** X19 on the device: two events wait; an accepted batch empties the
    queue. *)
Lemma accepted_events_leave_the_queue_witness :
  length (event_queue (db Demo.captured_twice)) = 2%nat ∧
  event_queue (db (step Demo.captured_twice (SyncTick (Demo.online 1)))) = [].
Proof.
  split; [reflexivity|].
  destruct (accepted_events_leave_the_queue (Demo.online 1) Demo.captured_twice
              NoDup_events_captured_twice) as (_ & Hacc & _).
  destruct Hacc as (-> & _); [exact (accepted_ok None)|reflexivity].
Defined.

(** X20 on the device: one reading waits; an unreachable server leaves it
    in the queue. *)
Lemma accepted_readings_leave_the_queue_witness :
  length (reading_queue (db (step (step (Demo.booted true) (CaptureTick (Demo.good 100)))
                               (SyncTick Demo.offline)))) = 1%nat ∧
  reading_queue (db (step (step (Demo.booted true) (CaptureTick (Demo.good 100)))
                       (SyncTick (Demo.online 1)))) = [].
Proof.
  destruct (accepted_readings_leave_the_queue Demo.offline
              (step (Demo.booted true) (CaptureTick (Demo.good 100))))
    as (_ & _ & Hfail).
  { apply (bool_decide_unpack _). by vm_compute. }
  destruct (accepted_readings_leave_the_queue (Demo.online 1)
              (step (Demo.booted true) (CaptureTick (Demo.good 100))))
    as (_ & Hacc & _).
  { apply (bool_decide_unpack _). by vm_compute. }
  split.
  - rewrite Hfail; [reflexivity|left; reflexivity].
  - destruct Hacc as (-> & _); [exact (accepted_ok None)|reflexivity].
Defined.

(** X21 on the device: the server is unreachable; the image whose metadata
    was acknowledged before is attempted, and marked corrupted. *)
Lemma metadata_failure_leaves_uploads_running_witness :
  images (db (step Demo.pending (SyncTick Demo.offline))) !! 0%nat
    = Some (set_corrupted (Demo.row Demo.pending 0)).
Proof.
  destruct (metadata_failure_leaves_uploads_running Demo.offline Demo.pending)
    as (_ & _ & _ & Hbatch).
  { intros payload. left. reflexivity. }
  rewrite (Hbatch 0%nat (Demo.row Demo.pending 0)).
  - reflexivity.
  - vm_compute. left.
  - exact store_ok_pending.
Defined.

Lemma ids_ok_captured_twice : ids_ok Demo.captured_twice.
Proof. do 2 apply step_ids_ok. apply ids_ok_booted. Qed.

(** X22 on the device: after two bursts the heartbeat reports event 2. *)
Lemma heartbeat_reports_newest_event_witness :
  _get_max_id (db Demo.captured_twice) capture_events_local = 2.
Proof.
  destruct (heartbeat_reports_newest_event Demo.offline Demo.offline
              Demo.captured_twice ids_ok_captured_twice) as (-> & _).
  reflexivity.
Defined.

(** X23 on the device: the server acknowledges event 1; the first row of
    event 2 is left as it is by the cleanup that follows. *)
Lemma watermark_read_back_witness :
  images (db (step (step Demo.captured_twice (HeartbeatTick (Demo.online 1)))
                (CleanupTick 300))) !! 2%nat
    = Some (Demo.row Demo.captured_twice 2).
Proof.
  destruct (watermark_read_back (Demo.online 1) Demo.captured_twice 300 1 200
              [(Client.watermark_key, JInt 1)]) as (Hkeep & _).
  - reflexivity.
  - reflexivity.
  - lia.
  - reflexivity.
  - apply Hkeep; [reflexivity|]. vm_compute. reflexivity.
Defined.

(** X24 on the device: the watermark "soon" is stored, and stops the
    cleanup. *)
Lemma unreadable_watermark_stops_cleanup_witness :
  get_state_value (db (step Demo.captured_twice (HeartbeatTick Demo.vague)))
    Client.watermark_key = Some "soon" ∧
  (cleanup_once 300 (step Demo.captured_twice (HeartbeatTick Demo.vague))).2
    = inl ValueError.
Proof.
  destruct (unreadable_watermark_stops_cleanup Demo.vague Demo.captured_twice 200
              [(Client.watermark_key, JStr "soon")] (JStr "soon"))
    as (Hstored & Hstop).
  - reflexivity.
  - lia.
  - reflexivity.
  - discriminate.
  - reflexivity.
  - split; [exact Hstored|]. exact (proj1 (Hstop 300)).
Defined.

End on_the_device.
